(** * OpenMOC surface model: a shallow embedding of [src/Surface.cpp]

    The development follows the C++ file top to bottom: the process-wide
    id counters, the [Surface] base class with its two neighbour vectors,
    [Plane] and its axis-aligned subclasses, and [ZCylinder].

    Conventions of the embedding.
    - [int] is a 32-bit two's complement integer: a [Z] that is wrapped
      ([wrap32]) wherever the code increments it.
    - [double] is idealised as a real number ([R]); [sin], [cos], [tan],
      [sqrt], [fabs] are the exact functions and [M_PI] is [PI].
    - [Cell*] and [Surface*] are addresses ([ptr]) into explicit object
      stores; dereferencing an address that holds no object, writing
      outside the caller's buffer and leaving a non-void function without
      a [return] are undefined behaviour ([Undefined]).
    - [log_printf(ERROR, ...)] raises ([Fatal]); the state reached when it
      raises is kept in the outcome. *)

From Stdlib Require Import ZArith String Ascii Reals Lra Lia Psatz Sorted.
From stdpp Require Import gmap list.

(** ** Outcomes of a call *)

(** A diagnostic is the format string of the message with its integer
    arguments, in the order they are passed to [log_printf]. *)
Record diagnostic := Diagnostic {
  diag_format : string;
  diag_args : list Z
}.

Inductive outcome (St A : Type) : Type :=
| Returned (a : A) (st : St)
| Fatal (d : diagnostic) (st : St)
| Undefined.
Arguments Returned {St A} a st.
Arguments Fatal {St A} d st.
Arguments Undefined {St A}.

(** Computations over a state [St] that may raise or go wrong. *)
Definition M (St A : Type) : Type := St -> outcome St A.

Definition ret {St A} (a : A) : M St A := fun st => Returned a st.

Definition bind {St A B} (m : M St A) (k : A -> M St B) : M St B :=
  fun st =>
    match m st with
    | Returned a st' => k a st'
    | Fatal d st' => Fatal d st'
    | Undefined => Undefined
    end.

Definition get {St} : M St St := fun st => Returned st st.
Definition put {St} (st : St) : M St unit := fun _ => Returned tt st.
Definition undefined {St A} : M St A := fun _ => Undefined.
Definition raise {St A} (d : diagnostic) : M St A := fun st => Fatal d st.

(** Dereference: [None] stands for an address with no object behind it. *)
Definition deref {St A} (o : option A) : M St A :=
  match o with
  | Some a => ret a
  | None => undefined
  end.

Declare Scope cpp_scope.
Delimit Scope cpp_scope with cpp.
Notation "x <- m ;; k" := (bind m (fun x => k))
  (at level 100, m at next level, right associativity) : cpp_scope.
Notation "m ;;; k" := (bind m (fun _ => k))
  (at level 100, right associativity) : cpp_scope.

(** A range-based loop: the body runs on each element in order. *)
Fixpoint for_each {St A} (l : list A) (body : A -> M St unit) : M St unit :=
  match l with
  | [] => ret tt
  | a :: l' => (body a ;;; for_each l' body)%cpp
  end.

(** Log levels of [log_printf] that the file uses. *)
Inductive logLevel := RESULT | ERROR.

(** Modelled from the spec: [log_printf] is defined in log.cpp, which is not
    part of the sources at hand.  The spec calls an invalid halfspace "a hard
    error (aborts geometry construction with a diagnostic identifying the
    offending Cell/Surface ids)", "fatal": at level [ERROR] the call raises
    with its message; at the other levels it prints and returns. *)
Definition log_printf {St} (level : logLevel) (fmt : string) (args : list Z)
  : M St unit :=
  match level with
  | ERROR => raise (Diagnostic fmt args)
  | RESULT => ret tt
  end.

(** ** Machine integers *)

Definition INT_MAX : Z := 2147483647.
Definition INT_MIN : Z := -2147483648.

(** The value an [int] holds after an arithmetic result [z] is stored. *)
Definition wrap32 (z : Z) : Z := ((z + 2 ^ 31) mod 2 ^ 32 - 2 ^ 31)%Z.

(** ** Addresses and enumerations *)

Definition ptr := positive.

Inductive surfaceType := PLANE | ZCYLINDER | XPLANE | YPLANE | ZPLANE.
Inductive boundaryType := VACUUM | REFLECTIVE | PERIODIC | BOUNDARY_NONE.

(** ** The static counters: [auto_id] and [Surface::_n] *)

Record globals := Globals {
  auto_id : Z;
  Surface_n : Z
}.

(** [static int auto_id = 10000; int Surface::_n = 0;] *)
Definition initial_globals : globals := Globals 10000 0.

Definition surf_id : M globals Z :=
  fun g =>
    let id := auto_id g in
    Returned id (Globals (wrap32 (auto_id g + 1)) (Surface_n g)).

Definition reset_surf_id : M globals unit :=
  fun g => Returned tt (Globals 10000 (Surface_n g)).

(** ** Points *)

Record Point := mkPoint {
  getX : R;
  getY : R;
  getZ : R
}.

Definition setCoords (x y z : R) : Point := mkPoint x y z.

(** ** Doubles that may be infinite

    The bounding extents return [std::numeric_limits<double>::infinity()]
    and its negation beside ordinary values. *)
Inductive xdouble :=
| NegInfinity
| Real (r : R)
| PosInfinity.

(** [a <= b] on such values. *)
Definition xle (a b : xdouble) : Prop :=
  match a, b with
  | NegInfinity, _ => True
  | _, PosInfinity => True
  | Real x, Real y => (x <= y)%R
  | _, _ => False
  end.

(** ** Surface *)

Module Surface.

(** The fields of the base class.  [_name] is [None] for the null
    pointer; [_neighbors] is the [std::map] from halfspace to the vector
    of neighbour Cells. *)
Record t := mk {
  _id : Z;
  _uid : Z;
  _name : option string;
  _surface_type : option surfaceType;
  _boundary_type : boundaryType;
  _neighbors : gmap Z (list ptr)
}.

Definition setName (name : string) (s : t) : t :=
  mk (_id s) (_uid s) (Some name) (_surface_type s) (_boundary_type s)
     (_neighbors s).

Definition set_surface_type (ty : surfaceType) (s : t) : t :=
  mk (_id s) (_uid s) (_name s) (Some ty) (_boundary_type s) (_neighbors s).

Definition setBoundaryType (b : boundaryType) (s : t) : t :=
  mk (_id s) (_uid s) (_name s) (_surface_type s) b (_neighbors s).

Definition set_neighbors (n : gmap Z (list ptr)) (s : t) : t :=
  mk (_id s) (_uid s) (_name s) (_surface_type s) (_boundary_type s) n.

Definition getUid (s : t) : Z := _uid s.
Definition getId (s : t) : Z := _id s.
Definition getName (s : t) : option string := _name s.
Definition getBoundaryType (s : t) : boundaryType := _boundary_type s.

(** [Surface::Surface(const int id, const char* name)] *)
Definition Surface (id : Z) (name : string) : M globals t :=
  (the_id <- (if decide (id = 0%Z) then surf_id else ret id) ;;
   g <- get ;;
   let uid := Surface_n g in
   put (Globals (auto_id g) (wrap32 (Surface_n g + 1))) ;;;
   let s := mk the_id uid None None BOUNDARY_NONE ∅ in
   let s := setName name s in
   let s := setBoundaryType BOUNDARY_NONE s in
   let s := set_neighbors (<[(-1)%Z := []]> (_neighbors s)) s in
   let s := set_neighbors (<[1%Z := []]> (_neighbors s)) s in
   ret s)%cpp.

End Surface.

(** Consecutive auto-assignments: one Surface is constructed with id
    argument 0 for each name of the list, in order. *)
Fixpoint construct_auto (names : list string) : M globals (list Surface.t) :=
  match names with
  | [] => ret []
  | name :: names' =>
      (s <- Surface.Surface 0 name ;;
       ss <- construct_auto names' ;;
       ret (s :: ss))%cpp
  end.

(** Consecutive constructions with any id arguments: one Surface for each
    (id, name) of the list, in order. *)
Fixpoint construct (requests : list (Z * string)) : M globals (list Surface.t) :=
  match requests with
  | [] => ret []
  | request :: requests' =>
      (s <- Surface.Surface (fst request) (snd request) ;;
       ss <- construct requests' ;;
       ret (s :: ss))%cpp
  end.

(** ** [Surface::setName] at the level of characters

    The argument is the array of characters the pointer [name] points to;
    [strlen] counts up to the first NUL and goes wrong if there is none. *)
Fixpoint strlen (name : list ascii) : option nat :=
  match name with
  | [] => None
  | c :: name' =>
      if Ascii.eqb c Ascii.zero then Some 0%nat else S <$> strlen name'
  end.

(** [_name[i] = name[i]] *)
Definition copy_char (name : list ascii) (i : nat) : M (list ascii) unit :=
  fun _name =>
    match name !! i with
    | Some c =>
        if decide (i < length _name)%nat
        then Returned tt (<[i := c]> _name)
        else Undefined
    | None => Undefined
    end.

(** [void Surface::setName(const char* name)], as it acts on the array
    [_name].  [fresh n] is the array [new char[n]] returns, of contents
    unknown.  [int length = strlen(name)] wraps; [length+1] overflows for
    [length = INT_MAX], and [new] throws for a negative size, which the
    model does not tell apart from going wrong. *)
Definition setName_chars (name : list ascii) (fresh : nat -> list ascii)
  : M (list ascii) unit :=
  fun _ =>
    match strlen name with
    | None => Undefined
    | Some n =>
        let length := wrap32 (Z.of_nat n) in
        if decide (length = INT_MAX) then Undefined
        else if decide (length + 1 < 0)%Z then Undefined
        else
          (* Initialize a character array for the Surface's name *)
          let _name := fresh (Z.to_nat (length + 1)) in
          (* Copy the input character array to the class attribute name *)
          for_each (seq 0 (Z.to_nat (length + 1))) (copy_char name) _name
    end.

(** The string a NUL-terminated array of characters holds. *)
Definition string_of_chars (chars : list ascii) : option string :=
  n ← strlen chars; Some (string_of_list_ascii (take n chars)).

(** The ids handed out by the counter in a run of [construct]: the ids of
    the Surfaces whose id argument was 0, in order. *)
Definition auto_assigned (requests : list (Z * string)) (ss : list Surface.t)
  : list Z :=
  omap (fun rs => if decide (fst (fst rs) = 0%Z)
                  then Some (Surface.getId (snd rs)) else None)
       (zip requests ss).

(** ** Cells, as far as the surface model touches them *)

Module Cell.

(** Modelled from the spec: the class is declared in Cell.h, which is not
    part of the sources at hand.  Of a Cell the surface model reads the id
    (for the diagnostic) and updates the collection of neighbours. *)
Record t := mk {
  _id : Z;
  _neighbors : list ptr
}.

Definition getId (c : t) : Z := _id c.

(** Modelled from the spec: [Cell::addNeighborCell] lives in Cell.cpp,
    which is not part of the sources at hand.  The spec has the call
    "inform" the Cell "of a new adjacency", which an adjacency query on
    the Cell then finds, and lets neighbour sets "never contain duplicate
    Cell references": the Cell is appended to the collection unless it is
    there already. *)
Definition addNeighborCell (this : ptr) (cell : ptr) : M (gmap ptr t) unit :=
  (cells <- get ;;
   c <- deref (cells !! this) ;;
   if decide (cell ∈ _neighbors c)
   then ret tt
   else put (<[this := mk (_id c) (_neighbors c ++ [cell])]> cells))%cpp.

(** The adjacency query: is [cell] among the neighbours of [this]? *)
Definition isNeighbor (cells : gmap ptr t) (this cell : ptr) : Prop :=
  exists c, cells !! this = Some c /\ cell ∈ _neighbors c.

#[global] Instance isNeighbor_dec (cells : gmap ptr t) (this cell : ptr) :
  Decision (isNeighbor cells this cell).
Proof.
  unfold isNeighbor. destruct (cells !! this) as [c |].
  - destruct (decide (cell ∈ _neighbors c)) as [Hin | Hnot].
    + left. exists c. split; [reflexivity | exact Hin].
    + right. intros (c' & Hc' & Hin). injection Hc' as <-. contradiction.
  - right. intros (c' & Hc' & _). discriminate Hc'.
Defined.

End Cell.

(** ** The object store *)

Record world := World {
  surfaces : gmap ptr Surface.t;
  cells : gmap ptr Cell.t
}.

(** Run a computation on the Cell store inside the world. *)
Definition on_cells {A} (m : M (gmap ptr Cell.t) A) : M world A :=
  fun w =>
    match m (cells w) with
    | Returned a cs => Returned a (World (surfaces w) cs)
    | Fatal d cs => Fatal d (World (surfaces w) cs)
    | Undefined => Undefined
    end.

Definition halfspace_error_format : string :=
  "Unable to add neighbor Cell %d to Surface %d since the halfspace %d is not -1 or 1".

(** [void Surface::addNeighborCell(int halfspace, Cell* cell)], called on
    the Surface at address [this]. *)
Definition addNeighborCell (this : ptr) (halfspace : Z) (cell : ptr)
  : M world unit :=
  (w <- get ;;
   s <- deref (surfaces w !! this) ;;
   (if decide (halfspace ≠ (-1)%Z ∧ halfspace ≠ 1%Z)
    then c <- deref (cells w !! cell) ;;
         log_printf ERROR halfspace_error_format [Cell.getId c; Surface._id s; halfspace]
    else ret tt) ;;;
   (* Get pointer to vector of neighbor Cells for this halfspace *)
   neighbors <- deref (Surface._neighbors s !! halfspace) ;;
   (* Add the neighbor Cell if the collection does not already contain it *)
   let neighbors' :=
     if decide (cell ∈ neighbors) then neighbors else neighbors ++ [cell] in
   let s' :=
     Surface.set_neighbors (<[halfspace := neighbors']> (Surface._neighbors s)) s in
   put (World (<[this := s']> (surfaces w)) (cells w)) ;;;
   (* Update Cells with the neighbor Cells on the opposite Surface halfspace *)
   neg <- deref (Surface._neighbors s' !! (-1)%Z) ;;
   pos <- deref (Surface._neighbors s' !! 1%Z) ;;
   for_each neg (fun iter1 =>
     for_each pos (fun iter2 =>
       on_cells (Cell.addNeighborCell iter1 iter2))) ;;;
   for_each pos (fun iter1 =>
     for_each neg (fun iter2 =>
       on_cells (Cell.addNeighborCell iter1 iter2))))%cpp.

(** ** Sequences of calls and what they preserve *)

(** One call [surface->addNeighborCell(halfspace, cell)]. *)
Record call := Call {
  call_surface : ptr;
  call_halfspace : Z;
  call_cell : ptr
}.

Definition run_calls (calls : list call) : M world unit :=
  for_each calls (fun c =>
    addNeighborCell (call_surface c) (call_halfspace c) (call_cell c)).

Definition valid_halfspace (halfspace : Z) : Prop :=
  halfspace = (-1)%Z \/ halfspace = 1%Z.

(** A Cell object lives at the address. *)
Definition allocated (cs : gmap ptr Cell.t) (c : ptr) : Prop :=
  is_Some (cs !! c).

(** The call names a Surface and a Cell that exist, and a halfspace that is
    -1 or +1. *)
Definition valid_call (w : world) (c : call) : Prop :=
  is_Some (surfaces w !! call_surface c)
  /\ valid_halfspace (call_halfspace c)
  /\ allocated (cells w) (call_cell c).

(** The two vectors of a Surface exist, hold no address twice and hold
    addresses of Cells only. *)
Definition surface_ok (cs : gmap ptr Cell.t) (s : Surface.t) : Prop :=
  exists neg pos,
    Surface._neighbors s !! (-1)%Z = Some neg
    /\ Surface._neighbors s !! 1%Z = Some pos
    /\ NoDup neg /\ NoDup pos
    /\ Forall (allocated cs) neg /\ Forall (allocated cs) pos.

Definition world_ok (w : world) : Prop :=
  forall sp s, surfaces w !! sp = Some s -> surface_ok (cells w) s.

(** Every Cell on one side of the Surface has every Cell on the other side
    among its neighbours. *)
Definition linked (cs : gmap ptr Cell.t) (s : Surface.t) : Prop :=
  forall neg pos c1 c2,
    Surface._neighbors s !! (-1)%Z = Some neg ->
    Surface._neighbors s !! 1%Z = Some pos ->
    c1 ∈ neg -> c2 ∈ pos ->
    Cell.isNeighbor cs c1 c2 /\ Cell.isNeighbor cs c2 c1.

(** [a] and [b] face each other across the Surface: one is in the vector of
    the -1 halfspace, the other in the vector of the +1 halfspace. *)
Definition opposite (s : Surface.t) (a b : ptr) : Prop :=
  exists neg pos,
    Surface._neighbors s !! (-1)%Z = Some neg
    /\ Surface._neighbors s !! 1%Z = Some pos
    /\ ((a ∈ neg /\ b ∈ pos) \/ (a ∈ pos /\ b ∈ neg)).

(** Cells stay where they are, keep their ids and keep their neighbours. *)
Definition cells_grow (cs cs' : gmap ptr Cell.t) : Prop :=
  forall c co,
    cs !! c = Some co ->
    exists co',
      cs' !! c = Some co'
      /\ Cell._id co' = Cell._id co
      /\ (forall x, x ∈ Cell._neighbors co -> x ∈ Cell._neighbors co').

(** The attributes of a Surface other than its neighbour vectors. *)
Definition same_attributes (s s' : Surface.t) : Prop :=
  Surface._id s' = Surface._id s
  /\ Surface._uid s' = Surface._uid s
  /\ Surface._name s' = Surface._name s
  /\ Surface._surface_type s' = Surface._surface_type s
  /\ Surface._boundary_type s' = Surface._boundary_type s.

(** What the calls have done to the vectors of the Surface at [sp], [s]
    being the object before and [s'] the object after: each vector has
    grown at its end, by the Cells the calls name for this Surface and
    halfspace and by no others, and no vector has appeared. *)
Definition registers (calls : list call) (sp : ptr) (s s' : Surface.t) : Prop :=
  forall halfspace,
    match Surface._neighbors s !! halfspace with
    | Some l =>
        exists l',
          Surface._neighbors s' !! halfspace = Some l'
          /\ l `prefix_of` l'
          /\ forall cell,
               cell ∈ l' <-> cell ∈ l \/ Call sp halfspace cell ∈ calls
    | None => Surface._neighbors s' !! halfspace = None
    end.

(** The call ended in a raised error. *)
Definition raises {St A} (o : outcome St A) : Prop :=
  match o with
  | Fatal _ _ => True
  | _ => False
  end.

(** ** Comparisons on [double] values, as booleans *)

Definition Rltb (a b : R) : bool := if Rlt_dec a b then true else false.
Definition Rgtb (a b : R) : bool := Rltb b a.
Definition Reqb (a b : R) : bool := if Req_dec_T a b then true else false.

(** ** The caller's buffer of Points *)

(** [points[i].setCoords(x, y, z)]: a store into slot [i] of the buffer. *)
Definition store (i : nat) (p : Point) : M (list Point) unit :=
  fun points =>
    if decide (i < length points)%nat
    then Returned tt (<[i := p]> points)
    else Undefined.

(** [points[i]] read as a value. *)
Definition load (i : nat) : M (list Point) Point :=
  fun points => deref (points !! i) points.

(** ** isPointOnSurface

    [evaluate] is a virtual method of the subclass and [ON_SURFACE_THRESH] a
    constant of constants.h; both are arguments here. *)
Definition isPointOnSurface (ON_SURFACE_THRESH : R) (evaluate : Point -> R)
    (point : Point) : bool :=
  if Rltb (Rabs (evaluate point)) ON_SURFACE_THRESH then true else false.

(** ** Plane *)

Module Plane.
Local Open Scope R_scope.

Record t := mk {
  base : Surface.t;
  _A : R;
  _B : R;
  _C : R;
  _D : R
}.

Definition getName (p : t) : option string := Surface.getName (base p).
Definition getId (p : t) : Z := Surface.getId (base p).

(** [Plane::Plane(A, B, C, D, id, name) : Surface(id, name)] *)
Definition Plane (A B C D : R) (id : Z) (name : string) : M globals t :=
  (s <- Surface.Surface id name ;;
   ret (mk (Surface.set_surface_type PLANE s) A B C D))%cpp.

(** Modelled from the spec: [Plane::evaluate] is defined in Surface.h,
    which is not part of the sources at hand.  The spec has [evaluate]
    return the "signed implicit-function value", "zero at the boundary";
    for a Plane the implicit equation is the one the constructor
    documents, A * x + B * y + C * z + D = 0. *)
Definition evaluate (p : t) (point : Point) : R :=
  _A p * getX point + _B p * getY point + _C p * getZ point + _D p.

(** The direction cosines of the trajectory. *)
Definition mx (azim polar : R) : R := sin polar * cos azim.
Definition my (azim polar : R) : R := sin polar * sin azim.
Definition mz (polar : R) : R := cos polar.

(** The test of the first [if]: "the track and plane are parallel". *)
Definition parallel (p : t) (azim polar : R) : bool :=
  (Rltb (Rabs (mx azim polar)) 1e-10 && Rgtb (Rabs (_A p)) 1e-10) ||
  (Rltb (Rabs (my azim polar)) 1e-10 && Rgtb (Rabs (_B p)) 1e-10) ||
  (Rltb (Rabs (mz polar)) 1e-10 && Rgtb (Rabs (_C p)) 1e-10).

(** The parametric distance [l] of the [else] branch.  Where the
    denominator is zero the [double] quotient is an infinity or a NaN, which
    a real number does not render: what is proved of [l] is proved where the
    denominator is not zero. *)
Definition distance (p : t) (point : Point) (azim polar : R) : R :=
  - (_A p * getX point + _B p * getY point + _C p * getZ point + _D p) /
    (_A p * mx azim polar + _B p * my azim polar + _C p * mz polar).

(** [int Plane::intersection(Point* point, double azim, double polar,
    Point* points)].  The test of the first [if] does not exclude a zero
    denominator of [l]; there the [double] [l] is an infinity or a NaN and
    the real-valued [l] below is not what the code computes, so the value
    returned and the Point stored are stated only where the denominator is
    not zero. *)
Definition intersection (p : t) (point : Point) (azim polar : R)
  : M (list Point) Z :=
  let x0 := getX point in
  let y0 := getY point in
  let z0 := getZ point in
  let num := 0%Z in
  let mx := sin polar * cos azim in
  let my := sin polar * sin azim in
  let mz := cos polar in
  if (Rltb (Rabs mx) 1e-10 && Rgtb (Rabs (_A p)) 1e-10) ||
     (Rltb (Rabs my) 1e-10 && Rgtb (Rabs (_B p)) 1e-10) ||
     (Rltb (Rabs mz) 1e-10 && Rgtb (Rabs (_C p)) 1e-10)
  then ret 0%Z
  else
    let l := - (_A p * x0 + _B p * y0 + _C p * z0 + _D p) /
               (_A p * mx + _B p * my + _C p * mz) in
    let xcurr := x0 + l * mx in
    let ycurr := y0 + l * my in
    let zcurr := z0 + l * mz in
    let num := if Rgtb l 0 then (num + 1)%Z else num in
    (store 0 (setCoords xcurr ycurr zcurr) ;;;
     ret num)%cpp.

(** [double Plane::getMinX(int halfspace)] and the five like it. *)
Definition getMinX (p : t) (halfspace : Z) : xdouble := NegInfinity.
Definition getMaxX (p : t) (halfspace : Z) : xdouble := PosInfinity.
Definition getMinY (p : t) (halfspace : Z) : xdouble := NegInfinity.
Definition getMaxY (p : t) (halfspace : Z) : xdouble := PosInfinity.
Definition getMinZ (p : t) (halfspace : Z) : xdouble := NegInfinity.
Definition getMaxZ (p : t) (halfspace : Z) : xdouble := PosInfinity.

Definition getA (p : t) : R := _A p.
Definition getB (p : t) : R := _B p.
Definition getC (p : t) : R := _C p.
Definition getD (p : t) : R := _D p.

(** The assignment [_D = d] that the setters of the subclasses make. *)
Definition set_D (d : R) (p : t) : t := mk (base p) (_A p) (_B p) (_C p) d.

End Plane.

(** The default value of the [name] argument is declared in Surface.h; the
    constructors that rely on it take it as [default_name]. *)

Module XPlane.
Local Open Scope R_scope.

Record t := mk {
  plane : Plane.t;
  _x : R
}.

(** [XPlane::XPlane(x, id, name) : Plane(1, 0, 0, -x, id)] *)
Definition XPlane (default_name : string) (x : R) (id : Z) (name : string)
  : M globals t :=
  (p <- Plane.Plane 1 0 0 (- x) id default_name ;;
   ret (mk (Plane.mk (Surface.set_surface_type XPLANE (Plane.base p))
              (Plane._A p) (Plane._B p) (Plane._C p) (Plane._D p)) x))%cpp.

Definition getName (s : t) : option string := Plane.getName (plane s).
Definition getX (s : t) : R := _x s.

(** [void XPlane::setX(const double x)] *)
Definition setX (x : R) (s : t) : t := mk (Plane.set_D (- x) (plane s)) x.

(** [double XPlane::getMinX(int halfspace)] *)
Definition getMinX (s : t) (halfspace : Z) : xdouble :=
  if decide (halfspace = 1%Z) then Real (_x s) else NegInfinity.

(** [double XPlane::getMaxX(int halfspace)] *)
Definition getMaxX (s : t) (halfspace : Z) : xdouble :=
  if decide (halfspace = (-1)%Z) then Real (_x s) else PosInfinity.

End XPlane.

Module YPlane.
Local Open Scope R_scope.

Record t := mk {
  plane : Plane.t;
  _y : R
}.

(** [YPlane::YPlane(y, id, name) : Plane(0, 1, 0, -y, id)] *)
Definition YPlane (default_name : string) (y : R) (id : Z) (name : string)
  : M globals t :=
  (p <- Plane.Plane 0 1 0 (- y) id default_name ;;
   ret (mk (Plane.mk (Surface.set_surface_type YPLANE (Plane.base p))
              (Plane._A p) (Plane._B p) (Plane._C p) (Plane._D p)) y))%cpp.

Definition getName (s : t) : option string := Plane.getName (plane s).
Definition getY (s : t) : R := _y s.

(** [void YPlane::setY(const double y)] *)
Definition setY (y : R) (s : t) : t := mk (Plane.set_D (- y) (plane s)) y.

(** [double YPlane::getMinY(int halfspace)] *)
Definition getMinY (s : t) (halfspace : Z) : xdouble :=
  if decide (halfspace = 1%Z) then Real (_y s) else NegInfinity.

(** [double YPlane::getMaxY(int halfspace)] *)
Definition getMaxY (s : t) (halfspace : Z) : xdouble :=
  if decide (halfspace = (-1)%Z) then Real (_y s) else PosInfinity.

End YPlane.

Module ZPlane.
Local Open Scope R_scope.

Record t := mk {
  plane : Plane.t;
  _z : R
}.

(** [ZPlane::ZPlane(z, id, name) : Plane(0, 0, 1, -z, id, name)] *)
Definition ZPlane (z : R) (id : Z) (name : string) : M globals t :=
  (p <- Plane.Plane 0 0 1 (- z) id name ;;
   ret (mk (Plane.mk (Surface.set_surface_type ZPLANE (Plane.base p))
              (Plane._A p) (Plane._B p) (Plane._C p) (Plane._D p)) z))%cpp.

Definition getName (s : t) : option string := Plane.getName (plane s).
Definition getZ (s : t) : R := _z s.

(** [void ZPlane::setZ(const double z)] *)
Definition setZ (z : R) (s : t) : t := mk (Plane.set_D (- z) (plane s)) z.

(** [double ZPlane::getMinZ(int halfspace)] *)
Definition getMinZ (s : t) (halfspace : Z) : xdouble :=
  if decide (halfspace = 1%Z) then Real (_z s) else NegInfinity.

(** [double ZPlane::getMaxZ(int halfspace)] *)
Definition getMaxZ (s : t) (halfspace : Z) : xdouble :=
  if decide (halfspace = (-1)%Z) then Real (_z s) else PosInfinity.

End ZPlane.

(** ** ZCylinder *)

Module ZCylinder.
Local Open Scope R_scope.

Record t := mk {
  base : Surface.t;
  _A : R;
  _B : R;
  _C : R;
  _D : R;
  _E : R;
  _radius : R;
  _center : Point
}.

(** [ZCylinder::ZCylinder(x, y, radius, id, name) : Surface(id, name)].
    The centre keeps the z of a default Point, which no method reads. *)
Definition ZCylinder (x y radius : R) (id : Z) (name : string)
  : M globals t :=
  (s <- Surface.Surface id name ;;
   ret (mk (Surface.set_surface_type ZCYLINDER s)
           1 1 (-2 * x) (-2 * y) (x * x + y * y - radius * radius)
           radius (mkPoint x y 0)))%cpp.

Definition getX0 (c : t) : R := getX (_center c).
Definition getY0 (c : t) : R := getY (_center c).

(** "Check that point is in same direction as angle": the block the source
    repeats after each root, as the condition under which it runs
    [num++]. *)
Definition same_direction (azim polar y0 z0 ycurr zcurr : R) : bool :=
  if Rltb azim PI && Rgtb ycurr y0 then
    if Rgtb zcurr z0 && Rltb polar (PI / 2) then true
    else if Rltb zcurr z0 && Rgtb polar (PI / 2) then true
    else if Rltb (Rabs (zcurr - z0)) 1e-10 &&
            Rltb (Rabs (polar - PI / 2)) 1e-10 then true
    else false
  else if Rgtb azim PI && Rltb ycurr y0 then
    if Rgtb zcurr z0 && Rltb polar (PI / 2) then true
    else if Rltb zcurr z0 && Rgtb polar (PI / 2) then true
    else if Rltb (Rabs (zcurr - z0)) 1e-10 &&
            Rltb (Rabs (polar - PI / 2)) 1e-10 then true
    else false
  else false.

(** The z of an intersection at (xcurr, ycurr). *)
Definition z_at (x0 y0 z0 polar xcurr ycurr : R) : R :=
  z0 + sqrt ((ycurr - y0) ^ 2 + (xcurr - x0) ^ 2) * tan (PI / 2 - polar).

(** One root: store it in [points[num]], then count it if it lies in the
    direction of travel.  Returns the new [num]. *)
Definition root (azim polar x0 y0 z0 xcurr ycurr : R) (num : nat)
  : M (list Point) nat :=
  let zcurr := z_at x0 y0 z0 polar xcurr ycurr in
  (store num (setCoords xcurr ycurr zcurr) ;;;
   ret (if same_direction azim polar y0 z0 ycurr zcurr
        then S num else num))%cpp.

(** "If the track is vertical in y" *)
Definition vertical (azim : R) : bool :=
  Rltb (Rabs (azim - PI / 2)) 1.0e-10 ||
  Rltb (Rabs (azim - 3.0 * (PI / 2))) 1.0e-10.

(** The discriminant the code computes, in either branch. *)
Definition discriminant (c : t) (point : Point) (azim : R) : R :=
  let x0 := getX point in
  let y0 := getY point in
  if vertical azim then
    let a := _B c * _B c in
    let b := _D c in
    let cc := _A c * x0 * x0 + _C c * x0 + _E c in
    b * b - 4 * a * cc
  else
    let m := sin azim / cos azim in
    let q := y0 - m * x0 in
    let a := _A c + _B c * _B c * m * m in
    let b := 2 * _B c * m * q + _C c + _D c * m in
    let cc := _B c * q * q + _D c * q + _E c in
    b * b - 4 * a * cc.

(** [int ZCylinder::intersection(Point* point, double azim, double polar,
    Point* points)] *)
Definition intersection (c : t) (point : Point) (azim polar : R)
  : M (list Point) Z :=
  let x0 := getX point in
  let y0 := getY point in
  let z0 := getZ point in
  let num := 0%nat in
  if Rltb (Rabs (azim - PI / 2)) 1.0e-10 ||
     Rltb (Rabs (azim - 3.0 * (PI / 2))) 1.0e-10
  then
    let a := _B c * _B c in
    let b := _D c in
    let cc := _A c * x0 * x0 + _C c * x0 + _E c in
    let discr := b * b - 4 * a * cc in
    if Rltb discr 0 then ret 0%Z
    else if Reqb discr 0 then
      let xcurr := x0 in
      let ycurr := - b / (2 * a) in
      (num <- root azim polar x0 y0 z0 xcurr ycurr num ;;
       (* no return statement on this path *)
       undefined)%cpp
    else
      (let xcurr := x0 in
       let ycurr := (- b + sqrt discr) / (2 * a) in
       num <- root azim polar x0 y0 z0 xcurr ycurr num ;;
       let xcurr := x0 in
       let ycurr := (- b - sqrt discr) / (2 * a) in
       num <- root azim polar x0 y0 z0 xcurr ycurr num ;;
       ret (Z.of_nat num))%cpp
  else
    let m := sin azim / cos azim in
    let q := y0 - m * x0 in
    let a := _A c + _B c * _B c * m * m in
    let b := 2 * _B c * m * q + _C c + _D c * m in
    let cc := _B c * q * q + _D c * q + _E c in
    let discr := b * b - 4 * a * cc in
    if Rltb discr 0 then ret 0%Z
    else if Reqb discr 0 then
      (let xcurr := - b / (2 * a) in
       p <- load num ;;
       let ycurr := y0 + m * (getX p - x0) in
       num <- root azim polar x0 y0 z0 xcurr ycurr num ;;
       ret (Z.of_nat num))%cpp
    else
      (let xcurr := (- b + sqrt discr) / (2 * a) in
       let ycurr := y0 + m * (xcurr - x0) in
       num <- root azim polar x0 y0 z0 xcurr ycurr num ;;
       let xcurr := (- b - sqrt discr) / (2 * a) in
       let ycurr := y0 + m * (xcurr - x0) in
       num <- root azim polar x0 y0 z0 xcurr ycurr num ;;
       ret (Z.of_nat num))%cpp.

(** [double ZCylinder::getMinX(int halfspace)] and the five like it. *)
Definition getMinX (c : t) (halfspace : Z) : xdouble :=
  if decide (halfspace = (-1)%Z) then Real (getX (_center c) - _radius c)
  else NegInfinity.

Definition getMaxX (c : t) (halfspace : Z) : xdouble :=
  if decide (halfspace = (-1)%Z) then Real (getX (_center c) + _radius c)
  else PosInfinity.

Definition getMinY (c : t) (halfspace : Z) : xdouble :=
  if decide (halfspace = (-1)%Z) then Real (getY (_center c) - _radius c)
  else NegInfinity.

Definition getMaxY (c : t) (halfspace : Z) : xdouble :=
  if decide (halfspace = (-1)%Z) then Real (getY (_center c) + _radius c)
  else PosInfinity.

Definition getMinZ (c : t) (halfspace : Z) : xdouble := NegInfinity.
Definition getMaxZ (c : t) (halfspace : Z) : xdouble := PosInfinity.

End ZCylinder.

(** ** The virtual extent methods

    A Surface is an object of one of the five classes; a call of a virtual
    method runs the override of the object's class, or the method it
    inherits where the class has none. *)
Inductive surface :=
| APlane (p : Plane.t)
| AnXPlane (s : XPlane.t)
| AYPlane (s : YPlane.t)
| AZPlane (s : ZPlane.t)
| AZCylinder (c : ZCylinder.t).

Definition getMinX (s : surface) (halfspace : Z) : xdouble :=
  match s with
  | APlane p => Plane.getMinX p halfspace
  | AnXPlane s => XPlane.getMinX s halfspace
  | AYPlane s => Plane.getMinX (YPlane.plane s) halfspace
  | AZPlane s => Plane.getMinX (ZPlane.plane s) halfspace
  | AZCylinder c => ZCylinder.getMinX c halfspace
  end.

Definition getMaxX (s : surface) (halfspace : Z) : xdouble :=
  match s with
  | APlane p => Plane.getMaxX p halfspace
  | AnXPlane s => XPlane.getMaxX s halfspace
  | AYPlane s => Plane.getMaxX (YPlane.plane s) halfspace
  | AZPlane s => Plane.getMaxX (ZPlane.plane s) halfspace
  | AZCylinder c => ZCylinder.getMaxX c halfspace
  end.

Definition getMinY (s : surface) (halfspace : Z) : xdouble :=
  match s with
  | APlane p => Plane.getMinY p halfspace
  | AnXPlane s => Plane.getMinY (XPlane.plane s) halfspace
  | AYPlane s => YPlane.getMinY s halfspace
  | AZPlane s => Plane.getMinY (ZPlane.plane s) halfspace
  | AZCylinder c => ZCylinder.getMinY c halfspace
  end.

Definition getMaxY (s : surface) (halfspace : Z) : xdouble :=
  match s with
  | APlane p => Plane.getMaxY p halfspace
  | AnXPlane s => Plane.getMaxY (XPlane.plane s) halfspace
  | AYPlane s => YPlane.getMaxY s halfspace
  | AZPlane s => Plane.getMaxY (ZPlane.plane s) halfspace
  | AZCylinder c => ZCylinder.getMaxY c halfspace
  end.

Definition getMinZ (s : surface) (halfspace : Z) : xdouble :=
  match s with
  | APlane p => Plane.getMinZ p halfspace
  | AnXPlane s => Plane.getMinZ (XPlane.plane s) halfspace
  | AYPlane s => Plane.getMinZ (YPlane.plane s) halfspace
  | AZPlane s => ZPlane.getMinZ s halfspace
  | AZCylinder c => ZCylinder.getMinZ c halfspace
  end.

Definition getMaxZ (s : surface) (halfspace : Z) : xdouble :=
  match s with
  | APlane p => Plane.getMaxZ p halfspace
  | AnXPlane s => Plane.getMaxZ (XPlane.plane s) halfspace
  | AYPlane s => Plane.getMaxZ (YPlane.plane s) halfspace
  | AZPlane s => ZPlane.getMaxZ s halfspace
  | AZCylinder c => ZCylinder.getMaxZ c halfspace
  end.

(** The point lies within the six extents of the halfspace. *)
Definition in_extents (s : surface) (halfspace : Z) (point : Point) : Prop :=
  xle (getMinX s halfspace) (Real (getX point))
  /\ xle (Real (getX point)) (getMaxX s halfspace)
  /\ xle (getMinY s halfspace) (Real (getY point))
  /\ xle (Real (getY point)) (getMaxY s halfspace)
  /\ xle (getMinZ s halfspace) (Real (getZ point))
  /\ xle (Real (getZ point)) (getMaxZ s halfspace).

(** The plane part of an object of [Plane] or of one of its subclasses. *)
Definition plane_of (s : surface) : option Plane.t :=
  match s with
  | APlane p => Some p
  | AnXPlane s => Some (XPlane.plane s)
  | AYPlane s => Some (YPlane.plane s)
  | AZPlane s => Some (ZPlane.plane s)
  | AZCylinder _ => None
  end.

(** The left side of the plane equation A x + B y + C z + D = 0 at a
    point, from the coefficients the object stores. *)
Definition plane_side (p : Plane.t) (point : Point) : R :=
  (Plane._A p * getX point + Plane._B p * getY point
   + Plane._C p * getZ point + Plane._D p)%R.

(** The point is off the plane on the side of the halfspace: the left side
    of the equation has the sign of [halfspace]. *)
Definition on_side (p : Plane.t) (halfspace : Z) (point : Point) : Prop :=
  (halfspace = 1%Z /\ (0 < plane_side p point)%R)
  \/ (halfspace = (-1)%Z /\ (plane_side p point < 0)%R).

(** A setter of a subclass of [Plane], as a step on a Surface: [setX] on an
    XPlane, [setY] on a YPlane, [setZ] on a ZPlane.  The other classes have
    no such method. *)
Definition set_position (v : R) (s : surface) : surface :=
  match s with
  | AnXPlane s => AnXPlane (XPlane.setX v s)
  | AYPlane s => AYPlane (YPlane.setY v s)
  | AZPlane s => AZPlane (ZPlane.setZ v s)
  | other => other
  end.

(** The coefficients of an axis-aligned plane agree with the position it
    stores: (1, 0, 0, -x), (0, 1, 0, -y) or (0, 0, 1, -z). *)
Definition axis_consistent (s : surface) : Prop :=
  match s with
  | AnXPlane s =>
      Plane._A (XPlane.plane s) = 1%R /\ Plane._B (XPlane.plane s) = 0%R
      /\ Plane._C (XPlane.plane s) = 0%R
      /\ Plane._D (XPlane.plane s) = (- XPlane._x s)%R
  | AYPlane s =>
      Plane._A (YPlane.plane s) = 0%R /\ Plane._B (YPlane.plane s) = 1%R
      /\ Plane._C (YPlane.plane s) = 0%R
      /\ Plane._D (YPlane.plane s) = (- YPlane._y s)%R
  | AZPlane s =>
      Plane._A (ZPlane.plane s) = 0%R /\ Plane._B (ZPlane.plane s) = 0%R
      /\ Plane._C (ZPlane.plane s) = 1%R
      /\ Plane._D (ZPlane.plane s) = (- ZPlane._z s)%R
  | APlane _ | AZCylinder _ => True
  end.

(** The position an axis-aligned plane reports: [getX] of an XPlane, [getY]
    of a YPlane, [getZ] of a ZPlane. *)
Definition position (s : surface) : option R :=
  match s with
  | AnXPlane s => Some (XPlane.getX s)
  | AYPlane s => Some (YPlane.getY s)
  | AZPlane s => Some (ZPlane.getZ s)
  | APlane _ | AZCylinder _ => None
  end.

(** The direction cosine of a trajectory along the axis an axis-aligned
    plane is perpendicular to, and the coordinate of a point on that axis. *)
Definition axis_cosine (s : surface) (azim polar : R) : option R :=
  match s with
  | AnXPlane _ => Some (Plane.mx azim polar)
  | AYPlane _ => Some (Plane.my azim polar)
  | AZPlane _ => Some (Plane.mz polar)
  | APlane _ | AZCylinder _ => None
  end.

Definition axis_coordinate (s : surface) (point : Point) : option R :=
  match s with
  | AnXPlane _ => Some (getX point)
  | AYPlane _ => Some (getY point)
  | AZPlane _ => Some (getZ point)
  | APlane _ | AZCylinder _ => None
  end.

(** ** The ray of a trajectory

    The point at the parameter [l] on the ray from [point] in the direction
    (azim, polar). *)
Definition ray_point (point : Point) (azim polar l : R) : Point :=
  mkPoint (getX point + l * Plane.mx azim polar)%R
          (getY point + l * Plane.my azim polar)%R
          (getZ point + l * Plane.mz polar)%R.

(** The point is on the lateral surface of the cylinder. *)
Definition on_cylinder (c : ZCylinder.t) (q : Point) : Prop :=
  ((getX q - ZCylinder.getX0 c) * (getX q - ZCylinder.getX0 c)
   + (getY q - ZCylinder.getY0 c) * (getY q - ZCylinder.getY0 c)
   = ZCylinder._radius c * ZCylinder._radius c)%R.

(** ** The index macro of VectorizedSolver.h

    [#define taus(p,e) (taus[(p)*_num_groups + (e)])]: the offset into the
    array, computed in [int]. *)
Definition taus_offset (_num_groups p e : Z) : Z :=
  wrap32 (wrap32 (p * _num_groups) + e).

(** ** What an axis-aligned plane does with a ray

    [m] is the direction cosine along the axis the plane is perpendicular
    to and [delta] the signed offset of the plane from the ray's origin
    along that axis, so that [delta / m] is the parametric distance. *)
Definition axis_plane_behaviour (p : Plane.t) (point : Point) (azim polar : R)
    (points : list Point) (m delta : R) : Prop :=
  (Rabs m < 1e-10 ->
   Plane.intersection p point azim polar points = Returned 0%Z points)%R
  /\ (1e-10 <= Rabs m -> delta / m > 0 ->
      exists points',
        Plane.intersection p point azim polar points = Returned 1%Z points')%R
  /\ (1e-10 <= Rabs m -> delta / m <= 0 ->
      exists points',
        Plane.intersection p point azim polar points = Returned 0%Z points')%R.

(** ** Moving a point along the normal of a plane

    The normal of the plane A x + B y + C z + D = 0 is (A, B, C) scaled to
    unit length; [displace p d point] is [point] moved by the signed
    distance [d] along it. *)
Definition normal_length (p : Plane.t) : R :=
  sqrt (Plane._A p * Plane._A p + Plane._B p * Plane._B p
        + Plane._C p * Plane._C p).

Definition displace (p : Plane.t) (d : R) (point : Point) : Point :=
  mkPoint (getX point + d * (Plane._A p / normal_length p))
          (getY point + d * (Plane._B p / normal_length p))
          (getZ point + d * (Plane._C p / normal_length p)).

(** ** The roots [ZCylinder::intersection] computes

    [ahead] is the part of the direction check that looks at y: the
    intersection lies on the side of the origin the azimuthal angle points
    to. *)
Definition ahead (azim y0 ycurr : R) : bool :=
  (Rltb azim PI && Rgtb ycurr y0) || (Rgtb azim PI && Rltb ycurr y0).

(** The (x, y) of the two roots of a positive discriminant, in the order
    the code computes them: the one with [+ sqrt(discr)] first. *)
Definition candidates (c : ZCylinder.t) (point : Point) (azim : R)
  : (R * R) * (R * R) :=
  (let x0 := getX point in
   let y0 := getY point in
   let discr := ZCylinder.discriminant c point azim in
   if ZCylinder.vertical azim then
     let a := ZCylinder._B c * ZCylinder._B c in
     let b := ZCylinder._D c in
     ((x0, (- b + sqrt discr) / (2 * a)), (x0, (- b - sqrt discr) / (2 * a)))
   else
     let m := sin azim / cos azim in
     let q := y0 - m * x0 in
     let a := ZCylinder._A c + ZCylinder._B c * ZCylinder._B c * m * m in
     let b := 2 * ZCylinder._B c * m * q + ZCylinder._C c + ZCylinder._D c * m in
     let x1 := (- b + sqrt discr) / (2 * a) in
     let x2 := (- b - sqrt discr) / (2 * a) in
     ((x1, y0 + m * (x1 - x0)), (x2, y0 + m * (x2 - x0))))%R.

(** How many of the two roots lie ahead. *)
Definition count_ahead (c : ZCylinder.t) (point : Point) (azim : R) : nat :=
  let '((_, y1), (_, y2)) := candidates c point azim in
  ((if ahead azim (getY point) y1 then 1 else 0)
   + (if ahead azim (getY point) y2 then 1 else 0))%nat.

(** ** Sample objects *)

Module Sample.
Local Open Scope R_scope.

(** The base object of the first Surface constructed in a fresh process
    with user id 1 and the empty name. *)
Definition base (ty : surfaceType) : Surface.t :=
  Surface.mk 1 0 (Some ""%string) (Some ty) BOUNDARY_NONE
    (<[1%Z := []]> (<[(-1)%Z := []]> ∅)).

(** The plane x = 1, as [XPlane(1, 1)] builds it. *)
Definition plane_x1 : Plane.t := Plane.mk (base XPLANE) 1 0 0 (- 1).

(** The plane x = 0, as [XPlane(0, 1)] builds it. *)
Definition plane_x0 : Plane.t := Plane.mk (base XPLANE) 1 0 0 (- 0).

(** The cylinder of radius 1 around the z-axis, as [ZCylinder(0, 0, 1, 1)]
    builds it. *)
Definition unit_cylinder : ZCylinder.t :=
  ZCylinder.mk (base ZCYLINDER) 1 1 (-2 * 0) (-2 * 0) (0 * 0 + 0 * 0 - 1 * 1)
    1 (mkPoint 0 0 0).

(** The plane x + y = 1, as [Plane(1, 1, 0, -1, 1)] builds it. *)
Definition plane_diagonal : Plane.t := Plane.mk (base PLANE) 1 1 0 (- 1).

Definition origin : Point := mkPoint 0 0 0.

(** A second Surface, constructed after [base] with user id 2. *)
Definition base2 (ty : surfaceType) : Surface.t :=
  Surface.mk 2 1 (Some ""%string) (Some ty) BOUNDARY_NONE
    (<[1%Z := []]> (<[(-1)%Z := []]> ∅)).

(** Three Cells A, B, C with ids 1, 2, 3 at the addresses 1, 2, 3, none of
    which knows a neighbour yet, and two Surfaces at the addresses 1, 2. *)
Definition A : ptr := 1%positive.
Definition B : ptr := 2%positive.
Definition C : ptr := 3%positive.
Definition S1 : ptr := 1%positive.
Definition S2 : ptr := 2%positive.

Definition fresh_world : world :=
  World (<[S1 := base XPLANE]> (<[S2 := base2 YPLANE]> ∅))
        (<[A := Cell.mk 1 []]> (<[B := Cell.mk 2 []]> (<[C := Cell.mk 3 []]> ∅))).

(** A and B are put on the two sides of S1, then B and C on the two sides
    of S2. *)
Definition chain_calls : list call :=
  [Call S1 (-1) A; Call S1 1 B; Call S2 (-1) B; Call S2 1 C].

(** A and C are put on the same side of S1, B on the other. *)
Definition same_side_calls : list call :=
  [Call S1 (-1) A; Call S1 1 B; Call S1 (-1) C].

End Sample.

(** * Properties *)

(** ** Machine integers *)

Lemma wrap32_in_range (z : Z) :
  (INT_MIN <= z <= INT_MAX)%Z -> wrap32 z = z.
Proof.
  unfold wrap32, INT_MIN, INT_MAX. intros Hz.
  rewrite Z.mod_small; lia.
Qed.

Lemma wrap32_past_max : wrap32 (INT_MAX + 1) = INT_MIN.
Proof. reflexivity. Qed.

(** ** Id allocation *)

Lemma Surface_auto (name : string) (g : globals) :
  exists s,
    Surface.Surface 0 name g =
      Returned s (Globals (wrap32 (auto_id g + 1)) (wrap32 (Surface_n g + 1)))
    /\ Surface.getId s = auto_id g.
Proof.
  unfold Surface.Surface, bind.
  destruct (decide (0%Z = 0%Z)) as [_ | E]; [| contradiction].
  eexists. split; reflexivity.
Qed.

Lemma Surface_user (id : Z) (name : string) (g : globals) :
  id <> 0%Z ->
  exists s,
    Surface.Surface id name g =
      Returned s (Globals (auto_id g) (wrap32 (Surface_n g + 1)))
    /\ Surface.getId s = id.
Proof.
  intros Hid. unfold Surface.Surface, bind.
  destruct (decide (id = 0%Z)) as [E | _]; [contradiction |].
  eexists. split; reflexivity.
Qed.

(** As long as the counter stays below 2^31 the ids of consecutive
    auto-assignments count up from the counter's value. *)
Lemma construct_auto_ids (names : list string) :
  forall g : globals,
    (INT_MIN <= auto_id g <= INT_MAX)%Z ->
    (auto_id g + Z.of_nat (length names) <= INT_MAX + 1)%Z ->
    exists ss g',
      construct_auto names g = Returned ss g'
      /\ Surface.getId <$> ss = seqZ (auto_id g) (Z.of_nat (length names))
      /\ auto_id g' = wrap32 (auto_id g + Z.of_nat (length names)).
Proof.
  induction names as [| name names IH]; intros g Hlo Hhi.
  - exists [], g. cbn [construct_auto length]. repeat split.
    rewrite Z.add_0_r, wrap32_in_range; [reflexivity | exact Hlo].
  - cbn [length] in Hhi. rewrite Nat2Z.inj_succ in Hhi.
    destruct (Surface_auto name g) as (s & Hs & Hid).
    destruct names as [| name' names'].
    + exists [s]. eexists. cbn [construct_auto]. unfold bind at 1. rewrite Hs.
      cbn. rewrite Hid. repeat split.
    + assert (Hstep : wrap32 (auto_id g + 1) = (auto_id g + 1)%Z).
      { apply wrap32_in_range. cbn [length] in Hhi.
        rewrite Nat2Z.inj_succ in Hhi. unfold INT_MIN, INT_MAX in *. lia. }
      set (g1 := Globals (wrap32 (auto_id g + 1)) (wrap32 (Surface_n g + 1))) in *.
      destruct (IH g1) as (ss & g' & Hrun & Hids & Hfin).
      { cbn [g1 auto_id]. rewrite Hstep. cbn [length] in Hhi.
        rewrite Nat2Z.inj_succ in Hhi. unfold INT_MIN, INT_MAX in *. lia. }
      { cbn [g1 auto_id]. rewrite Hstep. lia. }
      exists (s :: ss), g'.
      change (construct_auto (name :: name' :: names'))
        with (s0 <- Surface.Surface 0 name ;;
              ss0 <- construct_auto (name' :: names') ;;
              ret (s0 :: ss0))%cpp.
      unfold bind at 1. rewrite Hs. fold g1.
      unfold bind at 1. rewrite Hrun. unfold ret.
      split; [reflexivity |]. split.
      * rewrite fmap_cons, Hids, Hid. cbn [g1 auto_id]. rewrite Hstep.
        rewrite (seqZ_cons (auto_id g)) by (cbn [length]; lia).
        f_equal. f_equal. cbn [length]. lia.
      * rewrite Hfin. cbn [g1 auto_id]. rewrite Hstep. f_equal.
        cbn [length]. lia.
Qed.

Lemma construct_auto_app (names1 names2 : list string) (g : globals) :
  forall ss1 g1 ss2 g2,
    construct_auto names1 g = Returned ss1 g1 ->
    construct_auto names2 g1 = Returned ss2 g2 ->
    construct_auto (names1 ++ names2) g = Returned (ss1 ++ ss2) g2.
Proof.
  revert g. induction names1 as [| name names1 IH]; intros g ss1 g1 ss2 g2 H1 H2.
  - cbn in H1. injection H1 as <- <-. exact H2.
  - cbn [construct_auto app] in *. unfold bind at 1 in H1. unfold bind at 1.
    destruct (Surface.Surface 0 name g) as [s gs | |]; try discriminate.
    unfold bind at 1 in H1. unfold bind at 1.
    destruct (construct_auto names1 gs) as [ss gss | |] eqn:E; try discriminate.
    injection H1 as <- <-.
    rewrite (IH gs ss gss ss2 g2 E H2). reflexivity.
Qed.

Lemma seqZ_strongly_sorted (n : nat) :
  forall m : Z, StronglySorted Z.lt (seqZ m (Z.of_nat n)).
Proof.
  induction n as [| n IH]; intros m.
  - constructor.
  - rewrite seqZ_cons by lia.
    replace (Z.pred (Z.of_nat (S n))) with (Z.of_nat n) by lia.
    constructor; [apply IH |].
    apply Forall_seqZ. intros m' Hm'. lia.
Qed.

Lemma strongly_sorted_head_last (a b : Z) (l : list Z) :
  StronglySorted Z.lt (a :: l ++ [b]) -> (a < b)%Z.
Proof.
  intros H. apply StronglySorted_inv in H as [_ H].
  rewrite Forall_app in H. destruct H as [_ H].
  apply Forall_inv in H. exact H.
Qed.

(** C7 (as amended): after [reset_surf_id()], N consecutive constructions
    with id argument 0 receive the ids 10000, 10001, ..., 10000 + N - 1 (hence
    strictly increasing and free of duplicates) as long as N is at most
    2^31 - 10000, the number of [int] values from 10000 up to INT_MAX; and a
    Surface constructed with a nonzero id keeps that id and leaves the
    counter alone. *)
Theorem auto_ids_consecutive (names : list string) (g : globals) :
  (Z.of_nat (length names) <= 2 ^ 31 - 10000)%Z ->
  (exists ss g',
      (reset_surf_id ;;; construct_auto names)%cpp g = Returned ss g'
      /\ Surface.getId <$> ss = seqZ 10000 (Z.of_nat (length names))
      /\ StronglySorted Z.lt (Surface.getId <$> ss)
      /\ NoDup (Surface.getId <$> ss))
  /\ (forall (id : Z) (name : string),
        id <> 0%Z ->
        exists s g',
          Surface.Surface id name g = Returned s g'
          /\ Surface.getId s = id
          /\ auto_id g' = auto_id g).
Proof.
  intros HN. split.
  - unfold bind at 1. cbn [reset_surf_id].
    destruct (construct_auto_ids names (Globals 10000 (Surface_n g)))
      as (ss & g' & Hrun & Hids & _).
    + cbn [auto_id]. unfold INT_MIN, INT_MAX. lia.
    + cbn [auto_id]. unfold INT_MAX. lia.
    + exists ss, g'. cbn [auto_id] in Hids. rewrite Hids.
      split; [exact Hrun |]. split; [reflexivity |].
      split; [apply seqZ_strongly_sorted | apply NoDup_seqZ].
  - intros id name Hid.
    destruct (Surface_user id name g Hid) as (s & Hs & Hsid).
    eexists s, _. split; [exact Hs |]. split; [exact Hsid | reflexivity].
Qed.

Lemma auto_ids_consecutive_witness :
  (Z.of_nat (length ["left"; "right"; "top"]%string) <= 2 ^ 31 - 10000)%Z
  /\ (exists ss g',
        (reset_surf_id ;;; construct_auto ["left"; "right"; "top"]%string)%cpp
          (Globals 10007 7) = Returned ss g'
        /\ Surface.getId <$> ss = seqZ 10000 (Z.of_nat 3)
        /\ StronglySorted Z.lt (Surface.getId <$> ss)
        /\ NoDup (Surface.getId <$> ss)).
Proof.
  split; [cbn; lia |].
  apply (auto_ids_consecutive ["left"; "right"; "top"]%string (Globals 10007 7)).
  cbn; lia.
Defined.

(** C7, as stated, fails for large N: the counter is an [int], and the
    construction that follows the one numbered INT_MAX is numbered INT_MIN.
    After a reset, 2^31 - 10000 + 1 = 2147473649 constructions receive the
    ids 10000, ..., 2147483647, -2147483648. *)
Lemma auto_ids_wrap_around :
  exists ss g',
    (reset_surf_id ;;;
     construct_auto (replicate (Z.to_nat 2147473649) ""%string))%cpp
      initial_globals = Returned ss g'
    /\ Surface.getId <$> ss = seqZ 10000 2147473648 ++ [(-2147483648)%Z]
    /\ ~ StronglySorted Z.lt (Surface.getId <$> ss).
Proof.
  set (n := Z.to_nat 2147473648).
  set (g0 := Globals 10000 0).
  assert (Hn : Z.of_nat n = 2147473648%Z) by (unfold n; lia).
  replace (Z.to_nat 2147473649) with (S n) by (unfold n; lia).
  rewrite replicate_S_end.
  destruct (construct_auto_ids (replicate n ""%string) g0)
    as (ss1 & g1 & Hrun1 & Hids1 & Hfin1).
  { cbn [g0 auto_id]. unfold INT_MIN, INT_MAX. lia. }
  { rewrite length_replicate, Hn. cbn [g0 auto_id]. unfold INT_MAX. lia. }
  rewrite length_replicate, Hn in Hids1, Hfin1. cbn [g0 auto_id] in Hids1, Hfin1.
  change (10000 + 2147473648)%Z with (INT_MAX + 1)%Z in Hfin1.
  rewrite wrap32_past_max in Hfin1.
  destruct (Surface_auto "" g1) as (s & Hs & Hsid).
  exists (ss1 ++ [s]). eexists.
  assert (Hids : Surface.getId <$> ss1 ++ [s]
                 = seqZ 10000 2147473648 ++ [(-2147483648)%Z]).
  { rewrite fmap_app, Hids1. cbn [fmap list_fmap]. rewrite Hsid, Hfin1.
    reflexivity. }
  split; [| split; [exact Hids |]].
  - unfold bind at 1. cbn [reset_surf_id initial_globals Surface_n].
    apply (construct_auto_app _ _ g0 ss1 g1 [s]); [exact Hrun1 |].
    cbn [construct_auto]. unfold bind at 1. rewrite Hs. reflexivity.
  - rewrite Hids. rewrite (seqZ_cons 10000) by lia.
    intros Hsorted. apply strongly_sorted_head_last in Hsorted. lia.
Qed.

(** ** Names *)

Lemma Surface_name (id : Z) (name : string) (g : globals) :
  exists s g',
    Surface.Surface id name g = Returned s g'
    /\ Surface.getName s = Some name.
Proof.
  destruct (decide (id = 0%Z)) as [-> | Hid].
  - destruct (Surface_auto name g) as (s & Hs & _).
    exists s. eexists. split; [exact Hs |].
    unfold Surface.Surface, bind in Hs.
    destruct (decide (0%Z = 0%Z)); [| contradiction].
    cbn in Hs. injection Hs as <-. reflexivity.
  - destruct (Surface_user id name g Hid) as (s & Hs & _).
    exists s. eexists. split; [exact Hs |].
    unfold Surface.Surface, bind in Hs.
    destruct (decide (id = 0%Z)); [contradiction |].
    cbn in Hs. injection Hs as <-. reflexivity.
Qed.

Lemma Plane_name (A B C D : R) (id : Z) (name : string) (g : globals) :
  exists p g',
    Plane.Plane A B C D id name g = Returned p g'
    /\ Plane.getName p = Some name
    /\ Plane._A p = A /\ Plane._B p = B /\ Plane._C p = C /\ Plane._D p = D.
Proof.
  destruct (Surface_name id name g) as (s & g' & Hs & Hname).
  eexists _, g'. unfold Plane.Plane, bind. rewrite Hs.
  split; [reflexivity |]. split; [| repeat split].
  unfold Plane.getName. cbn. exact Hname.
Qed.


(** ** Comparisons *)

Local Open Scope R_scope.

Lemma Rltb_true (a b : R) : a < b -> Rltb a b = true.
Proof. intros H. unfold Rltb. destruct (Rlt_dec a b); [reflexivity | contradiction]. Qed.

Lemma Rltb_false (a b : R) : b <= a -> Rltb a b = false.
Proof. intros H. unfold Rltb. destruct (Rlt_dec a b); [lra | reflexivity]. Qed.

Lemma Rltb_lt (a b : R) : Rltb a b = true <-> a < b.
Proof. unfold Rltb. destruct (Rlt_dec a b); split; intros; try easy. Qed.

Lemma Rltb_ge (a b : R) : Rltb a b = false <-> b <= a.
Proof. unfold Rltb. destruct (Rlt_dec a b); split; intros; try easy; lra. Qed.

Lemma Rgtb_true (a b : R) : a > b -> Rgtb a b = true.
Proof. intros H. apply Rltb_true. lra. Qed.

Lemma Rgtb_false (a b : R) : a <= b -> Rgtb a b = false.
Proof. intros H. apply Rltb_false. lra. Qed.

Lemma Reqb_true (a b : R) : a = b -> Reqb a b = true.
Proof. intros H. unfold Reqb. destruct (Req_dec_T a b); [reflexivity | contradiction]. Qed.

Lemma Reqb_false (a b : R) : a <> b -> Reqb a b = false.
Proof. intros H. unfold Reqb. destruct (Req_dec_T a b); [contradiction | reflexivity]. Qed.

(** ** Plane::intersection *)

(** The two ways out of [Plane::intersection], in terms of [parallel] and
    [distance]. *)
Lemma plane_intersection_parallel (p : Plane.t) (point : Point)
    (azim polar : R) (points : list Point) :
  Plane.parallel p azim polar = true ->
  Plane.intersection p point azim polar points = Returned 0%Z points.
Proof.
  unfold Plane.parallel, Plane.mx, Plane.my, Plane.mz, Plane.intersection.
  intros ->. reflexivity.
Qed.

Lemma plane_intersection_crossing (p : Plane.t) (point : Point)
    (azim polar : R) (p0 : Point) (rest : list Point) :
  Plane.parallel p azim polar = false ->
  let l := Plane.distance p point azim polar in
  Plane.intersection p point azim polar (p0 :: rest) =
    Returned (if Rgtb l 0 then 1%Z else 0%Z)
      (setCoords (getX point + l * Plane.mx azim polar)
                 (getY point + l * Plane.my azim polar)
                 (getZ point + l * Plane.mz polar) :: rest).
Proof.
  unfold Plane.parallel, Plane.distance, Plane.mx, Plane.my, Plane.mz,
    Plane.intersection.
  intros ->. cbv zeta. unfold bind, store.
  destruct (decide (0 < length (p0 :: rest))%nat) as [_ | H];
    [| cbn [length] in H; lia].
  reflexivity.
Qed.

(** C3: outside the parallel case, where the denominator of l is not zero
    (and with room for one Point in the buffer), [Plane::intersection]
    returns 1 exactly when the parametric distance
    l = -(A*x0 + B*y0 + C*z0 + D) / (A*mx + B*my + C*mz) is positive, and 0
    exactly when l <= 0. *)
Theorem plane_counts_only_ahead (p : Plane.t) (point : Point)
    (azim polar : R) (points : list Point) :
  Plane.parallel p azim polar = false ->
  Plane._A p * (sin polar * cos azim) + Plane._B p * (sin polar * sin azim)
  + Plane._C p * cos polar <> 0 ->
  (0 < length points)%nat ->
  let l := - (Plane._A p * getX point + Plane._B p * getY point
              + Plane._C p * getZ point + Plane._D p)
           / (Plane._A p * (sin polar * cos azim)
              + Plane._B p * (sin polar * sin azim)
              + Plane._C p * cos polar) in
  exists num points',
    Plane.intersection p point azim polar points = Returned num points'
    /\ (num = 1%Z <-> l > 0)
    /\ (num = 0%Z <-> l <= 0).
Proof.
  intros Hpar Hden Hlen l.
  destruct points as [| p0 rest]; [cbn [length] in Hlen; lia |].
  pose proof (plane_intersection_crossing p point azim polar p0 rest Hpar) as H.
  cbv zeta in H. fold l in H.
  change (Plane.distance p point azim polar) with l in H.
  eexists _, _. split; [exact H |].
  destruct (Rlt_le_dec 0 l) as [Hl | Hl].
  - rewrite Rgtb_true by exact Hl.
    split; split; intros; try reflexivity; try lra; lia.
  - rewrite Rgtb_false by exact Hl.
    split; split; intros; try reflexivity; try lra; lia.
Qed.

(** The sample objects are what the constructors return. *)
Lemma sample_plane_x1_constructed :
  XPlane.XPlane "" 1 1 "east" initial_globals
  = Returned (XPlane.mk Sample.plane_x1 1) (Globals 10000 1).
Proof.
  unfold XPlane.XPlane, Plane.Plane, Surface.Surface, bind.
  destruct (decide (1%Z = 0%Z)) as [E | _]; [discriminate E |].
  reflexivity.
Qed.

Lemma sample_plane_x0_constructed :
  XPlane.XPlane "" 0 1 "west" initial_globals
  = Returned (XPlane.mk Sample.plane_x0 0) (Globals 10000 1).
Proof.
  unfold XPlane.XPlane, Plane.Plane, Surface.Surface, bind.
  destruct (decide (1%Z = 0%Z)) as [E | _]; [discriminate E |].
  reflexivity.
Qed.

Lemma sample_unit_cylinder_constructed :
  ZCylinder.ZCylinder 0 0 1 1 "" initial_globals
  = Returned Sample.unit_cylinder (Globals 10000 1).
Proof.
  unfold ZCylinder.ZCylinder, Surface.Surface, bind.
  destruct (decide (1%Z = 0%Z)) as [E | _]; [discriminate E |].
  reflexivity.
Qed.

(** The direction (azim, polar) = (0, pi/2) is the positive x-axis. *)
Lemma direction_east :
  Plane.mx 0 (PI / 2) = 1 /\ Plane.my 0 (PI / 2) = 0 /\ Plane.mz (PI / 2) = 0.
Proof.
  unfold Plane.mx, Plane.my, Plane.mz.
  rewrite sin_PI2, cos_PI2, cos_0, sin_0. repeat split; lra.
Qed.

Lemma Rabs_lt_tiny_0 : Rabs 0 < 1e-10.
Proof. rewrite Rabs_R0. lra. Qed.

Lemma sample_plane_not_parallel_east (d : R) :
  Plane.parallel (Plane.mk (Sample.base XPLANE) 1 0 0 d) 0 (PI / 2) = false.
Proof.
  unfold Plane.parallel. destruct direction_east as (-> & -> & ->).
  cbn [Plane._A Plane._B Plane._C].
  rewrite (Rltb_false (Rabs 1)) by (rewrite Rabs_R1; lra).
  rewrite (Rgtb_false (Rabs 0)) by (rewrite Rabs_R0; lra).
  rewrite !andb_false_r. reflexivity.
Qed.

Lemma sample_plane_distance_east (d x0 y0 z0 : R) :
  Plane.distance (Plane.mk (Sample.base XPLANE) 1 0 0 d) (mkPoint x0 y0 z0)
    0 (PI / 2) = - (x0 + d).
Proof.
  unfold Plane.distance. destruct direction_east as (-> & -> & ->).
  cbn [Plane._A Plane._B Plane._C Plane._D getX getY getZ]. field.
Qed.

Lemma sample_plane_denominator_east (d : R) :
  Plane._A (Plane.mk (Sample.base XPLANE) 1 0 0 d) * Plane.mx 0 (PI / 2)
  + Plane._B (Plane.mk (Sample.base XPLANE) 1 0 0 d) * Plane.my 0 (PI / 2)
  + Plane._C (Plane.mk (Sample.base XPLANE) 1 0 0 d) * Plane.mz (PI / 2) = 1.
Proof.
  destruct direction_east as (-> & -> & ->).
  cbn [Plane._A Plane._B Plane._C]. ring.
Qed.

Lemma plane_counts_only_ahead_witness :
  exists num points',
    Plane.intersection Sample.plane_x1 Sample.origin 0 (PI / 2)
      [Sample.origin] = Returned num points'
    /\ num = 1%Z.
Proof.
  assert (Hl : Plane.distance Sample.plane_x1 Sample.origin 0 (PI / 2) = 1).
  { unfold Sample.plane_x1, Sample.origin.
    rewrite sample_plane_distance_east. lra. }
  destruct (plane_counts_only_ahead Sample.plane_x1 Sample.origin 0 (PI / 2)
              [Sample.origin]) as (num & points' & Hrun & Hone & _).
  - apply sample_plane_not_parallel_east.
  - pose proof (sample_plane_denominator_east (- 1)) as H.
    unfold Plane.mx, Plane.my, Plane.mz in H.
    unfold Sample.plane_x1. rewrite H. lra.
  - cbn. lia.
  - exists num, points'. split; [exact Hrun |].
    apply Hone. unfold Plane.distance, Plane.mx, Plane.my, Plane.mz in Hl.
    rewrite Hl. lra.
Defined.

(** A non-parallel ray that starts behind the plane x = 1 (seen along its
    direction): the origin is (2, 0, 0) and the ray runs along +x. *)
Lemma sample_ray_away_from_plane (p0 : Point) (rest : list Point) :
  Plane.intersection Sample.plane_x1 (mkPoint 2 0 0) 0 (PI / 2) (p0 :: rest)
  = Returned 0%Z (mkPoint 1 0 0 :: rest).
Proof.
  rewrite plane_intersection_crossing by apply sample_plane_not_parallel_east.
  cbv zeta. unfold Sample.plane_x1.
  rewrite sample_plane_distance_east.
  destruct direction_east as (-> & -> & ->). cbn [getX getY getZ].
  rewrite Rgtb_false by lra.
  unfold setCoords. do 2 f_equal. f_equal; lra.
Qed.

(** C10: outside the parallel case, where the denominator of l is not
    zero, the computed intersection coordinates (x0 + l mx, y0 + l my,
    z0 + l mz), a point of the plane, are stored in [points[0]] whatever is
    returned, in particular when 0 is returned because l <= 0; so a return
    value of 0 does not tell the caller that the buffer is as it was: it
    is changed whenever [points[0]] held another Point. *)
Theorem plane_stores_point_when_returning_0 (p : Plane.t) (point : Point)
    (azim polar : R) (p0 : Point) (rest : list Point) :
  Plane.parallel p azim polar = false ->
  Plane._A p * Plane.mx azim polar + Plane._B p * Plane.my azim polar
  + Plane._C p * Plane.mz polar <> 0 ->
  let l := Plane.distance p point azim polar in
  let hit := mkPoint (getX point + l * Plane.mx azim polar)
                     (getY point + l * Plane.my azim polar)
                     (getZ point + l * Plane.mz polar) in
  (exists num,
      Plane.intersection p point azim polar (p0 :: rest)
        = Returned num (hit :: rest))
  /\ Plane._A p * getX hit + Plane._B p * getY hit + Plane._C p * getZ hit
     + Plane._D p = 0
  /\ (l <= 0 ->
      Plane.intersection p point azim polar (p0 :: rest)
        = Returned 0%Z (hit :: rest))
  /\ (l <= 0 -> p0 <> hit ->
      exists points',
        Plane.intersection p point azim polar (p0 :: rest)
          = Returned 0%Z points'
        /\ points' <> p0 :: rest).
Proof.
  intros Hpar Hden l hit.
  pose proof (plane_intersection_crossing p point azim polar p0 rest Hpar) as H.
  cbv zeta in H. fold l in H. unfold setCoords in H. fold hit in H.
  split; [eexists; exact H |]. split; [| split].
  - cbn [hit getX getY getZ]. unfold l, Plane.distance. field. exact Hden.
  - intros Hl. rewrite H, Rgtb_false by exact Hl. reflexivity.
  - intros Hl Hne. exists (hit :: rest). split.
    + rewrite H, Rgtb_false by exact Hl. reflexivity.
    + intros E. injection E as E. apply Hne. symmetry. exact E.
Qed.

Lemma plane_stores_point_when_returning_0_witness :
  Plane.intersection Sample.plane_x1 (mkPoint 2 0 0) 0 (PI / 2)
    [Sample.origin]
  = Returned 0%Z [mkPoint 1 0 0].
Proof.
  assert (Hl : Plane.distance Sample.plane_x1 (mkPoint 2 0 0) 0 (PI / 2) = - 1).
  { unfold Sample.plane_x1. rewrite sample_plane_distance_east. lra. }
  destruct (plane_stores_point_when_returning_0 Sample.plane_x1
              (mkPoint 2 0 0) 0 (PI / 2) Sample.origin [])
    as (_ & _ & Hzero & _).
  - apply sample_plane_not_parallel_east.
  - unfold Sample.plane_x1. rewrite sample_plane_denominator_east. lra.
  - cbv zeta in Hzero. rewrite Hzero by (rewrite Hl; lra).
    rewrite Hl. destruct direction_east as (-> & -> & ->).
    cbn [getX getY getZ]. do 2 f_equal. f_equal; lra.
Defined.

(** C2, as stated, fails: a ray that is not parallel to the plane but runs
    away from it gets 0, not 1.  The plane is x = 1, the ray starts at
    (2, 0, 0) and runs along +x. *)
Lemma plane_behind_origin_returns_0 :
  Plane.parallel Sample.plane_x1 0 (PI / 2) = false
  /\ Plane._A Sample.plane_x1 * Plane.mx 0 (PI / 2)
     + Plane._B Sample.plane_x1 * Plane.my 0 (PI / 2)
     + Plane._C Sample.plane_x1 * Plane.mz (PI / 2) <> 0
  /\ Plane.intersection Sample.plane_x1 (mkPoint 2 0 0) 0 (PI / 2)
       [Sample.origin]
     = Returned 0%Z [mkPoint 1 0 0].
Proof.
  split; [apply sample_plane_not_parallel_east |]. split.
  - destruct direction_east as (-> & -> & ->).
    unfold Sample.plane_x1. cbn [Plane._A Plane._B Plane._C]. lra.
  - apply sample_ray_away_from_plane.
Qed.

Lemma Rgtb_abs_0 : Rgtb (Rabs 0) 1e-10 = false.
Proof. apply Rgtb_false. rewrite Rabs_R0. lra. Qed.

Lemma Rgtb_abs_1 : Rgtb (Rabs 1) 1e-10 = true.
Proof. apply Rgtb_true. rewrite Rabs_R1. lra. Qed.

Lemma Rabs_ge_tiny_neq_0 (m : R) : 1e-10 <= Rabs m -> m <> 0.
Proof. intros H ->. rewrite Rabs_R0 in H. lra. Qed.

(** The behaviour follows from the values of [parallel] and [distance]. *)
Lemma axis_plane_behaviour_intro (p : Plane.t) (point : Point)
    (azim polar : R) (p0 : Point) (rest : list Point) (m delta : R) :
  Plane.parallel p azim polar = Rltb (Rabs m) 1e-10 ->
  (m <> 0 -> Plane.distance p point azim polar = delta / m) ->
  axis_plane_behaviour p point azim polar (p0 :: rest) m delta.
Proof.
  intros Hpar Hdist. unfold axis_plane_behaviour. split; [| split].
  - intros Hm. apply plane_intersection_parallel.
    rewrite Hpar. apply Rltb_true, Hm.
  - intros Hm Hl. eexists. rewrite plane_intersection_crossing.
    + cbv zeta. rewrite Hdist by (apply Rabs_ge_tiny_neq_0, Hm).
      rewrite Rgtb_true by exact Hl. reflexivity.
    + rewrite Hpar. apply Rltb_false, Hm.
  - intros Hm Hl. eexists. rewrite plane_intersection_crossing.
    + cbv zeta. rewrite Hdist by (apply Rabs_ge_tiny_neq_0, Hm).
      rewrite Rgtb_false by exact Hl. reflexivity.
    + rewrite Hpar. apply Rltb_false, Hm.
Qed.

Lemma x_plane_behaviour (s : Surface.t) (v : R) (point : Point)
    (azim polar : R) (p0 : Point) (rest : list Point) :
  axis_plane_behaviour (Plane.mk s 1 0 0 (- v)) point azim polar (p0 :: rest)
    (Plane.mx azim polar) (v - getX point).
Proof.
  apply axis_plane_behaviour_intro.
  - unfold Plane.parallel. cbn [Plane._A Plane._B Plane._C].
    rewrite Rgtb_abs_0, Rgtb_abs_1, !andb_false_r, andb_true_r, !orb_false_r.
    reflexivity.
  - intros Hm. unfold Plane.distance.
    cbn [Plane._A Plane._B Plane._C Plane._D]. field. exact Hm.
Qed.

Lemma y_plane_behaviour (s : Surface.t) (v : R) (point : Point)
    (azim polar : R) (p0 : Point) (rest : list Point) :
  axis_plane_behaviour (Plane.mk s 0 1 0 (- v)) point azim polar (p0 :: rest)
    (Plane.my azim polar) (v - getY point).
Proof.
  apply axis_plane_behaviour_intro.
  - unfold Plane.parallel. cbn [Plane._A Plane._B Plane._C].
    rewrite Rgtb_abs_0, Rgtb_abs_1, !andb_false_r, andb_true_r, orb_false_r.
    reflexivity.
  - intros Hm. unfold Plane.distance.
    cbn [Plane._A Plane._B Plane._C Plane._D]. field. exact Hm.
Qed.

Lemma z_plane_behaviour (s : Surface.t) (v : R) (point : Point)
    (azim polar : R) (p0 : Point) (rest : list Point) :
  axis_plane_behaviour (Plane.mk s 0 0 1 (- v)) point azim polar (p0 :: rest)
    (Plane.mz polar) (v - getZ point).
Proof.
  apply axis_plane_behaviour_intro.
  - unfold Plane.parallel. cbn [Plane._A Plane._B Plane._C].
    rewrite Rgtb_abs_0, Rgtb_abs_1, !andb_false_r, andb_true_r.
    reflexivity.
  - intros Hm. unfold Plane.distance.
    cbn [Plane._A Plane._B Plane._C Plane._D]. field. exact Hm.
Qed.

(** C2 (as amended): for an XPlane, YPlane or ZPlane at position v, with m
    the direction cosine of the ray along the plane's axis and c0 the
    origin's coordinate on that axis, [Plane::intersection] returns 0 and
    leaves the buffer alone when |m| < 1e-10 (the ray is parallel to the
    plane); otherwise it returns 1 when the parametric distance (v - c0) / m
    is positive, i.e. the plane lies ahead of the origin, and 0 when the
    plane lies at or behind the origin. *)
Theorem axis_plane_intersection (default_name : string) (v : R) (id : Z)
    (name : string) (g : globals) (point : Point) (azim polar : R)
    (p0 : Point) (rest : list Point) :
  (exists s g',
      XPlane.XPlane default_name v id name g = Returned s g'
      /\ axis_plane_behaviour (XPlane.plane s) point azim polar (p0 :: rest)
           (sin polar * cos azim) (v - getX point))
  /\ (exists s g',
        YPlane.YPlane default_name v id name g = Returned s g'
        /\ axis_plane_behaviour (YPlane.plane s) point azim polar (p0 :: rest)
             (sin polar * sin azim) (v - getY point))
  /\ (exists s g',
        ZPlane.ZPlane v id name g = Returned s g'
        /\ axis_plane_behaviour (ZPlane.plane s) point azim polar (p0 :: rest)
             (cos polar) (v - getZ point)).
Proof.
  split; [| split].
  - destruct (Plane_name 1 0 0 (- v) id default_name g)
      as (p & g' & Hp & _ & HA & HB & HC & HD).
    eexists _, g'. unfold XPlane.XPlane, bind. rewrite Hp.
    split; [reflexivity |]. cbn [XPlane.plane]. rewrite HA, HB, HC, HD.
    apply x_plane_behaviour.
  - destruct (Plane_name 0 1 0 (- v) id default_name g)
      as (p & g' & Hp & _ & HA & HB & HC & HD).
    eexists _, g'. unfold YPlane.YPlane, bind. rewrite Hp.
    split; [reflexivity |]. cbn [YPlane.plane]. rewrite HA, HB, HC, HD.
    apply y_plane_behaviour.
  - destruct (Plane_name 0 0 1 (- v) id name g)
      as (p & g' & Hp & _ & HA & HB & HC & HD).
    eexists _, g'. unfold ZPlane.ZPlane, bind. rewrite Hp.
    split; [reflexivity |]. cbn [ZPlane.plane]. rewrite HA, HB, HC, HD.
    apply z_plane_behaviour.
Qed.

Lemma axis_plane_intersection_witness :
  exists s g',
    XPlane.XPlane "" 1 1 "east" initial_globals = Returned s g'
    /\ exists points',
         Plane.intersection (XPlane.plane s) Sample.origin 0 (PI / 2)
           [Sample.origin] = Returned 1%Z points'.
Proof.
  destruct (axis_plane_intersection "" 1 1 "east" initial_globals
              Sample.origin 0 (PI / 2) Sample.origin [])
    as ((s & g' & Hs & _ & Hahead & _) & _).
  exists s, g'. split; [exact Hs |].
  rewrite sin_PI2, cos_0 in Hahead. apply Hahead.
  - rewrite Rmult_1_r, Rabs_R1. lra.
  - unfold Sample.origin. cbn [getX]. lra.
Defined.

(** ** isPointOnSurface *)

Lemma isPointOnSurface_true (thresh : R) (evaluate : Point -> R) (point : Point) :
  isPointOnSurface thresh evaluate point = true
  <-> Rabs (evaluate point) < thresh.
Proof.
  unfold isPointOnSurface.
  destruct (Rltb (Rabs (evaluate point)) thresh) eqn:E.
  - apply Rltb_lt in E. tauto.
  - apply Rltb_ge in E. split; [discriminate | lra].
Qed.

Lemma isPointOnSurface_false (thresh : R) (evaluate : Point -> R) (point : Point) :
  isPointOnSurface thresh evaluate point = false
  <-> thresh <= Rabs (evaluate point).
Proof.
  unfold isPointOnSurface.
  destruct (Rltb (Rabs (evaluate point)) thresh) eqn:E.
  - apply Rltb_lt in E. split; [discriminate | lra].
  - apply Rltb_ge in E. tauto.
Qed.

(** Along a unit normal the value of [evaluate] moves by the distance
    travelled. *)
Lemma evaluate_displace (p : Plane.t) (d : R) (point : Point) :
  Plane._A p * Plane._A p + Plane._B p * Plane._B p
    + Plane._C p * Plane._C p = 1 ->
  Plane.evaluate p (displace p d point) = Plane.evaluate p point + d.
Proof.
  intros Hunit. unfold Plane.evaluate, displace, normal_length.
  rewrite Hunit, sqrt_1. cbn [getX getY getZ].
  transitivity
    (Plane._A p * getX point + Plane._B p * getY point
     + Plane._C p * getZ point + Plane._D p
     + d * (Plane._A p * Plane._A p + Plane._B p * Plane._B p
            + Plane._C p * Plane._C p)).
  - field.
  - rewrite Hunit. ring.
Qed.

(** C8 (as amended): for a Plane with a normal (A, B, C) of unit length, as
    every XPlane, YPlane and ZPlane has, moving a point by d along the normal
    changes [evaluate] by exactly d.  So [isPointOnSurface] keeps its value
    when |evaluate(p)| + |d| < ON_SURFACE_THRESH (on the surface before and
    after) and when |evaluate(p)| - |d| >= ON_SURFACE_THRESH (off before and
    after); in particular a point with evaluate(p) = 0 stays on the surface
    under every displacement smaller than the threshold. *)
Theorem on_surface_stable_within_margin (ON_SURFACE_THRESH : R) (p : Plane.t)
    (point : Point) (d : R) :
  Plane._A p * Plane._A p + Plane._B p * Plane._B p
    + Plane._C p * Plane._C p = 1 ->
  Rabs d < ON_SURFACE_THRESH ->
  let on := isPointOnSurface ON_SURFACE_THRESH (Plane.evaluate p) in
  Plane.evaluate p (displace p d point) = Plane.evaluate p point + d
  /\ (Rabs (Plane.evaluate p point) + Rabs d < ON_SURFACE_THRESH ->
      on (displace p d point) = true /\ on point = true)
  /\ (ON_SURFACE_THRESH <= Rabs (Plane.evaluate p point) - Rabs d ->
      on (displace p d point) = false /\ on point = false)
  /\ (Plane.evaluate p point = 0 ->
      on (displace p d point) = true /\ on point = true).
Proof.
  intros Hunit Hd on. pose proof (evaluate_displace p d point Hunit) as Hev.
  split; [exact Hev |].
  pose proof (Rabs_triang (Plane.evaluate p point) d) as Htri.
  pose proof (Rabs_triang_inv (Plane.evaluate p point) (- d)) as Hinv.
  rewrite Rabs_Ropp in Hinv.
  replace (Plane.evaluate p point - - d)
    with (Plane.evaluate p point + d) in Hinv by ring.
  pose proof (Rabs_pos d) as Hd0.
  split; [| split].
  - intros Hm. unfold on. rewrite !isPointOnSurface_true, Hev. lra.
  - intros Hm. unfold on. rewrite !isPointOnSurface_false, Hev. lra.
  - intros H0. unfold on. rewrite !isPointOnSurface_true, Hev, H0.
    rewrite Rplus_0_l, Rabs_R0. lra.
Qed.

Lemma sample_plane_x0_unit :
  Plane._A Sample.plane_x0 * Plane._A Sample.plane_x0
  + Plane._B Sample.plane_x0 * Plane._B Sample.plane_x0
  + Plane._C Sample.plane_x0 * Plane._C Sample.plane_x0 = 1.
Proof. cbn. ring. Qed.

Lemma sample_plane_x0_evaluate (x y z : R) :
  Plane.evaluate Sample.plane_x0 (mkPoint x y z) = x.
Proof. unfold Plane.evaluate. cbn. ring. Qed.

Lemma on_surface_stable_within_margin_witness :
  Rabs 5e-13 < 1e-12
  /\ Plane.evaluate Sample.plane_x0 Sample.origin = 0
  /\ isPointOnSurface 1e-12 (Plane.evaluate Sample.plane_x0)
       (displace Sample.plane_x0 5e-13 Sample.origin) = true
  /\ isPointOnSurface 1e-12 (Plane.evaluate Sample.plane_x0)
       Sample.origin = true.
Proof.
  assert (Hd : Rabs 5e-13 < 1e-12) by (rewrite Rabs_pos_eq; lra).
  assert (H0 : Plane.evaluate Sample.plane_x0 Sample.origin = 0)
    by apply sample_plane_x0_evaluate.
  split; [exact Hd |]. split; [exact H0 |].
  apply (on_surface_stable_within_margin 1e-12 Sample.plane_x0 Sample.origin
           5e-13 sample_plane_x0_unit Hd).
  exact H0.
Defined.

(** Whatever the threshold, a point at three quarters of it from the plane
    x = 0 is on the surface, and off it after a move by half the threshold
    along the normal. *)
Lemma on_surface_flips (thresh : R) :
  0 < thresh ->
  let point := mkPoint (3 / 4 * thresh) 0 0 in
  let d := thresh / 2 in
  Rabs d < thresh
  /\ isPointOnSurface thresh (Plane.evaluate Sample.plane_x0) point = true
  /\ isPointOnSurface thresh (Plane.evaluate Sample.plane_x0)
       (displace Sample.plane_x0 d point) = false.
Proof.
  intros Ht point d. split; [| split].
  - unfold d. rewrite Rabs_pos_eq; lra.
  - apply isPointOnSurface_true. unfold point.
    rewrite sample_plane_x0_evaluate, Rabs_pos_eq; lra.
  - apply isPointOnSurface_false.
    rewrite (evaluate_displace _ _ _ sample_plane_x0_unit). unfold point, d.
    rewrite sample_plane_x0_evaluate, Rabs_pos_eq; lra.
Qed.

(** C8, as stated, fails: with a threshold of 1e-12 the point
    (7.5e-13, 0, 0) is on the plane x = 0, and 5e-13 further along the
    normal it no longer is. *)
Lemma on_surface_changes_near_threshold :
  Rabs 5e-13 < 1e-12
  /\ isPointOnSurface 1e-12 (Plane.evaluate Sample.plane_x0)
       (mkPoint 7.5e-13 0 0) = true
  /\ isPointOnSurface 1e-12 (Plane.evaluate Sample.plane_x0)
       (displace Sample.plane_x0 5e-13 (mkPoint 7.5e-13 0 0)) = false.
Proof.
  pose proof (on_surface_flips 1e-12 ltac:(lra)) as H. cbv zeta in H.
  replace (3 / 4 * 1e-12) with 7.5e-13 in H by lra.
  replace (1e-12 / 2) with 5e-13 in H by lra.
  exact H.
Qed.

(** ** The neighbour graph *)

Local Close Scope R_scope.

Lemma cells_grow_refl (cs : gmap ptr Cell.t) : cells_grow cs cs.
Proof. intros c co H. exists co. auto. Qed.

Lemma cells_grow_trans (cs1 cs2 cs3 : gmap ptr Cell.t) :
  cells_grow cs1 cs2 -> cells_grow cs2 cs3 -> cells_grow cs1 cs3.
Proof.
  intros H12 H23 c co H.
  destruct (H12 c co H) as (co2 & H2 & Hid2 & Hn2).
  destruct (H23 c co2 H2) as (co3 & H3 & Hid3 & Hn3).
  exists co3. split; [exact H3 |]. split; [congruence | auto].
Qed.

Lemma cells_grow_allocated (cs cs' : gmap ptr Cell.t) (c : ptr) :
  cells_grow cs cs' -> allocated cs c -> allocated cs' c.
Proof.
  intros Hg [co H]. destruct (Hg c co H) as (co' & H' & _). exists co'. exact H'.
Qed.

Lemma cells_grow_neighbor (cs cs' : gmap ptr Cell.t) (a b : ptr) :
  cells_grow cs cs' -> Cell.isNeighbor cs a b -> Cell.isNeighbor cs' a b.
Proof.
  intros Hg (co & H & Hb). destruct (Hg a co H) as (co' & H' & _ & Hn).
  exists co'. split; [exact H' | auto].
Qed.

(** [Cell::addNeighborCell] on a Cell that exists returns, keeps what the
    Cells knew and makes [cell] a neighbour of [this]. *)
Lemma Cell_addNeighborCell_spec (this cell : ptr) (cs : gmap ptr Cell.t) :
  allocated cs this ->
  exists cs',
    Cell.addNeighborCell this cell cs = Returned tt cs'
    /\ cells_grow cs cs'
    /\ Cell.isNeighbor cs' this cell.
Proof.
  intros [co Hco]. unfold Cell.addNeighborCell, bind, get. rewrite Hco. cbn [deref ret].
  destruct (decide (cell ∈ Cell._neighbors co)) as [Hin | Hnot].
  - exists cs. split; [reflexivity |]. split; [apply cells_grow_refl |].
    exists co. auto.
  - eexists. split; [reflexivity |]. split.
    + intros c co1 H1. destruct (decide (c = this)) as [-> | Hne].
      * rewrite lookup_insert_eq. eexists. split; [reflexivity |].
        assert (co1 = co) as -> by congruence. cbn. split; [reflexivity |].
        intros x Hx. apply elem_of_app. left. exact Hx.
      * rewrite lookup_insert_ne by congruence. exists co1. auto.
    + eexists. rewrite lookup_insert_eq. split; [reflexivity |].
      cbn. apply elem_of_app. right. apply list_elem_of_singleton. reflexivity.
Qed.

(** The inner loop: [iter1] learns of every Cell of the list. *)
Lemma inner_loop_spec (ss : gmap ptr Surface.t) (iter1 : ptr) (l2 : list ptr) :
  forall cs,
    allocated cs iter1 ->
    exists cs',
      for_each l2 (fun iter2 => on_cells (Cell.addNeighborCell iter1 iter2))
        (World ss cs) = Returned tt (World ss cs')
      /\ cells_grow cs cs'
      /\ forall c2, c2 ∈ l2 -> Cell.isNeighbor cs' iter1 c2.
Proof.
  induction l2 as [| c l2 IH]; intros cs Halloc.
  - exists cs. split; [reflexivity |]. split; [apply cells_grow_refl |].
    intros c2 H. inversion H.
  - destruct (Cell_addNeighborCell_spec iter1 c cs Halloc) as (cs1 & Hrun1 & Hg1 & Hn1).
    destruct (IH cs1 (cells_grow_allocated _ _ _ Hg1 Halloc)) as (cs2 & Hrun2 & Hg2 & Hn2).
    exists cs2. split; [| split].
    + cbn [for_each]. unfold bind at 1. unfold on_cells at 1. cbn [cells surfaces].
      rewrite Hrun1. exact Hrun2.
    + eapply cells_grow_trans; eassumption.
    + intros c2 Hc2. apply elem_of_cons in Hc2 as [-> | Hc2].
      * eapply cells_grow_neighbor; eassumption.
      * apply Hn2, Hc2.
Qed.

(** The outer loop: every Cell of the first list learns of every Cell of the
    second. *)
Lemma outer_loop_spec (ss : gmap ptr Surface.t) (l1 l2 : list ptr) :
  forall cs,
    Forall (allocated cs) l1 ->
    exists cs',
      for_each l1 (fun iter1 =>
        for_each l2 (fun iter2 => on_cells (Cell.addNeighborCell iter1 iter2)))
        (World ss cs) = Returned tt (World ss cs')
      /\ cells_grow cs cs'
      /\ forall c1 c2, c1 ∈ l1 -> c2 ∈ l2 -> Cell.isNeighbor cs' c1 c2.
Proof.
  induction l1 as [| c l1 IH]; intros cs Halloc.
  - exists cs. split; [reflexivity |]. split; [apply cells_grow_refl |].
    intros c1 c2 H. inversion H.
  - apply Forall_cons in Halloc as [Hc Hl1].
    destruct (inner_loop_spec ss c l2 cs Hc) as (cs1 & Hrun1 & Hg1 & Hn1).
    destruct (IH cs1) as (cs2 & Hrun2 & Hg2 & Hn2).
    { eapply Forall_impl; [exact Hl1 |]. intros x. apply cells_grow_allocated, Hg1. }
    exists cs2. split; [| split].
    + cbn [for_each]. unfold bind at 1. rewrite Hrun1. exact Hrun2.
    + eapply cells_grow_trans; eassumption.
    + intros c1 c2 Hc1 Hc2. apply elem_of_cons in Hc1 as [-> | Hc1].
      * eapply cells_grow_neighbor; [exact Hg2 |]. apply Hn1, Hc2.
      * apply Hn2; assumption.
Qed.

(** The vector after "add the neighbor Cell if the collection does not
    already contain it". *)
Lemma push_back_unique_NoDup (cell : ptr) (l : list ptr) :
  NoDup l -> NoDup (if decide (cell ∈ l) then l else l ++ [cell]).
Proof.
  intros Hl. destruct (decide (cell ∈ l)) as [Hin | Hnot]; [exact Hl |].
  apply NoDup_app. split; [exact Hl |]. split.
  - intros x Hx Hx'. apply list_elem_of_singleton in Hx'. subst x. contradiction.
  - apply NoDup_singleton.
Qed.

Lemma push_back_unique_elem (cell : ptr) (l : list ptr) :
  cell ∈ (if decide (cell ∈ l) then l else l ++ [cell]).
Proof.
  destruct (decide (cell ∈ l)) as [Hin | Hnot]; [exact Hin |].
  apply elem_of_app. right. apply list_elem_of_singleton. reflexivity.
Qed.

Lemma push_back_unique_Forall (P : ptr -> Prop) (cell : ptr) (l : list ptr) :
  P cell -> Forall P l -> Forall P (if decide (cell ∈ l) then l else l ++ [cell]).
Proof.
  intros Hc Hl. destruct (decide (cell ∈ l)); [exact Hl |].
  apply Forall_app. split; [exact Hl |]. apply Forall_singleton. exact Hc.
Qed.

Lemma Forall_allocated_grow (cs cs' : gmap ptr Cell.t) (l : list ptr) :
  cells_grow cs cs' -> Forall (allocated cs) l -> Forall (allocated cs') l.
Proof.
  intros Hg Hl. eapply Forall_impl; [exact Hl |].
  intros x. apply cells_grow_allocated, Hg.
Qed.

Lemma valid_halfspace_not_invalid (halfspace : Z) :
  valid_halfspace halfspace -> ~ (halfspace ≠ (-1)%Z ∧ halfspace ≠ 1%Z).
Proof. unfold valid_halfspace. intros [-> | ->] [H1 H2]; congruence. Qed.

(** The body of [Surface::addNeighborCell] after the Cell has been put into
    its vector: the two double loops. *)
Lemma propagate_spec (ss : gmap ptr Surface.t) (neg pos : list ptr)
    (cs : gmap ptr Cell.t) :
  Forall (allocated cs) neg -> Forall (allocated cs) pos ->
  exists cs',
    (for_each neg (fun iter1 =>
       for_each pos (fun iter2 =>
         on_cells (Cell.addNeighborCell iter1 iter2))) ;;;
     for_each pos (fun iter1 =>
       for_each neg (fun iter2 =>
         on_cells (Cell.addNeighborCell iter1 iter2))))%cpp (World ss cs)
    = Returned tt (World ss cs')
    /\ cells_grow cs cs'
    /\ forall c1 c2, c1 ∈ neg -> c2 ∈ pos ->
         Cell.isNeighbor cs' c1 c2 /\ Cell.isNeighbor cs' c2 c1.
Proof.
  intros Hneg Hpos.
  destruct (outer_loop_spec ss neg pos cs Hneg) as (cs1 & Hrun1 & Hg1 & Hn1).
  destruct (outer_loop_spec ss pos neg cs1 (Forall_allocated_grow _ _ _ Hg1 Hpos))
    as (cs2 & Hrun2 & Hg2 & Hn2).
  exists cs2. split; [| split].
  - unfold bind. rewrite Hrun1. exact Hrun2.
  - eapply cells_grow_trans; eassumption.
  - intros c1 c2 H1 H2. split.
    + eapply cells_grow_neighbor; [exact Hg2 |]. apply Hn1; assumption.
    + apply Hn2; assumption.
Qed.

(** A call with a valid halfspace on a Surface in good order. *)
Lemma addNeighborCell_valid (w : world) (this : ptr) (halfspace : Z)
    (cell : ptr) (s : Surface.t) :
  surfaces w !! this = Some s ->
  surface_ok (cells w) s ->
  valid_halfspace halfspace ->
  allocated (cells w) cell ->
  exists l cs',
    Surface._neighbors s !! halfspace = Some l
    /\ let l' := if decide (cell ∈ l) then l else l ++ [cell] in
       let s' := Surface.set_neighbors
                   (<[halfspace := l']> (Surface._neighbors s)) s in
       addNeighborCell this halfspace cell w
       = Returned tt (World (<[this := s']> (surfaces w)) cs')
       /\ cells_grow (cells w) cs'
       /\ surface_ok cs' s'
       /\ linked cs' s'.
Proof.
  intros Hs (neg & pos & Hneg & Hpos & NDneg & NDpos & Aneg & Apos) Hh Hcell.
  unfold addNeighborCell. unfold bind at 1. unfold get.
  unfold bind at 1. rewrite Hs. cbn [deref ret].
  unfold bind at 1.
  destruct (decide (halfspace ≠ (-1)%Z ∧ halfspace ≠ 1%Z)) as [Hbad | _];
    [exfalso; exact (valid_halfspace_not_invalid _ Hh Hbad) |].
  cbn [ret].
  destruct Hh as [-> | ->].
  - exists neg. 
    set (l' := if decide (cell ∈ neg) then neg else neg ++ [cell]).
    destruct (propagate_spec
                (<[this := Surface.set_neighbors
                             (<[(-1)%Z := l']> (Surface._neighbors s)) s]>
                   (surfaces w)) l' pos (cells w))
      as (cs' & Hrun & Hg & Hn).
    { apply push_back_unique_Forall; assumption. }
    { exact Apos. }
    exists cs'. split; [exact Hneg |]. cbv zeta. fold l'.
    split; [| split; [exact Hg | split]].
    + unfold bind at 1. rewrite Hneg. cbn [deref ret]. fold l'.
      unfold bind at 1. unfold put.
      unfold bind at 1. cbn [Surface._neighbors Surface.set_neighbors].
      rewrite lookup_insert_eq. cbn [deref ret].
      unfold bind at 1. rewrite lookup_insert_ne by discriminate.
      rewrite Hpos. cbn [deref ret]. exact Hrun.
    + exists l', pos. cbn [Surface._neighbors Surface.set_neighbors].
      rewrite lookup_insert_eq, lookup_insert_ne by discriminate.
      repeat split; try assumption.
      * apply push_back_unique_NoDup, NDneg.
      * apply (Forall_allocated_grow (cells w)); [exact Hg |].
        apply push_back_unique_Forall; assumption.
      * apply (Forall_allocated_grow (cells w)); assumption.
    + intros neg' pos' c1 c2.
      cbn [Surface._neighbors Surface.set_neighbors].
      rewrite lookup_insert_eq, lookup_insert_ne by discriminate.
      rewrite Hpos. intros [= <-] [= <-]. apply Hn.
  - exists pos.
    set (l' := if decide (cell ∈ pos) then pos else pos ++ [cell]).
    destruct (propagate_spec
                (<[this := Surface.set_neighbors
                             (<[1%Z := l']> (Surface._neighbors s)) s]>
                   (surfaces w)) neg l' (cells w))
      as (cs' & Hrun & Hg & Hn).
    { exact Aneg. }
    { apply push_back_unique_Forall; assumption. }
    exists cs'. split; [exact Hpos |]. cbv zeta. fold l'.
    split; [| split; [exact Hg | split]].
    + unfold bind at 1. rewrite Hpos. cbn [deref ret]. fold l'.
      unfold bind at 1. unfold put.
      unfold bind at 1. cbn [Surface._neighbors Surface.set_neighbors].
      rewrite lookup_insert_ne by discriminate. rewrite Hneg. cbn [deref ret].
      unfold bind at 1. rewrite lookup_insert_eq. cbn [deref ret]. exact Hrun.
    + exists neg, l'. cbn [Surface._neighbors Surface.set_neighbors].
      rewrite lookup_insert_eq, lookup_insert_ne by discriminate.
      repeat split; try assumption.
      * apply push_back_unique_NoDup, NDpos.
      * apply (Forall_allocated_grow (cells w)); assumption.
      * apply (Forall_allocated_grow (cells w)); [exact Hg |].
        apply push_back_unique_Forall; assumption.
    + intros neg' pos' c1 c2.
      cbn [Surface._neighbors Surface.set_neighbors].
      rewrite lookup_insert_eq, lookup_insert_ne by discriminate.
      rewrite Hneg. intros [= <-] [= <-]. apply Hn.
Qed.

Lemma surface_ok_grow (cs cs' : gmap ptr Cell.t) (s : Surface.t) :
  cells_grow cs cs' -> surface_ok cs s -> surface_ok cs' s.
Proof.
  intros Hg (neg & pos & Hneg & Hpos & NDneg & NDpos & Aneg & Apos).
  exists neg, pos. repeat split; try assumption;
    eapply Forall_allocated_grow; eassumption.
Qed.

Lemma linked_grow (cs cs' : gmap ptr Cell.t) (s : Surface.t) :
  cells_grow cs cs' -> linked cs s -> linked cs' s.
Proof.
  intros Hg Hl neg pos c1 c2 Hneg Hpos H1 H2.
  destruct (Hl neg pos c1 c2 Hneg Hpos H1 H2) as [Ha Hb].
  split; eapply cells_grow_neighbor; eassumption.
Qed.

(** One valid call keeps the store in good order, forgets no object and no
    adjacency, links the two sides of the Surface it is made on, and keeps
    the other Surfaces linked if they were. *)
Lemma call_preserves (w : world) (c : call) :
  world_ok w ->
  valid_call w c ->
  exists w',
    addNeighborCell (call_surface c) (call_halfspace c) (call_cell c) w
    = Returned tt w'
    /\ world_ok w'
    /\ cells_grow (cells w) (cells w')
    /\ (forall sp, is_Some (surfaces w !! sp) -> is_Some (surfaces w' !! sp))
    /\ (exists s' l,
          surfaces w' !! call_surface c = Some s'
          /\ Surface._neighbors s' !! call_halfspace c = Some l
          /\ call_cell c ∈ l
          /\ linked (cells w') s')
    /\ ((forall sp s, surfaces w !! sp = Some s -> linked (cells w) s) ->
        forall sp s, surfaces w' !! sp = Some s -> linked (cells w') s).
Proof.
  intros Hok ([s Hs] & Hh & Hcell).
  destruct (addNeighborCell_valid w _ _ _ s Hs (Hok _ _ Hs) Hh Hcell)
    as (l & cs' & Hl & Hrun & Hg & Hok' & Hlinked).
  cbv zeta in Hrun, Hok', Hlinked.
  eexists. split; [exact Hrun |]. cbn [surfaces cells].
  split; [| split; [exact Hg | split; [| split]]].
  - intros sp s0 H0. cbn [surfaces cells] in *.
    destruct (decide (sp = call_surface c)) as [-> | Hne].
    + rewrite lookup_insert_eq in H0. injection H0 as <-. exact Hok'.
    + rewrite lookup_insert_ne in H0 by congruence.
      eapply surface_ok_grow; [exact Hg |]. eapply Hok, H0.
  - intros sp Hsp. destruct (decide (sp = call_surface c)) as [-> | Hne].
    + rewrite lookup_insert_eq. eexists. reflexivity.
    + rewrite lookup_insert_ne by congruence. exact Hsp.
  - eexists _, _. rewrite lookup_insert_eq. split; [reflexivity |].
    cbn [Surface._neighbors Surface.set_neighbors]. rewrite lookup_insert_eq.
    split; [reflexivity |]. split; [apply push_back_unique_elem | exact Hlinked].
  - intros Hall sp s0 H0.
    destruct (decide (sp = call_surface c)) as [-> | Hne].
    + rewrite lookup_insert_eq in H0. injection H0 as <-. exact Hlinked.
    + rewrite lookup_insert_ne in H0 by congruence.
      eapply linked_grow; [exact Hg |]. eapply Hall, H0.
Qed.

Lemma valid_call_preserved (w w' : world) (c : call) :
  cells_grow (cells w) (cells w') ->
  (forall sp, is_Some (surfaces w !! sp) -> is_Some (surfaces w' !! sp)) ->
  valid_call w c -> valid_call w' c.
Proof.
  intros Hg Hsp (Hs & Hh & Hc). split; [apply Hsp, Hs |].
  split; [exact Hh |]. eapply cells_grow_allocated; eassumption.
Qed.

(** Any sequence of valid calls runs to its end and keeps all of the
    above. *)
Lemma run_calls_preserves (calls : list call) :
  forall w,
    world_ok w ->
    Forall (valid_call w) calls ->
    exists w',
      run_calls calls w = Returned tt w'
      /\ world_ok w'
      /\ cells_grow (cells w) (cells w')
      /\ (forall sp, is_Some (surfaces w !! sp) -> is_Some (surfaces w' !! sp))
      /\ ((forall sp s, surfaces w !! sp = Some s -> linked (cells w) s) ->
          forall sp s, surfaces w' !! sp = Some s -> linked (cells w') s).
Proof.
  induction calls as [| c calls IH]; intros w Hok Hvalid.
  - exists w. split; [reflexivity |]. split; [exact Hok |].
    split; [apply cells_grow_refl |]. split; [intros sp H; exact H |].
    intros H; exact H.
  - apply Forall_cons in Hvalid as [Hc Hcalls].
    destruct (call_preserves w c Hok Hc) as (w1 & Hrun1 & Hok1 & Hg1 & Hs1 & _ & Hl1).
    destruct (IH w1 Hok1) as (w2 & Hrun2 & Hok2 & Hg2 & Hs2 & Hl2).
    { eapply Forall_impl; [exact Hcalls |]. intros x.
      apply valid_call_preserved; assumption. }
    exists w2. split; [| split; [exact Hok2 | split; [| split]]].
    + unfold run_calls. cbn [for_each]. unfold bind at 1. rewrite Hrun1.
      exact Hrun2.
    + eapply cells_grow_trans; eassumption.
    + intros sp Hsp. apply Hs2, Hs1, Hsp.
    + intros Hall. apply Hl2, Hl1, Hall.
Qed.

Lemma set_neighbors_same (s : Surface.t) (halfspace : Z) (l : list ptr) :
  Surface._neighbors s !! halfspace = Some l ->
  Surface.set_neighbors (<[halfspace := l]> (Surface._neighbors s)) s = s.
Proof.
  intros H. rewrite insert_id by exact H. destruct s. reflexivity.
Qed.

(** Re-adding a Cell that the vector of the halfspace holds already leaves
    the Surfaces as they are. *)
Lemma addNeighborCell_idempotent (w : world) (this : ptr) (halfspace : Z)
    (cell : ptr) (s : Surface.t) (l : list ptr) :
  world_ok w ->
  surfaces w !! this = Some s ->
  valid_halfspace halfspace ->
  Surface._neighbors s !! halfspace = Some l ->
  cell ∈ l ->
  exists w',
    addNeighborCell this halfspace cell w = Returned tt w'
    /\ surfaces w' = surfaces w.
Proof.
  intros Hok Hs Hh Hl Hin.
  assert (Hcell : allocated (cells w) cell).
  { destruct (Hok _ _ Hs) as (neg & pos & Hneg & Hpos & _ & _ & Aneg & Apos).
    destruct Hh as [-> | ->].
    - rewrite Hneg in Hl. injection Hl as <-.
      rewrite Forall_forall in Aneg. apply Aneg, Hin.
    - rewrite Hpos in Hl. injection Hl as <-.
      rewrite Forall_forall in Apos. apply Apos, Hin. }
  destruct (addNeighborCell_valid w this halfspace cell s Hs (Hok _ _ Hs) Hh Hcell)
    as (l0 & cs' & Hl0 & Hrun & _).
  cbv zeta in Hrun. rewrite Hl in Hl0. injection Hl0 as <-.
  destruct (decide (cell ∈ l)) as [_ | Hnot]; [| contradiction].
  rewrite (set_neighbors_same s halfspace l Hl) in Hrun.
  rewrite (insert_id (surfaces w) this s Hs) in Hrun.
  eexists. split; [exact Hrun | reflexivity].
Qed.

Lemma constructed_surface_ok (id : Z) (name : string) (g : globals) :
  exists s g',
    Surface.Surface id name g = Returned s g'
    /\ Surface._neighbors s !! (-1)%Z = Some []
    /\ Surface._neighbors s !! 1%Z = Some []
    /\ forall cs, surface_ok cs s.
Proof.
  assert (H : forall s g', Surface.Surface id name g = Returned s g' ->
              Surface._neighbors s = <[1%Z := []]> (<[(-1)%Z := []]> ∅)).
  { unfold Surface.Surface, bind. intros s g'.
    destruct (decide (id = 0%Z)); cbn; intros [= <- _]; reflexivity. }
  destruct (Surface_name id name g) as (s & g' & Hs & _).
  exists s, g'. split; [exact Hs |]. rewrite (H s g' Hs).
  split; [reflexivity |]. split; [reflexivity |].
  intros cs. exists [], []. rewrite (H s g' Hs).
  repeat split; try reflexivity; constructor.
Qed.

(** C5: starting from Surfaces whose vectors hold no Cell twice (as the
    constructor leaves them: empty), every sequence of calls with valid
    halfspaces runs to its end and leaves every vector of every Surface
    without duplicates; and adding a Cell again to the halfspace that holds
    it returns with the neighbour vectors of all Surfaces unchanged. *)
Theorem neighbor_vectors_stay_duplicate_free (w : world) (calls : list call) :
  world_ok w ->
  Forall (valid_call w) calls ->
  (exists w',
      run_calls calls w = Returned tt w'
      /\ (forall sp s halfspace l,
            surfaces w' !! sp = Some s ->
            valid_halfspace halfspace ->
            Surface._neighbors s !! halfspace = Some l ->
            NoDup l)
      /\ (forall sp s halfspace l cell,
            surfaces w' !! sp = Some s ->
            valid_halfspace halfspace ->
            Surface._neighbors s !! halfspace = Some l ->
            cell ∈ l ->
            exists w'',
              addNeighborCell sp halfspace cell w' = Returned tt w''
              /\ surfaces w'' = surfaces w'))
  /\ (forall id name g,
        exists s g',
          Surface.Surface id name g = Returned s g'
          /\ Surface._neighbors s !! (-1)%Z = Some []
          /\ Surface._neighbors s !! 1%Z = Some []).
Proof.
  intros Hok Hvalid. split.
  - destruct (run_calls_preserves calls w Hok Hvalid) as (w' & Hrun & Hok' & _).
    exists w'. split; [exact Hrun |]. split.
    + intros sp s halfspace l Hs Hh Hl.
      destruct (Hok' sp s Hs) as (neg & pos & Hneg & Hpos & NDneg & NDpos & _).
      destruct Hh as [-> | ->]; congruence.
    + intros sp s halfspace l cell Hs Hh Hl Hin.
      eapply addNeighborCell_idempotent; eassumption.
  - intros id name g.
    destruct (constructed_surface_ok id name g) as (s & g' & Hs & Hneg & Hpos & _).
    exists s, g'. auto.
Qed.

(** Case analysis on which Surface of the sample store a lookup found. *)
Ltac fresh_surface H :=
  cbn [Sample.fresh_world surfaces cells] in *;
  apply lookup_insert_Some in H as [[_ <-] | [_ H]];
  [| apply lookup_insert_Some in H as [[_ <-] | [_ H]];
     [| rewrite lookup_empty in H; discriminate H]].

Lemma fresh_world_ok : world_ok Sample.fresh_world.
Proof.
  intros sp s H. fresh_surface H; exists [], []; repeat split; constructor.
Qed.

Lemma fresh_world_linked :
  forall sp s,
    surfaces Sample.fresh_world !! sp = Some s ->
    linked (cells Sample.fresh_world) s.
Proof.
  intros sp s H neg pos c1 c2 Hneg Hpos H1 H2.
  fresh_surface H; vm_compute in Hneg; injection Hneg as <-; inversion H1.
Qed.

Lemma fresh_world_valid_call (sp : ptr) (halfspace : Z) (cell : ptr) :
  sp ∈ [Sample.S1; Sample.S2] ->
  valid_halfspace halfspace ->
  cell ∈ [Sample.A; Sample.B; Sample.C] ->
  valid_call Sample.fresh_world (Call sp halfspace cell).
Proof.
  intros Hsp Hh Hc. split; [| split; [exact Hh |]]; cbn.
  - repeat (apply elem_of_cons in Hsp as [-> | Hsp]); [| | inversion Hsp];
      vm_compute; eexists; reflexivity.
  - repeat (apply elem_of_cons in Hc as [-> | Hc]); [| | | inversion Hc];
      vm_compute; eexists; reflexivity.
Qed.

Lemma neighbor_vectors_stay_duplicate_free_witness :
  world_ok Sample.fresh_world
  /\ Forall (valid_call Sample.fresh_world)
       [Call Sample.S1 (-1) Sample.A; Call Sample.S1 (-1) Sample.A]
  /\ exists w',
       run_calls [Call Sample.S1 (-1) Sample.A; Call Sample.S1 (-1) Sample.A]
         Sample.fresh_world = Returned tt w'
       /\ forall sp s halfspace l,
            surfaces w' !! sp = Some s ->
            valid_halfspace halfspace ->
            Surface._neighbors s !! halfspace = Some l ->
            NoDup l.
Proof.
  assert (Hv : Forall (valid_call Sample.fresh_world)
                 [Call Sample.S1 (-1) Sample.A; Call Sample.S1 (-1) Sample.A]).
  { repeat constructor; apply fresh_world_valid_call;
      try (left; reflexivity); repeat constructor. }
  split; [exact fresh_world_ok |]. split; [exact Hv |].
  destruct (neighbor_vectors_stay_duplicate_free Sample.fresh_world _
              fresh_world_ok Hv) as [(w' & Hrun & Hnodup & _) _].
  exists w'. split; [exact Hrun | exact Hnodup].
Defined.

(** ** Which calls raise *)

Lemma Cell_addNeighborCell_no_raise (this cell : ptr) (cs : gmap ptr Cell.t) :
  ~ raises (Cell.addNeighborCell this cell cs).
Proof.
  unfold Cell.addNeighborCell, bind, get.
  destruct (cs !! this) as [co |]; cbn; [| tauto].
  destruct (decide (cell ∈ Cell._neighbors co)); cbn; tauto.
Qed.

Lemma on_cells_no_raise {A} (m : M (gmap ptr Cell.t) A) (w : world) :
  ~ raises (m (cells w)) -> ~ raises (on_cells m w).
Proof. unfold on_cells. destruct (m (cells w)); cbn; tauto. Qed.

Lemma for_each_no_raise {St A} (body : A -> M St unit) (l : list A) :
  (forall a st, ~ raises (body a st)) ->
  forall st, ~ raises (for_each l body st).
Proof.
  intros Hbody. induction l as [| a l IH]; intros st; cbn; [tauto |].
  unfold bind. specialize (Hbody a st).
  destruct (body a st) as [[] st' | |]; cbn in *; [apply IH | tauto | tauto].
Qed.

Create HintDb no_raise.
#[local] Hint Resolve Cell_addNeighborCell_no_raise on_cells_no_raise
  for_each_no_raise : no_raise.



(** ** Propagation of adjacency *)

Lemma linked_opposite (cs : gmap ptr Cell.t) (s : Surface.t) :
  linked cs s <-> forall a b, opposite s a b -> Cell.isNeighbor cs a b.
Proof.
  split.
  - intros Hl a b (neg & pos & Hneg & Hpos & [[Ha Hb] | [Ha Hb]]).
    + apply (Hl neg pos a b Hneg Hpos Ha Hb).
    + apply (Hl neg pos b a Hneg Hpos Hb Ha).
  - intros Ho neg pos c1 c2 Hneg Hpos H1 H2. split; apply Ho.
    + exists neg, pos. auto.
    + exists neg, pos. auto.
Qed.

(** C4 (as amended): a call with a valid halfspace on a Surface and a Cell
    that exist returns; afterwards the Cell is in the vector of that
    halfspace, every two Cells that face each other across that Surface
    (one on its -1 side, one on its +1 side) have each other among their
    neighbours, and no Cell has lost a neighbour.  Hence after any sequence
    of such calls, started where the Cells facing each other across a
    Surface are neighbours (as with fresh Surfaces), they still are, for
    every Surface; so when A faces B across one Surface and B faces C across
    one, A's neighbours hold B and B's neighbours hold C.  Nothing makes C
    a neighbour of A itself. *)
Theorem addNeighborCell_links_opposite_sides (w : world) (c : call)
    (calls : list call) :
  world_ok w ->
  valid_call w c ->
  (exists w',
      addNeighborCell (call_surface c) (call_halfspace c) (call_cell c) w
      = Returned tt w'
      /\ (exists s' l,
            surfaces w' !! call_surface c = Some s'
            /\ Surface._neighbors s' !! call_halfspace c = Some l
            /\ call_cell c ∈ l
            /\ forall a b, opposite s' a b -> Cell.isNeighbor (cells w') a b)
      /\ (forall a b,
            Cell.isNeighbor (cells w) a b -> Cell.isNeighbor (cells w') a b))
  /\ (Forall (valid_call w) calls ->
      (forall sp s a b,
         surfaces w !! sp = Some s -> opposite s a b ->
         Cell.isNeighbor (cells w) a b) ->
      exists w',
        run_calls calls w = Returned tt w'
        /\ (forall sp s a b,
              surfaces w' !! sp = Some s -> opposite s a b ->
              Cell.isNeighbor (cells w') a b)
        /\ (forall sp1 s1 sp2 s2 a b c',
              surfaces w' !! sp1 = Some s1 -> surfaces w' !! sp2 = Some s2 ->
              opposite s1 a b -> opposite s2 b c' ->
              Cell.isNeighbor (cells w') a b
              /\ Cell.isNeighbor (cells w') b c')).
Proof.
  intros Hok Hv. split.
  - destruct (call_preserves w c Hok Hv)
      as (w' & Hrun & _ & Hg & _ & (s' & l & Hs' & Hl & Hin & Hlinked) & _).
    exists w'. split; [exact Hrun |]. split.
    + exists s', l. repeat split; try assumption.
      apply linked_opposite, Hlinked.
    + intros a b. apply cells_grow_neighbor, Hg.
  - intros Hcalls Hall.
    destruct (run_calls_preserves calls w Hok Hcalls) as (w' & Hrun & _ & _ & _ & Hl).
    assert (Hall' : forall sp s a b,
               surfaces w' !! sp = Some s -> opposite s a b ->
               Cell.isNeighbor (cells w') a b).
    { intros sp s a b Hs. apply linked_opposite. apply (Hl ltac:(
        intros sp0 s0 H0; apply linked_opposite; intros a0 b0;
        apply (Hall sp0 s0 a0 b0 H0)) sp s Hs). }
    exists w'. split; [exact Hrun |]. split; [exact Hall' |].
    intros sp1 s1 sp2 s2 a b c' H1 H2 Hab Hbc. split.
    + exact (Hall' sp1 s1 a b H1 Hab).
    + exact (Hall' sp2 s2 b c' H2 Hbc).
Qed.

Lemma chain_calls_valid :
  Forall (valid_call Sample.fresh_world) Sample.chain_calls.
Proof.
  repeat constructor; apply fresh_world_valid_call;
    first [left; reflexivity | right; reflexivity | idtac];
    repeat first [apply list_elem_of_here | apply list_elem_of_further].
Qed.

Lemma fresh_world_opposite (sp : ptr) (s : Surface.t) (a b : ptr) :
  surfaces Sample.fresh_world !! sp = Some s ->
  opposite s a b ->
  Cell.isNeighbor (cells Sample.fresh_world) a b.
Proof.
  intros Hs. apply linked_opposite. exact (fresh_world_linked sp s Hs).
Qed.

Lemma addNeighborCell_links_opposite_sides_witness :
  world_ok Sample.fresh_world
  /\ valid_call Sample.fresh_world (Call Sample.S1 (-1) Sample.A)
  /\ Forall (valid_call Sample.fresh_world) Sample.chain_calls
  /\ (forall sp s a b,
        surfaces Sample.fresh_world !! sp = Some s -> opposite s a b ->
        Cell.isNeighbor (cells Sample.fresh_world) a b)
  /\ exists w',
       run_calls Sample.chain_calls Sample.fresh_world = Returned tt w'
       /\ (forall sp s a b,
             surfaces w' !! sp = Some s -> opposite s a b ->
             Cell.isNeighbor (cells w') a b)
       /\ (forall sp1 s1 sp2 s2 a b c',
             surfaces w' !! sp1 = Some s1 -> surfaces w' !! sp2 = Some s2 ->
             opposite s1 a b -> opposite s2 b c' ->
             Cell.isNeighbor (cells w') a b
             /\ Cell.isNeighbor (cells w') b c').
Proof.
  assert (Hv : valid_call Sample.fresh_world (Call Sample.S1 (-1) Sample.A)).
  { apply fresh_world_valid_call;
      [apply list_elem_of_here | left; reflexivity | apply list_elem_of_here]. }
  split; [exact fresh_world_ok |]. split; [exact Hv |].
  split; [exact chain_calls_valid |]. split; [exact fresh_world_opposite |].
  apply (addNeighborCell_links_opposite_sides Sample.fresh_world
           (Call Sample.S1 (-1) Sample.A) Sample.chain_calls
           fresh_world_ok Hv).
  - exact chain_calls_valid.
  - exact fresh_world_opposite.
Defined.

(** C4, as stated, fails: adjacency is not carried from one Surface to
    another, nor along one side of a Surface.  With A and B on the two sides
    of S1 and then B and C on the two sides of S2, A has B and B has C among
    its neighbours, but A does not have C; and with A and C both on the -1
    side of S1 and B on its +1 side, A does not have C either. *)
Lemma adjacency_is_not_transitive :
  (exists w',
      run_calls Sample.chain_calls Sample.fresh_world = Returned tt w'
      /\ Cell.isNeighbor (cells w') Sample.A Sample.B
      /\ Cell.isNeighbor (cells w') Sample.B Sample.C
      /\ ~ Cell.isNeighbor (cells w') Sample.A Sample.C)
  /\ (exists w',
        run_calls Sample.same_side_calls Sample.fresh_world = Returned tt w'
        /\ Cell.isNeighbor (cells w') Sample.A Sample.B
        /\ Cell.isNeighbor (cells w') Sample.B Sample.C
        /\ ~ Cell.isNeighbor (cells w') Sample.A Sample.C).
Proof.
  split.
  - eexists. split; [vm_compute; reflexivity |]. split; [| split].
    + exists (Cell.mk 1 [Sample.B]). split; [reflexivity |].
      apply list_elem_of_here.
    + exists (Cell.mk 2 [Sample.A; Sample.C]). split; [reflexivity |].
      apply list_elem_of_further, list_elem_of_here.
    + intros (co & Hco & Hin).
      assert (co = Cell.mk 1 [Sample.B]) as ->.
      { vm_compute in Hco. injection Hco as <-. reflexivity. }
      cbn in Hin. apply list_elem_of_singleton in Hin. discriminate Hin.
  - eexists. split; [vm_compute; reflexivity |]. split; [| split].
    + exists (Cell.mk 1 [Sample.B]). split; [reflexivity |].
      apply list_elem_of_here.
    + exists (Cell.mk 2 [Sample.A; Sample.C]). split; [reflexivity |].
      apply list_elem_of_further, list_elem_of_here.
    + intros (co & Hco & Hin).
      assert (co = Cell.mk 1 [Sample.B]) as ->.
      { vm_compute in Hco. injection Hco as <-. reflexivity. }
      cbn in Hin. apply list_elem_of_singleton in Hin. discriminate Hin.
Qed.

(** ** ZCylinder::intersection *)

Local Open Scope R_scope.

Lemma ahead_true (azim y0 ycurr : R) :
  ahead azim y0 ycurr = true
  <-> (azim < PI /\ ycurr > y0) \/ (azim > PI /\ ycurr < y0).
Proof.
  unfold ahead, Rgtb. rewrite orb_true_iff, !andb_true_iff, !Rltb_lt. tauto.
Qed.

(** With the polar angle strictly between 0 and pi the checks on z never
    reject a root: z moves away from z0 on the side the polar angle says. *)
Lemma same_direction_ahead (azim polar x0 y0 z0 xcurr ycurr : R) :
  0 < polar < PI ->
  ZCylinder.same_direction azim polar y0 z0 ycurr
    (ZCylinder.z_at x0 y0 z0 polar xcurr ycurr)
  = ahead azim y0 ycurr.
Proof.
  intros Hpolar.
  destruct (ahead azim y0 ycurr) eqn:Ha.
  - assert (Hne : ycurr <> y0).
    { apply ahead_true in Ha. lra. }
    assert (Hdist : 0 < sqrt ((ycurr - y0) ^ 2 + (xcurr - x0) ^ 2)).
    { apply sqrt_lt_R0.
      assert (0 < (ycurr - y0) ^ 2) by nra.
      assert (0 <= (xcurr - x0) ^ 2) by apply pow2_ge_0. lra. }
    assert (Hz : ZCylinder.same_direction azim polar y0 z0 ycurr
                   (ZCylinder.z_at x0 y0 z0 polar xcurr ycurr)
                 = ahead azim y0 ycurr
                   && ((Rgtb (ZCylinder.z_at x0 y0 z0 polar xcurr ycurr) z0
                        && Rltb polar (PI / 2))
                       || (Rltb (ZCylinder.z_at x0 y0 z0 polar xcurr ycurr) z0
                           && Rgtb polar (PI / 2))
                       || (Rltb (Rabs (ZCylinder.z_at x0 y0 z0 polar xcurr ycurr - z0)) 1e-10
                           && Rltb (Rabs (polar - PI / 2)) 1e-10))).
    { unfold ZCylinder.same_direction, ahead.
      destruct (Rltb azim PI && Rgtb ycurr y0); cbn [orb andb].
      - repeat match goal with
               | |- context [if ?b then _ else _] => destruct b; cbn [orb andb]
               end; reflexivity.
      - destruct (Rgtb azim PI && Rltb ycurr y0); cbn [orb andb]; [| reflexivity].
        repeat match goal with
               | |- context [if ?b then _ else _] => destruct b; cbn [orb andb]
               end; reflexivity. }
    rewrite Hz, Ha. cbn [andb].
    unfold ZCylinder.z_at.
    set (dist := sqrt ((ycurr - y0) ^ 2 + (xcurr - x0) ^ 2)) in *.
    destruct (Rtotal_order polar (PI / 2)) as [Hlt | [Heq | Hgt]].
    + assert (0 < tan (PI / 2 - polar)) by (apply tan_gt_0; lra).
      rewrite Rgtb_true by nra. rewrite Rltb_true by exact Hlt. reflexivity.
    + rewrite Heq. replace (PI / 2 - PI / 2) with 0 by ring. rewrite tan_0.
      replace (z0 + dist * 0 - z0) with 0 by ring.
      replace (PI / 2 - PI / 2) with 0 by ring.
      rewrite (Rltb_true (Rabs 0)) by apply Rabs_lt_tiny_0.
      rewrite !orb_true_r. reflexivity.
    + assert (tan (PI / 2 - polar) < 0) by (apply tan_lt_0; lra).
      rewrite (Rltb_true (z0 + _)) by nra. rewrite (Rgtb_true polar) by lra.
      cbn [andb]. rewrite orb_true_r. reflexivity.
  - unfold ZCylinder.same_direction. unfold ahead in Ha.
    apply orb_false_iff in Ha as [-> ->]. reflexivity.
Qed.

(** One root with room in the buffer. *)
Lemma root_spec (azim polar x0 y0 z0 xcurr ycurr : R) (num : nat)
    (points : list Point) :
  0 < polar < PI ->
  (num < length points)%nat ->
  ZCylinder.root azim polar x0 y0 z0 xcurr ycurr num points
  = Returned (if ahead azim y0 ycurr then S num else num)
      (<[num := mkPoint xcurr ycurr
                  (ZCylinder.z_at x0 y0 z0 polar xcurr ycurr)]> points).
Proof.
  intros Hpolar Hlen. unfold ZCylinder.root, bind, store.
  destruct (decide (num < length points)%nat) as [_ | H]; [| contradiction].
  rewrite same_direction_ahead by exact Hpolar. reflexivity.
Qed.

Lemma intersection_negative (c : ZCylinder.t) (point : Point)
    (azim polar : R) (points : list Point) :
  ZCylinder.discriminant c point azim < 0 ->
  ZCylinder.intersection c point azim polar points = Returned 0%Z points.
Proof.
  unfold ZCylinder.discriminant, ZCylinder.intersection, ZCylinder.vertical.
  cbv zeta.
  destruct (Rltb (Rabs (azim - PI / 2)) 1.0e-10
            || Rltb (Rabs (azim - 3.0 * (PI / 2))) 1.0e-10);
    intros Hd; rewrite Rltb_true by exact Hd; reflexivity.
Qed.

(** With a positive discriminant both roots are stored, the second over the
    first if the first was not counted, and the roots ahead are counted. *)
Lemma intersection_positive (c : ZCylinder.t) (point : Point)
    (azim polar : R) (points : list Point) :
  0 < polar < PI ->
  (2 <= length points)%nat ->
  ZCylinder.discriminant c point azim > 0 ->
  let x0 := getX point in
  let y0 := getY point in
  let z0 := getZ point in
  let x1 := fst (fst (candidates c point azim)) in
  let y1 := snd (fst (candidates c point azim)) in
  let x2 := fst (snd (candidates c point azim)) in
  let y2 := snd (snd (candidates c point azim)) in
  ZCylinder.intersection c point azim polar points
  = Returned (Z.of_nat (count_ahead c point azim))
      (<[(if ahead azim y0 y1 then 1 else 0)%nat :=
           mkPoint x2 y2 (ZCylinder.z_at x0 y0 z0 polar x2 y2)]>
         (<[0%nat := mkPoint x1 y1 (ZCylinder.z_at x0 y0 z0 polar x1 y1)]>
            points)).
Proof.
  intros Hpolar Hlen Hd. cbv zeta.
  unfold count_ahead, candidates.
  revert Hd.
  unfold ZCylinder.discriminant, ZCylinder.intersection, ZCylinder.vertical.
  cbv zeta.
  destruct (Rltb (Rabs (azim - PI / 2)) 1.0e-10
            || Rltb (Rabs (azim - 3.0 * (PI / 2))) 1.0e-10);
    intros Hd; rewrite Rltb_false by lra; rewrite Reqb_false by lra;
    cbn [fst snd]; unfold bind;
    rewrite root_spec by (first [exact Hpolar | lia]);
    (rewrite root_spec;
     [| exact Hpolar
      | rewrite length_insert; destruct (ahead _ _ _); lia]);
    do 2 (destruct (ahead _ _ _)); reflexivity.
Qed.

(** The quadratic formula. *)
Lemma quadratic_root (a b cc sd x : R) :
  a <> 0 ->
  sd * sd = b * b - 4 * a * cc ->
  x = (- b + sd) / (2 * a) \/ x = (- b - sd) / (2 * a) ->
  a * x * x + b * x + cc = 0.
Proof.
  intros Ha Hsd Hx.
  assert (H : 4 * a * (a * x * x + b * x + cc) = sd * sd - (b * b - 4 * a * cc)).
  { destruct Hx as [-> | ->]; field; exact Ha. }
  rewrite Hsd in H.
  replace (b * b - 4 * a * cc - (b * b - 4 * a * cc)) with 0 in H by ring.
  apply Rmult_integral in H as [H | H]; [| exact H].
  exfalso. apply Rmult_integral in H as [H | H]; [lra | contradiction].
Qed.

(** The cylinder of radius [r] around (xc, yc), as the constructor builds
    it on a base object [s]. *)
Lemma ZCylinder_constructed (xc yc r : R) (id : Z) (name : string) (g : globals) :
  exists s g',
    ZCylinder.ZCylinder xc yc r id name g
    = Returned (ZCylinder.mk s 1 1 (-2 * xc) (-2 * yc)
                  (xc * xc + yc * yc - r * r) r (mkPoint xc yc 0)) g'.
Proof.
  destruct (Surface_name id name g) as (s & g' & Hs & _).
  eexists _, g'. unfold ZCylinder.ZCylinder, bind. rewrite Hs. reflexivity.
Qed.

(** The roots of a non-negative discriminant lie on the cylinder. *)
Lemma candidates_on_cylinder (s : Surface.t) (xc yc r : R) (ctr : Point)
    (point : Point) (azim : R) :
  let c := ZCylinder.mk s 1 1 (-2 * xc) (-2 * yc)
             (xc * xc + yc * yc - r * r) r ctr in
  0 <= ZCylinder.discriminant c point azim ->
  let x1 := fst (fst (candidates c point azim)) in
  let y1 := snd (fst (candidates c point azim)) in
  let x2 := fst (snd (candidates c point azim)) in
  let y2 := snd (snd (candidates c point azim)) in
  (x1 - xc) * (x1 - xc) + (y1 - yc) * (y1 - yc) = r * r
  /\ (x2 - xc) * (x2 - xc) + (y2 - yc) * (y2 - yc) = r * r.
Proof.
  intros c Hd. cbv zeta.
  pose proof (sqrt_sqrt _ Hd) as Hsd.
  unfold candidates.
  set (sd := sqrt (ZCylinder.discriminant c point azim)) in *.
  revert Hsd. unfold ZCylinder.discriminant. cbv zeta.
  destruct (ZCylinder.vertical azim); cbn [c ZCylinder._A ZCylinder._B
    ZCylinder._C ZCylinder._D ZCylinder._E fst snd]; intros Hsd.
  - set (x0 := getX point) in *.
    assert (Hq : forall y,
               y = (- (-2 * yc) + sd) / (2 * (1 * 1))
               \/ y = (- (-2 * yc) - sd) / (2 * (1 * 1)) ->
               (x0 - xc) * (x0 - xc) + (y - yc) * (y - yc) = r * r).
    { intros y Hy.
      pose proof (quadratic_root (1 * 1) (-2 * yc)
                    (1 * x0 * x0 + -2 * xc * x0 + (xc * xc + yc * yc - r * r))
                    sd y ltac:(lra) Hsd Hy) as H.
      lra. }
    split; apply Hq; [left | right]; reflexivity.
  - set (x0 := getX point) in *. set (y0 := getY point) in *.
    set (m := sin azim / cos azim) in *.
    set (q := y0 - m * x0) in *.
    assert (Ha : 1 + 1 * 1 * m * m <> 0) by nra.
    assert (Hq : forall x,
               x = (- (2 * 1 * m * q + -2 * xc + -2 * yc * m) + sd)
                   / (2 * (1 + 1 * 1 * m * m))
               \/ x = (- (2 * 1 * m * q + -2 * xc + -2 * yc * m) - sd)
                      / (2 * (1 + 1 * 1 * m * m)) ->
               (x - xc) * (x - xc)
               + (y0 + m * (x - x0) - yc) * (y0 + m * (x - x0) - yc) = r * r).
    { intros x Hx.
      pose proof (quadratic_root _ _ _ sd x Ha Hsd Hx) as H.
      unfold q in *. nra. }
    split; apply Hq; [left | right]; reflexivity.
Qed.

(** Where the roots lie relative to the ray: on the vertical line through
    the origin in the vertical case, on the line of slope tan(azim) through
    the origin otherwise. *)
Lemma candidates_on_line (c : ZCylinder.t) (point : Point) (azim : R) :
  let x1 := fst (fst (candidates c point azim)) in
  let y1 := snd (fst (candidates c point azim)) in
  let x2 := fst (snd (candidates c point azim)) in
  let y2 := snd (snd (candidates c point azim)) in
  if ZCylinder.vertical azim
  then x1 = getX point /\ x2 = getX point
  else y1 = getY point + sin azim / cos azim * (x1 - getX point)
       /\ y2 = getY point + sin azim / cos azim * (x2 - getX point).
Proof.
  cbv zeta. unfold candidates.
  destruct (ZCylinder.vertical azim); cbn [fst snd]; split; reflexivity.
Qed.

Lemma sin_sign (azim : R) :
  0 < azim < 2 * PI -> azim <> PI ->
  (azim < PI /\ 0 < sin azim) \/ (azim > PI /\ sin azim < 0).
Proof.
  intros Hazim Hne.
  destruct (Rtotal_order azim PI) as [Hlt | [Heq | Hgt]]; [| contradiction |].
  - left. split; [exact Hlt | apply sin_gt_0; lra].
  - right. split; [exact Hgt | apply sin_lt_0; lra].
Qed.

(** A root at the offset [e] from the centre in y, when the centre is [t]
    ahead of the origin and [e] is shorter than the centre's offset in y. *)
Lemma ahead_of_origin (azim y0 ycurr t e : R) :
  0 < azim < 2 * PI -> azim <> PI ->
  0 < t ->
  ycurr - y0 = e + t * sin azim ->
  e * e < (t * sin azim) * (t * sin azim) ->
  ahead azim y0 ycurr = true.
Proof.
  intros Hazim Hne Ht Hy He. apply ahead_true.
  set (p := t * sin azim) in *.
  destruct (sin_sign azim Hazim Hne) as [[Hlt Hs] | [Hgt Hs]]; [left | right];
    split; try assumption.
  - assert (Hp : 0 < p) by (unfold p; nra).
    destruct (Rlt_or_le 0 (e + p)) as [H | H]; [lra |].
    exfalso. assert (0 <= (e + p) * (e - p)) by nra. nra.
  - assert (Hp : p < 0) by (unfold p; nra).
    destruct (Rlt_or_le (e + p) 0) as [H | H]; [lra |].
    exfalso. assert (0 <= (e + p) * (e - p)) by nra. nra.
Qed.

Lemma cos_nonzero_off_vertical (azim : R) :
  0 < azim < 2 * PI -> ZCylinder.vertical azim = false -> cos azim <> 0.
Proof.
  intros Hazim Hv Hcos. unfold ZCylinder.vertical in Hv.
  apply orb_false_iff in Hv as [H1 H2].
  apply Rltb_ge in H1. apply Rltb_ge in H2.
  destruct (cos_eq_0_2PI_0 azim ltac:(lra) ltac:(lra) Hcos) as [-> | ->].
  - replace (PI / 2 - PI / 2) with 0 in H1 by ring.
    rewrite Rabs_R0 in H1. lra.
  - replace (3 * (PI / 2) - 3.0 * (PI / 2)) with 0 in H2 by lra.
    rewrite Rabs_R0 in H2. lra.
Qed.

Lemma square_below (t k r : R) :
  0 < t -> t * Rabs k < r -> (t * k) * (t * k) < r * r.
Proof.
  intros Ht H. pose proof (Rabs_pos k) as Hk0.
  assert (Hk : Rabs k * Rabs k = k * k).
  { unfold Rabs. destruct (Rcase_abs k); ring. }
  set (a := t * Rabs k) in *.
  assert (Ha : 0 <= a) by (unfold a; nra).
  assert (Haa : a * a < r * r) by nra.
  replace (t * k * (t * k)) with (t * t * (k * k)) by ring.
  rewrite <- Hk. replace (t * t * (Rabs k * Rabs k)) with (a * a) by (unfold a; ring).
  exact Haa.
Qed.

(** A ray through the axis of the cylinder that starts outside it, with the
    axis ahead: the discriminant is positive and both roots lie ahead. *)
Lemma through_centre (s : Surface.t) (xc yc r : R) (ctr : Point)
    (point : Point) (azim t : R) :
  let c := ZCylinder.mk s 1 1 (-2 * xc) (-2 * yc)
             (xc * xc + yc * yc - r * r) r ctr in
  0 < r < t ->
  0 < azim < 2 * PI -> azim <> PI ->
  xc = getX point + t * cos azim ->
  yc = getY point + t * sin azim ->
  (ZCylinder.vertical azim = true -> t * Rabs (cos azim) < r) ->
  ZCylinder.discriminant c point azim > 0
  /\ count_ahead c point azim = 2%nat.
Proof.
  intros c Hr Hazim Hne Hxc Hyc Hvert.
  pose proof (sin2_cos2 azim) as Hsc. unfold Rsqr in Hsc.
  assert (Hd : ZCylinder.discriminant c point azim > 0).
  { unfold ZCylinder.discriminant. cbv zeta.
    cbn [c ZCylinder._A ZCylinder._B ZCylinder._C ZCylinder._D ZCylinder._E].
    destruct (ZCylinder.vertical azim) eqn:Hv.
    - specialize (Hvert eq_refl).
      pose proof (square_below t (cos azim) r ltac:(lra) Hvert) as Hlt.
      rewrite Hxc. nra.
    - pose proof (cos_nonzero_off_vertical azim Hazim Hv) as Hk.
      set (m := sin azim / cos azim).
      set (q := getY point - m * getX point).
      assert (Hmk : m * cos azim = sin azim) by (unfold m; field; exact Hk).
      assert (Hline : yc = m * xc + q).
      { unfold q. rewrite Hyc, Hxc. rewrite <- Hmk. ring. }
      rewrite Hline.
      replace ((2 * 1 * m * q + -2 * xc + -2 * (m * xc + q) * m)
               * (2 * 1 * m * q + -2 * xc + -2 * (m * xc + q) * m)
               - 4 * (1 + 1 * 1 * m * m)
                 * (1 * q * q + -2 * (m * xc + q) * q
                    + (xc * xc + (m * xc + q) * (m * xc + q) - r * r)))
        with (4 * (1 + m * m) * (r * r)) by ring.
      nra. }
  split; [exact Hd |].
  pose proof (candidates_on_cylinder s xc yc r ctr point azim ltac:(fold c; lra))
    as Hcircle.
  pose proof (candidates_on_line c point azim) as Hlin.
  cbv zeta in Hcircle, Hlin. fold c in Hcircle.
  unfold count_ahead.
  destruct (candidates c point azim) as [[x1 y1] [x2 y2]].
  cbn [fst snd] in Hcircle, Hlin. destruct Hcircle as [Hc1 Hc2].
  assert (Hboth : ahead azim (getY point) y1 = true
                  /\ ahead azim (getY point) y2 = true).
  { destruct (ZCylinder.vertical azim) eqn:Hv.
    - specialize (Hvert eq_refl). destruct Hlin as [-> ->].
      pose proof (square_below t (cos azim) r ltac:(lra) Hvert) as Hlt.
      split.
      + apply (ahead_of_origin azim _ y1 t (y1 - yc)); try assumption; [lra | lra |].
        rewrite Hxc in Hc1. nra.
      + apply (ahead_of_origin azim _ y2 t (y2 - yc)); try assumption; [lra | lra |].
        rewrite Hxc in Hc2. nra.
    - pose proof (cos_nonzero_off_vertical azim Hazim Hv) as Hk.
      set (m := sin azim / cos azim) in *.
      assert (Hmk : m * cos azim = sin azim) by (unfold m; field; exact Hk).
      destruct Hlin as [Hy1 Hy2].
      assert (Hroot : forall x y,
                 y = getY point + m * (x - getX point) ->
                 (x - xc) * (x - xc) + (y - yc) * (y - yc) = r * r ->
                 ahead azim (getY point) y = true).
      { intros x y Hy Hc.
        assert (He : y - yc = m * (x - xc)).
        { rewrite Hy, Hyc, Hxc, <- Hmk. ring. }
        assert (Hek : (y - yc) * cos azim = sin azim * (x - xc)).
        { rewrite He, <- Hmk. ring. }
        assert (Hee : (y - yc) * (y - yc) = sin azim * sin azim * (r * r)).
        { transitivity ((y - yc) * (y - yc)
                        * (sin azim * sin azim + cos azim * cos azim));
            [rewrite Hsc; ring |].
          transitivity (sin azim * sin azim * ((y - yc) * (y - yc))
                        + ((y - yc) * cos azim) * ((y - yc) * cos azim));
            [ring |].
          rewrite Hek, <- Hc. ring. }
        apply (ahead_of_origin azim _ y t (y - yc)); try assumption; [lra | lra |].
        rewrite Hee.
        assert (Hrt : r * r < t * t) by nra.
        assert (Hss : 0 < sin azim * sin azim)
          by (destruct (sin_sign azim Hazim Hne) as [[_ Hs] | [_ Hs]]; nra).
        replace (t * sin azim * (t * sin azim))
          with (sin azim * sin azim * (t * t)) by ring.
        apply Rmult_lt_compat_l; assumption. }
      split; [apply (Hroot x1) | apply (Hroot x2)]; assumption. }
  destruct Hboth as [-> ->]. reflexivity.
Qed.

(** C1 (as amended): for the ZCylinder of radius r around (xc, yc), a polar
    angle strictly between 0 and pi and a buffer with room for two Points:
    a negative discriminant gives 0 and leaves the buffer alone; a positive
    discriminant gives two roots, and the value returned is the number of
    them (0, 1 or 2) that lie ahead of the origin in y on the side the
    azimuthal angle points to, each counted root being stored in the buffer
    at distance r from the axis; 2 is returned when the ray runs through the
    axis from an origin outside the cylinder with the axis ahead (at
    distance t > r), the azimuthal angle being in (0, 2 pi) and not pi, and,
    where the code takes the track for vertical, its distance from the axis
    t |cos azim| being below r.  A zero discriminant is not covered. *)
Theorem cylinder_intersection_count (xc yc r : R) (id : Z) (name : string)
    (g : globals) (point : Point) (azim polar : R) (points : list Point) :
  0 < polar < PI ->
  (2 <= length points)%nat ->
  exists cyl g',
    ZCylinder.ZCylinder xc yc r id name g = Returned cyl g'
    /\ (ZCylinder.discriminant cyl point azim < 0 ->
        ZCylinder.intersection cyl point azim polar points
        = Returned 0%Z points)
    /\ (ZCylinder.discriminant cyl point azim > 0 ->
        exists points',
          ZCylinder.intersection cyl point azim polar points
          = Returned (Z.of_nat (count_ahead cyl point azim)) points'
          /\ (count_ahead cyl point azim <= 2)%nat
          /\ forall i, (i < count_ahead cyl point azim)%nat ->
               exists q,
                 points' !! i = Some q
                 /\ (getX q - xc) * (getX q - xc)
                    + (getY q - yc) * (getY q - yc) = r * r
                 /\ ahead azim (getY point) (getY q) = true)
    /\ (forall t,
          0 < r < t ->
          0 < azim < 2 * PI -> azim <> PI ->
          xc = getX point + t * cos azim ->
          yc = getY point + t * sin azim ->
          (ZCylinder.vertical azim = true -> t * Rabs (cos azim) < r) ->
          ZCylinder.discriminant cyl point azim > 0
          /\ exists points',
               ZCylinder.intersection cyl point azim polar points
               = Returned 2%Z points'
               /\ forall i, (i < 2)%nat ->
                    exists q,
                      points' !! i = Some q
                      /\ (getX q - xc) * (getX q - xc)
                         + (getY q - yc) * (getY q - yc) = r * r).
Proof.
  intros Hpolar Hlen.
  destruct (ZCylinder_constructed xc yc r id name g) as (s & g' & Hctor).
  eexists _, g'. split; [exact Hctor |].
  set (cyl := ZCylinder.mk s 1 1 (-2 * xc) (-2 * yc)
                (xc * xc + yc * yc - r * r) r (mkPoint xc yc 0)).
  assert (Hpos :
    ZCylinder.discriminant cyl point azim > 0 ->
    exists points',
      ZCylinder.intersection cyl point azim polar points
      = Returned (Z.of_nat (count_ahead cyl point azim)) points'
      /\ (count_ahead cyl point azim <= 2)%nat
      /\ forall i, (i < count_ahead cyl point azim)%nat ->
           exists q,
             points' !! i = Some q
             /\ (getX q - xc) * (getX q - xc)
                + (getY q - yc) * (getY q - yc) = r * r
             /\ ahead azim (getY point) (getY q) = true).
  { intros Hd.
    pose proof (intersection_positive cyl point azim polar points Hpolar Hlen Hd)
      as Hrun.
    pose proof (candidates_on_cylinder s xc yc r (mkPoint xc yc 0) point azim
                  ltac:(fold cyl; lra)) as Hcircle.
    cbv zeta in Hrun, Hcircle. fold cyl in Hcircle.
    eexists. split; [exact Hrun |].
    unfold count_ahead.
    destruct (candidates cyl point azim) as [[x1 y1] [x2 y2]].
    cbn [fst snd] in *. destruct Hcircle as [Hc1 Hc2].
    destruct (ahead azim (getY point) y1) eqn:Ha1;
      destruct (ahead azim (getY point) y2) eqn:Ha2;
      cbn [Nat.add]; (split; [lia |]); intros i Hi.
    - destruct i as [| [| i]]; [| | lia].
      + eexists. split.
        { rewrite list_lookup_insert_ne by lia.
          apply list_lookup_insert_eq. lia. }
        cbn [getX getY]. auto.
      + eexists. split.
        { apply list_lookup_insert_eq. rewrite length_insert. lia. }
        cbn [getX getY]. auto.
    - destruct i as [| i]; [| lia].
      eexists. split.
      { rewrite list_lookup_insert_ne by lia.
        apply list_lookup_insert_eq. lia. }
      cbn [getX getY]. auto.
    - destruct i as [| i]; [| lia].
      eexists. split.
      { apply list_lookup_insert_eq. rewrite length_insert. lia. }
      cbn [getX getY]. auto.
    - lia. }
  split; [apply intersection_negative |]. split; [exact Hpos |].
  intros t Hr Hazim Hne Hxc Hyc Hvert.
  destruct (through_centre s xc yc r (mkPoint xc yc 0) point azim t
              Hr Hazim Hne Hxc Hyc Hvert) as [Hd Hcount].
  fold cyl in Hd, Hcount. split; [exact Hd |].
  destruct (Hpos Hd) as (points' & Hrun & _ & Hstored).
  rewrite Hcount in Hrun, Hstored.
  exists points'. split; [exact Hrun |].
  intros i Hi. destruct (Hstored i Hi) as (q & Hq & Hcircle & _).
  exists q. split; assumption.
Qed.

Lemma vertical_PI2 : ZCylinder.vertical (PI / 2) = true.
Proof.
  unfold ZCylinder.vertical.
  replace (PI / 2 - PI / 2) with 0 by ring.
  rewrite (Rltb_true (Rabs 0)) by (rewrite Rabs_R0; lra). reflexivity.
Qed.

Lemma cylinder_intersection_count_witness :
  0 < PI / 2 < PI
  /\ (2 <= length [Sample.origin; Sample.origin])%nat
  /\ exists cyl g',
       ZCylinder.ZCylinder 0 0 1 1 "" initial_globals = Returned cyl g'
       /\ exists points',
            ZCylinder.intersection cyl (mkPoint 0 (- 2) 0) (PI / 2) (PI / 2)
              [Sample.origin; Sample.origin] = Returned 2%Z points'.
Proof.
  pose proof PI_RGT_0 as Hpi.
  assert (Hpolar : 0 < PI / 2 < PI) by lra.
  assert (Hlen : (2 <= length [Sample.origin; Sample.origin])%nat)
    by (cbn; lia).
  split; [exact Hpolar |]. split; [exact Hlen |].
  destruct (cylinder_intersection_count 0 0 1 1 "" initial_globals
              (mkPoint 0 (- 2) 0) (PI / 2) (PI / 2)
              [Sample.origin; Sample.origin] Hpolar Hlen)
    as (cyl & g' & Hctor & _ & _ & Hthrough).
  exists cyl, g'. split; [exact Hctor |].
  destruct (Hthrough 2) as (_ & points' & Hrun & _).
  - lra.
  - lra.
  - lra.
  - cbn [getX]. rewrite cos_PI2. ring.
  - cbn [getY]. rewrite sin_PI2. ring.
  - intros _. rewrite cos_PI2, Rabs_R0. lra.
  - exists points'. exact Hrun.
Defined.

(** The discriminant and the roots for the unit cylinder and a vertical
    track through its axis. *)
Lemma sample_vertical_roots (y0 : R) :
  ZCylinder.discriminant Sample.unit_cylinder (mkPoint 0 y0 0) (PI / 2) = 4
  /\ candidates Sample.unit_cylinder (mkPoint 0 y0 0) (PI / 2)
     = ((0, 1), (0, -1)).
Proof.
  assert (Hd : ZCylinder.discriminant Sample.unit_cylinder (mkPoint 0 y0 0)
                 (PI / 2) = 4).
  { unfold ZCylinder.discriminant. rewrite vertical_PI2. cbn. ring. }
  split; [exact Hd |].
  unfold candidates. rewrite Hd, vertical_PI2.
  replace 4 with (2 * 2) by ring. rewrite sqrt_square by lra.
  cbn. f_equal; f_equal; field.
Qed.

(** A ray through the centre that starts inside the cylinder meets it once
    ahead of its origin.  The cylinder has radius 1 around the z-axis; the
    ray starts at (0, -1/2, 0) and runs along +y, so the centre lies on it
    at distance 1/2; 1 is returned. *)
Lemma sample_ray_from_inside :
  0 = getX (mkPoint 0 (- (1 / 2)) 0) + 1 / 2 * cos (PI / 2)
  /\ 0 = getY (mkPoint 0 (- (1 / 2)) 0) + 1 / 2 * sin (PI / 2)
  /\ exists points',
       ZCylinder.intersection Sample.unit_cylinder (mkPoint 0 (- (1 / 2)) 0)
         (PI / 2) (PI / 2) [Sample.origin; Sample.origin]
       = Returned 1%Z points'.
Proof.
  pose proof PI_RGT_0 as Hpi.
  split; [cbn [getX]; rewrite cos_PI2; ring |].
  split; [cbn [getY]; rewrite sin_PI2; lra |].
  destruct (sample_vertical_roots (- (1 / 2))) as [Hd Hc].
  pose proof (intersection_positive Sample.unit_cylinder
                (mkPoint 0 (- (1 / 2)) 0) (PI / 2) (PI / 2)
                [Sample.origin; Sample.origin] ltac:(lra) ltac:(cbn; lia)
                ltac:(rewrite Hd; lra)) as Hrun.
  cbv zeta in Hrun. unfold count_ahead in Hrun. rewrite Hc in Hrun.
  cbn [fst snd getY] in Hrun.
  assert (H1 : ahead (PI / 2) (- (1 / 2)) 1 = true)
    by (apply ahead_true; lra).
  assert (H2 : ahead (PI / 2) (- (1 / 2)) (-1) = false).
  { destruct (ahead (PI / 2) (- (1 / 2)) (-1)) eqn:E; [| reflexivity].
    apply ahead_true in E. lra. }
  rewrite H1, H2 in Hrun. eexists. exact Hrun.
Qed.

(** What the code does with a zero discriminant.  On a vertical track the
    function ends without a [return]; elsewhere the y of the single root is
    computed from the x that the buffer held on entry. *)
Lemma vertical_tangent_has_no_return :
  ZCylinder.discriminant Sample.unit_cylinder (mkPoint 1 (- 1) 0) (PI / 2) = 0
  /\ ZCylinder.intersection Sample.unit_cylinder (mkPoint 1 (- 1) 0)
       (PI / 2) (PI / 2) [Sample.origin; Sample.origin] = Undefined.
Proof.
  assert (Hd : ZCylinder.discriminant Sample.unit_cylinder (mkPoint 1 (- 1) 0)
                 (PI / 2) = 0).
  { unfold ZCylinder.discriminant. rewrite vertical_PI2. cbn. ring. }
  split; [exact Hd |].
  revert Hd. unfold ZCylinder.discriminant, ZCylinder.intersection. cbv zeta.
  fold (ZCylinder.vertical (PI / 2)). rewrite vertical_PI2. intros Hd.
  rewrite Rltb_false by lra. rewrite Reqb_true by exact Hd.
  unfold bind, ZCylinder.root, bind, store. cbn [length].
  destruct (decide (0 < 2)%nat); reflexivity.
Qed.

Lemma tangent_reads_buffer (c : ZCylinder.t) (point : Point)
    (azim polar : R) (p0 : Point) (rest : list Point) :
  0 < polar < PI ->
  ZCylinder.vertical azim = false ->
  ZCylinder.discriminant c point azim = 0 ->
  let x0 := getX point in
  let y0 := getY point in
  let z0 := getZ point in
  let m := sin azim / cos azim in
  let q := y0 - m * x0 in
  let a := ZCylinder._A c + ZCylinder._B c * ZCylinder._B c * m * m in
  let b := 2 * ZCylinder._B c * m * q + ZCylinder._C c + ZCylinder._D c * m in
  let xcurr := - b / (2 * a) in
  let ycurr := y0 + m * (getX p0 - x0) in
  ZCylinder.intersection c point azim polar (p0 :: rest)
  = Returned (if ahead azim y0 ycurr then 1%Z else 0%Z)
      (mkPoint xcurr ycurr (ZCylinder.z_at x0 y0 z0 polar xcurr ycurr) :: rest).
Proof.
  intros Hpolar Hv Hd. cbv zeta. revert Hd.
  unfold ZCylinder.discriminant, ZCylinder.intersection. cbv zeta.
  fold (ZCylinder.vertical azim). rewrite Hv. intros Hd.
  rewrite Rltb_false by lra. rewrite Reqb_true by exact Hd.
  unfold bind at 1. unfold load. cbn [lookup list_lookup deref ret].
  unfold bind at 1. rewrite root_spec by (first [exact Hpolar | cbn; lia]).
  unfold ret. destruct (ahead _ _ _); reflexivity.
Qed.

(** The y test of the direction check never passes on a horizontal track:
    from (-2, 0, 0) along +x the unit cylinder lies ahead, on the ray, and
    0 is returned. *)
Lemma horizontal_ray_counts_nothing :
  ZCylinder.intersection Sample.unit_cylinder (mkPoint (- 2) 0 0) 0 (PI / 2)
    [Sample.origin; Sample.origin]
  = Returned 0%Z [mkPoint (- 1) 0 0; Sample.origin].
Proof.
  pose proof PI_RGT_0 as Hpi. pose proof PI2_1 as Hpi2.
  assert (Hv : ZCylinder.vertical 0 = false).
  { unfold ZCylinder.vertical. apply orb_false_iff. split; apply Rltb_false.
    - rewrite Rabs_left by lra. lra.
    - rewrite Rabs_left by lra. lra. }
  assert (Hm : sin 0 / cos 0 = 0) by (rewrite sin_0, cos_0; field).
  assert (Hd : ZCylinder.discriminant Sample.unit_cylinder
                 (mkPoint (- 2) 0 0) 0 = 4).
  { unfold ZCylinder.discriminant. rewrite Hv, Hm. cbn. ring. }
  assert (Hc : candidates Sample.unit_cylinder (mkPoint (- 2) 0 0) 0
               = ((1, 0), (- 1, 0))).
  { unfold candidates. rewrite Hd, Hv, Hm.
    replace 4 with (2 * 2) by ring. rewrite sqrt_square by lra.
    cbn. f_equal; f_equal; field. }
  pose proof (intersection_positive Sample.unit_cylinder (mkPoint (- 2) 0 0)
                0 (PI / 2) [Sample.origin; Sample.origin]
                ltac:(lra) ltac:(cbn; lia) ltac:(rewrite Hd; lra)) as Hrun.
  cbv zeta in Hrun. unfold count_ahead in Hrun. rewrite Hc in Hrun.
  cbn [fst snd getX getY getZ] in Hrun.
  assert (H0 : ahead 0 0 0 = false).
  { destruct (ahead 0 0 0) eqn:E; [| reflexivity]. apply ahead_true in E. lra. }
  rewrite H0 in Hrun. rewrite Hrun. cbn [Nat.add Z.of_nat].
  unfold ZCylinder.z_at.
  replace (PI / 2 - PI / 2) with 0 by ring. rewrite tan_0.
  cbn. do 2 f_equal. f_equal; ring.
Qed.

(** C1, as stated, fails: rays through the centre of the unit cylinder
    around the z-axis that do not get 2.  The first starts inside, at
    (0, -1/2, 0), and runs along +y: the centre is 1/2 ahead and 1 is
    returned.  The second starts outside, at (-2, 0, 0), and runs along +x:
    the centre is 2 ahead and 0 is returned. *)
Lemma rays_through_centre_not_counted_twice :
  (0 = getX (mkPoint 0 (- (1 / 2)) 0) + 1 / 2 * cos (PI / 2)
   /\ 0 = getY (mkPoint 0 (- (1 / 2)) 0) + 1 / 2 * sin (PI / 2)
   /\ exists points',
        ZCylinder.intersection Sample.unit_cylinder (mkPoint 0 (- (1 / 2)) 0)
          (PI / 2) (PI / 2) [Sample.origin; Sample.origin]
        = Returned 1%Z points')
  /\ (0 = getX (mkPoint (- 2) 0 0) + 2 * cos 0
      /\ 0 = getY (mkPoint (- 2) 0 0) + 2 * sin 0
      /\ ZCylinder.intersection Sample.unit_cylinder (mkPoint (- 2) 0 0)
           0 (PI / 2) [Sample.origin; Sample.origin]
         = Returned 0%Z [mkPoint (- 1) 0 0; Sample.origin]).
Proof.
  split; [exact sample_ray_from_inside |].
  split; [cbn [getX]; rewrite cos_0; ring |].
  split; [cbn [getY]; rewrite sin_0; ring |].
  exact horizontal_ray_counts_nothing.
Qed.

(** ** Which operations fail *)









(** * Further properties of the code *)

Local Close Scope R_scope.

(** ** Ids and uids over any constructions *)

Lemma Surface_any (id : Z) (name : string) (g : globals) :
  exists s,
    Surface.Surface id name g
    = Returned s
        (Globals (if decide (id = 0%Z) then wrap32 (auto_id g + 1) else auto_id g)
                 (wrap32 (Surface_n g + 1)))
    /\ Surface.getId s = (if decide (id = 0%Z) then auto_id g else id)
    /\ Surface.getUid s = Surface_n g.
Proof.
  unfold Surface.Surface, bind.
  destruct (decide (id = 0%Z)); eexists; (split; [reflexivity |]);
    split; reflexivity.
Qed.

Lemma construct_uids (requests : list (Z * string)) :
  forall g : globals,
    (INT_MIN <= Surface_n g <= INT_MAX)%Z ->
    (Surface_n g + Z.of_nat (length requests) <= INT_MAX + 1)%Z ->
    exists ss g',
      construct requests g = Returned ss g'
      /\ Surface.getUid <$> ss = seqZ (Surface_n g) (Z.of_nat (length requests))
      /\ Surface_n g' = wrap32 (Surface_n g + Z.of_nat (length requests)).
Proof.
  induction requests as [| [id name] requests IH]; intros g Hlo Hhi.
  - exists [], g. cbn [construct length]. repeat split.
    rewrite Z.add_0_r, wrap32_in_range; [reflexivity | exact Hlo].
  - cbn [length] in Hhi. rewrite Nat2Z.inj_succ in Hhi.
    destruct (Surface_any id name g) as (s & Hs & _ & Huid).
    set (g1 := Globals (if decide (id = 0%Z) then wrap32 (auto_id g + 1)
                        else auto_id g) (wrap32 (Surface_n g + 1))) in *.
    destruct requests as [| request' requests'].
    + exists [s], g1. cbn [construct fst snd]. unfold bind at 1. rewrite Hs.
      cbn. rewrite Huid. repeat split.
    + assert (Hstep : wrap32 (Surface_n g + 1) = (Surface_n g + 1)%Z).
      { apply wrap32_in_range. cbn [length] in Hhi.
        rewrite Nat2Z.inj_succ in Hhi. unfold INT_MIN, INT_MAX in *. lia. }
      destruct (IH g1) as (ss & g' & Hrun & Huids & Hfin).
      { cbn [g1 Surface_n]. rewrite Hstep. cbn [length] in Hhi.
        rewrite Nat2Z.inj_succ in Hhi. unfold INT_MIN, INT_MAX in *. lia. }
      { cbn [g1 Surface_n]. rewrite Hstep. lia. }
      exists (s :: ss), g'.
      change (construct ((id, name) :: request' :: requests'))
        with (s0 <- Surface.Surface id name ;;
              ss0 <- construct (request' :: requests') ;;
              ret (s0 :: ss0))%cpp.
      unfold bind at 1. rewrite Hs.
      unfold bind at 1. rewrite Hrun. unfold ret.
      split; [reflexivity |]. split.
      * rewrite fmap_cons, Huids, Huid. cbn [g1 Surface_n]. rewrite Hstep.
        rewrite (seqZ_cons (Surface_n g)) by (cbn [length]; lia).
        f_equal. f_equal. cbn [length]. lia.
      * rewrite Hfin. cbn [g1 Surface_n]. rewrite Hstep. f_equal.
        cbn [length]. lia.
Qed.

(** X1: the uids of consecutive constructions, whatever their id arguments,
    count up by one from the value of [Surface::_n], and [reset_surf_id()]
    in between does not disturb them: as long as the counter stays within
    [int], the uids of all Surfaces constructed are pairwise different. *)
Theorem uids_count_up_across_reset (before after : list (Z * string))
    (g : globals) :
  (INT_MIN <= Surface_n g <= INT_MAX)%Z ->
  (Surface_n g + Z.of_nat (length before + length after) <= INT_MAX + 1)%Z ->
  exists ss g',
    (ss1 <- construct before ;;
     reset_surf_id ;;;
     ss2 <- construct after ;;
     ret (ss1 ++ ss2))%cpp g = Returned ss g'
    /\ Surface.getUid <$> ss
       = seqZ (Surface_n g) (Z.of_nat (length before + length after))
    /\ NoDup (Surface.getUid <$> ss).
Proof.
  intros Hlo Hhi. rewrite Nat2Z.inj_add in Hhi.
  destruct (construct_uids before g Hlo ltac:(lia))
    as (ss1 & g1 & Hrun1 & Huids1 & Hfin1).
  destruct after as [| request after].
  - exists ss1. eexists. unfold bind at 1. rewrite Hrun1.
    unfold bind at 1. cbn [reset_surf_id construct]. cbn. rewrite app_nil_r.
    split; [reflexivity |]. rewrite Nat.add_0_r, Huids1.
    split; [reflexivity | apply NoDup_seqZ].
  - assert (Hn1 : Surface_n g1 = (Surface_n g + Z.of_nat (length before))%Z).
    { rewrite Hfin1. apply wrap32_in_range. cbn [length] in Hhi.
      unfold INT_MIN, INT_MAX in *. lia. }
    destruct (construct_uids (request :: after) (Globals 10000 (Surface_n g1)))
      as (ss2 & g2 & Hrun2 & Huids2 & _).
    { cbn [Surface_n]. rewrite Hn1. cbn [length] in Hhi.
      unfold INT_MIN, INT_MAX in *. lia. }
    { cbn [Surface_n]. rewrite Hn1. lia. }
    exists (ss1 ++ ss2), g2. unfold bind at 1. rewrite Hrun1.
    unfold bind at 1. cbn [reset_surf_id]. unfold bind at 1. rewrite Hrun2.
    split; [reflexivity |].
    assert (Hall : Surface.getUid <$> ss1 ++ ss2
                   = seqZ (Surface_n g)
                       (Z.of_nat (length before + length (request :: after)))).
    { rewrite fmap_app, Huids1, Huids2. cbn [Surface_n]. rewrite Hn1.
      rewrite Nat2Z.inj_add. symmetry. apply seqZ_app; lia. }
    split; [exact Hall |]. rewrite Hall. apply NoDup_seqZ.
Qed.

Lemma uids_count_up_across_reset_witness :
  (INT_MIN <= Surface_n initial_globals <= INT_MAX)%Z
  /\ (Surface_n initial_globals
      + Z.of_nat (length [(0%Z, "a"%string); (7%Z, "b"%string)]
                  + length [(0%Z, "c"%string)]) <= INT_MAX + 1)%Z
  /\ exists ss g',
       (ss1 <- construct [(0%Z, "a"%string); (7%Z, "b"%string)] ;;
        reset_surf_id ;;;
        ss2 <- construct [(0%Z, "c"%string)] ;;
        ret (ss1 ++ ss2))%cpp initial_globals = Returned ss g'
       /\ Surface.getUid <$> ss = seqZ 0 3
       /\ NoDup (Surface.getUid <$> ss).
Proof.
  assert (H1 : (INT_MIN <= Surface_n initial_globals <= INT_MAX)%Z)
    by (cbn; unfold INT_MIN, INT_MAX; lia).
  assert (H2 : (Surface_n initial_globals
                + Z.of_nat (length [(0%Z, "a"%string); (7%Z, "b"%string)]
                            + length [(0%Z, "c"%string)]) <= INT_MAX + 1)%Z)
    by (cbn; unfold INT_MAX; lia).
  split; [exact H1 |]. split; [exact H2 |].
  exact (uids_count_up_across_reset [(0%Z, "a"%string); (7%Z, "b"%string)]
           [(0%Z, "c"%string)] initial_globals H1 H2).
Defined.

(** X2: the constructor does not check a user id against the counter.  A
    Surface constructed with the user id that the counter holds (10000
    right after a reset) and the Surface auto-assigned next carry the same
    id; their uids differ. *)
Theorem user_id_at_counter_is_reused (name1 name2 : string) (g : globals) :
  auto_id g <> 0%Z ->
  (INT_MIN <= Surface_n g < INT_MAX)%Z ->
  exists s1 s2 g',
    (s1 <- Surface.Surface (auto_id g) name1 ;;
     s2 <- Surface.Surface 0 name2 ;;
     ret (s1, s2))%cpp g = Returned (s1, s2) g'
    /\ Surface.getId s1 = auto_id g
    /\ Surface.getId s2 = auto_id g
    /\ Surface.getUid s1 <> Surface.getUid s2.
Proof.
  intros Hid Hn.
  destruct (Surface_any (auto_id g) name1 g) as (s1 & Hs1 & Hid1 & Huid1).
  destruct (decide (auto_id g = 0%Z)) as [E | _]; [contradiction |].
  set (g1 := Globals (auto_id g) (wrap32 (Surface_n g + 1))) in *.
  destruct (Surface_any 0 name2 g1) as (s2 & Hs2 & Hid2 & Huid2).
  destruct (decide (0%Z = 0%Z)) as [_ | E]; [| contradiction].
  exists s1, s2. eexists. unfold bind at 1. rewrite Hs1.
  unfold bind at 1. rewrite Hs2. split; [reflexivity |].
  split; [exact Hid1 |]. split; [exact Hid2 |].
  rewrite Huid1, Huid2. cbn [g1 Surface_n].
  rewrite wrap32_in_range by (unfold INT_MIN, INT_MAX in *; lia). lia.
Qed.

Lemma user_id_at_counter_is_reused_witness :
  auto_id initial_globals <> 0%Z
  /\ (INT_MIN <= Surface_n initial_globals < INT_MAX)%Z
  /\ exists s1 s2 g',
       (s1 <- Surface.Surface 10000 "mine" ;;
        s2 <- Surface.Surface 0 "auto" ;;
        ret (s1, s2))%cpp initial_globals = Returned (s1, s2) g'
       /\ Surface.getId s1 = 10000%Z
       /\ Surface.getId s2 = 10000%Z
       /\ Surface.getUid s1 <> Surface.getUid s2.
Proof.
  assert (H1 : auto_id initial_globals <> 0%Z) by (cbn; lia).
  assert (H2 : (INT_MIN <= Surface_n initial_globals < INT_MAX)%Z)
    by (cbn; unfold INT_MIN, INT_MAX; lia).
  split; [exact H1 |]. split; [exact H2 |].
  exact (user_id_at_counter_is_reused "mine" "auto" initial_globals H1 H2).
Defined.

(** The number of requests that draw an id from the counter. *)
Lemma auto_assigned_cons (id : Z) (name : string) (requests : list (Z * string))
    (s : Surface.t) (ss : list Surface.t) :
  auto_assigned ((id, name) :: requests) (s :: ss)
  = if decide (id = 0%Z)
    then Surface.getId s :: auto_assigned requests ss
    else auto_assigned requests ss.
Proof.
  unfold auto_assigned. cbn [zip zip_with omap list_omap fst snd].
  destruct (decide (id = 0%Z)); reflexivity.
Qed.

Lemma construct_ids (requests : list (Z * string)) :
  forall g : globals,
    (INT_MIN <= auto_id g <= INT_MAX)%Z ->
    (auto_id g + Z.of_nat (length (filter (fun r => fst r = 0%Z) requests))
     <= INT_MAX + 1)%Z ->
    exists ss g',
      construct requests g = Returned ss g'
      /\ length ss = length requests
      /\ (forall i id name s,
            requests !! i = Some (id, name) -> ss !! i = Some s ->
            id <> 0%Z -> Surface.getId s = id)
      /\ auto_assigned requests ss
         = seqZ (auto_id g)
             (Z.of_nat (length (filter (fun r => fst r = 0%Z) requests))).
Proof.
  induction requests as [| [id name] requests IH]; intros g Hlo Hhi.
  - exists [], g. cbn. repeat split. intros i id name s H. inversion H.
  - destruct (Surface_any id name g) as (s & Hs & Hid & _).
    set (g1 := Globals (if decide (id = 0%Z) then wrap32 (auto_id g + 1)
                        else auto_id g) (wrap32 (Surface_n g + 1))) in *.
    set (k := length (filter (fun r => fst r = 0%Z) requests)) in *.
    assert (Hfilter : length (filter (fun r => fst r = 0%Z) ((id, name) :: requests))
                      = if decide (id = 0%Z) then S k else k).
    { rewrite filter_cons. cbn [fst].
      destruct (decide (id = 0%Z)); reflexivity. }
    rewrite Hfilter in Hhi.
    assert (Hg1 : (INT_MIN <= auto_id g1 <= INT_MAX)%Z
                  /\ (k <> 0%nat -> auto_id g1
                        = if decide (id = 0%Z) then (auto_id g + 1)%Z else auto_id g)).
    { cbn [g1 auto_id]. destruct (decide (id = 0%Z)).
      - split.
        + unfold wrap32, INT_MIN, INT_MAX.
          pose proof (Z.mod_pos_bound (auto_id g + 1 + 2 ^ 31) (2 ^ 32) ltac:(lia)).
          lia.
        + intros Hk. apply wrap32_in_range.
          rewrite Nat2Z.inj_succ in Hhi. unfold INT_MIN, INT_MAX in *. lia.
      - split; [exact Hlo | reflexivity]. }
    destruct Hg1 as [Hrange Hnext].
    destruct (IH g1 Hrange) as (ss & g' & Hrun & Hlen & Huser & Hauto).
    { fold k. destruct (Nat.eq_dec k 0) as [Hk | Hk].
      - rewrite Hk. change (Z.of_nat 0) with 0%Z. lia.
      - rewrite (Hnext Hk). destruct (decide (id = 0%Z)); lia. }
    exists (s :: ss), g'. cbn [construct fst snd].
    unfold bind at 1. rewrite Hs. fold g1.
    unfold bind at 1. rewrite Hrun.
    split; [reflexivity |]. split; [cbn; lia |]. split.
    + intros i id0 name0 s0 Hi Hsi Hne. destruct i as [| i].
      * cbn in Hi, Hsi. injection Hi as <- <-. injection Hsi as <-.
        rewrite Hid. destruct (decide (id = 0%Z)); [contradiction | reflexivity].
      * cbn in Hi, Hsi. exact (Huser i id0 name0 s0 Hi Hsi Hne).
    + rewrite auto_assigned_cons, Hauto, Hfilter. fold k.
      destruct (decide (id = 0%Z)) as [E | E].
      * rewrite Hid.
        rewrite (seqZ_cons (auto_id g)) by lia.
        f_equal. destruct (Nat.eq_dec k 0) as [Hk | Hk].
        { rewrite Hk. cbn. rewrite !seqZ_nil by lia. reflexivity. }
        { rewrite (Hnext Hk). f_equal; lia. }
      * destruct (Nat.eq_dec k 0) as [Hk | Hk].
        { rewrite Hk. rewrite !seqZ_nil by (cbn; lia). reflexivity. }
        { rewrite (Hnext Hk). reflexivity. }
Qed.

(** X3: constructions with user ids do not draw from the counter.  In any
    run of constructions after [reset_surf_id()], each Surface constructed
    with a nonzero id carries that id, and the Surfaces constructed with id
    0 carry 10000, 10001, ... in the order of construction, however the two
    kinds are interleaved (as long as the counter stays within [int]). *)
Theorem auto_ids_skip_user_constructions (requests : list (Z * string))
    (g : globals) :
  (Z.of_nat (length (filter (fun r => fst r = 0%Z) requests))
   <= 2 ^ 31 - 10000)%Z ->
  exists ss g',
    (reset_surf_id ;;; construct requests)%cpp g = Returned ss g'
    /\ length ss = length requests
    /\ (forall i id name s,
          requests !! i = Some (id, name) -> ss !! i = Some s ->
          id <> 0%Z -> Surface.getId s = id)
    /\ auto_assigned requests ss
       = seqZ 10000 (Z.of_nat (length (filter (fun r => fst r = 0%Z) requests))).
Proof.
  intros Hn. unfold bind at 1. cbn [reset_surf_id].
  apply (construct_ids requests (Globals 10000 (Surface_n g))).
  - cbn. unfold INT_MIN, INT_MAX. lia.
  - cbn [auto_id]. unfold INT_MAX. lia.
Qed.

Lemma auto_ids_skip_user_constructions_witness :
  (Z.of_nat (length (filter (fun r : Z * string => fst r = 0%Z)
                       [(0%Z, "a"%string); (42%Z, "b"%string); (0%Z, "c"%string)]))
   <= 2 ^ 31 - 10000)%Z
  /\ exists ss g',
       (reset_surf_id ;;;
        construct [(0%Z, "a"%string); (42%Z, "b"%string); (0%Z, "c"%string)])%cpp
         (Globals 12345 6) = Returned ss g'
       /\ length ss = 3%nat
       /\ auto_assigned
            [(0%Z, "a"%string); (42%Z, "b"%string); (0%Z, "c"%string)] ss
          = [10000%Z; 10001%Z].
Proof.
  assert (H : (Z.of_nat (length (filter (fun r : Z * string => fst r = 0%Z)
                 [(0%Z, "a"%string); (42%Z, "b"%string); (0%Z, "c"%string)]))
               <= 2 ^ 31 - 10000)%Z) by (vm_compute; discriminate).
  split; [exact H |].
  destruct (auto_ids_skip_user_constructions
              [(0%Z, "a"%string); (42%Z, "b"%string); (0%Z, "c"%string)]
              (Globals 12345 6) H) as (ss & g' & Hrun & Hlen & _ & Hauto).
  exists ss, g'. split; [exact Hrun |]. split; [exact Hlen |].
  rewrite Hauto. reflexivity.
Defined.

(** ** [Surface::setName]: the copy loop *)

Lemma strlen_bound (name : list ascii) :
  forall n, strlen name = Some n -> (n < length name)%nat.
Proof.
  induction name as [| c name IH]; intros n H; cbn in H; [discriminate |].
  destruct (Ascii.eqb c Ascii.zero).
  - injection H as <-. cbn. lia.
  - destruct (strlen name) as [m |]; cbn in H; [| discriminate].
    injection H as <-. specialize (IH m eq_refl). cbn. lia.
Qed.

Lemma strlen_take (name : list ascii) :
  forall n, strlen name = Some n -> strlen (take (S n) name) = Some n.
Proof.
  induction name as [| c name IH]; intros n H; cbn in H; [discriminate |].
  cbn [take strlen]. destruct (Ascii.eqb c Ascii.zero).
  - injection H as <-. reflexivity.
  - destruct (strlen name) as [m |]; cbn in H; [| discriminate].
    injection H as <-. rewrite (IH m eq_refl). reflexivity.
Qed.

Lemma take_take_S (name : list ascii) (n : nat) :
  take n (take (S n) name) = take n name.
Proof. rewrite take_take. f_equal. lia. Qed.

(** The loop from [start] over [k] indices copies exactly these cells. *)
Lemma copy_loop (name : list ascii) (k : nat) :
  forall (start : nat) (arr : list ascii),
    (start + k <= length arr)%nat ->
    (start + k <= length name)%nat ->
    exists arr',
      for_each (seq start k) (copy_char name) arr = Returned tt arr'
      /\ length arr' = length arr
      /\ (forall i, (start <= i < start + k)%nat -> arr' !! i = name !! i)
      /\ (forall i, (i < start \/ start + k <= i)%nat -> arr' !! i = arr !! i).
Proof.
  induction k as [| k IH]; intros start arr Harr Hname.
  - exists arr. cbn. split; [reflexivity |]. split; [reflexivity |].
    split; [intros i Hi; lia | intros i _; reflexivity].
  - cbn [seq for_each]. unfold bind at 1. unfold copy_char at 1.
    destruct (lookup_lt_is_Some_2 name start ltac:(lia)) as [c Hc].
    rewrite Hc. destruct (decide (start < length arr)%nat) as [_ | Hn]; [| lia].
    destruct (IH (S start) (<[start := c]> arr)) as (arr' & Hrun & Hlen & Hin & Hout).
    { rewrite length_insert. lia. }
    { lia. }
    exists arr'. split; [exact Hrun |].
    rewrite length_insert in Hlen. split; [exact Hlen |]. split.
    + intros i Hi. destruct (decide (i = start)) as [-> | Hne].
      * rewrite Hout by lia. rewrite list_lookup_insert_eq by lia.
        symmetry. exact Hc.
      * apply Hin. lia.
    + intros i Hi. rewrite Hout by lia.
      apply list_lookup_insert_ne. lia.
Qed.

(** X4: [setName] copies the name through its terminating NUL.  For a
    NUL-terminated argument shorter than [INT_MAX], whatever the fresh array
    holds, the array [_name] ends up as the first [strlen(name) + 1]
    characters of the argument: it has the same [strlen] and holds the same
    string, and nothing after the NUL is copied. *)
Theorem setName_copies_through_NUL (name : list ascii) (fresh : nat -> list ascii)
    (old : list ascii) (n : nat) :
  (forall k, length (fresh k) = k) ->
  strlen name = Some n ->
  (Z.of_nat n < INT_MAX)%Z ->
  exists _name,
    setName_chars name fresh old = Returned tt _name
    /\ _name = take (S n) name
    /\ strlen _name = Some n
    /\ string_of_chars _name = string_of_chars name.
Proof.
  intros Hfresh Hlen Hn. unfold setName_chars. rewrite Hlen.
  pose proof (strlen_bound name n Hlen) as Hbound.
  rewrite wrap32_in_range by (unfold INT_MIN, INT_MAX in *; lia).
  destruct (decide (Z.of_nat n = INT_MAX)) as [E | _]; [lia |].
  destruct (decide (Z.of_nat n + 1 < 0)%Z) as [E | _]; [lia |].
  replace (Z.to_nat (Z.of_nat n + 1)) with (S n) by lia.
  destruct (copy_loop name (S n) 0 (fresh (S n))) as (arr & Hrun & Hl & Hin & _).
  { rewrite Hfresh. lia. }
  { lia. }
  rewrite Hfresh in Hl.
  assert (Harr : arr = take (S n) name).
  { apply list_eq. intros i. destruct (decide (i < S n)%nat) as [Hi | Hi].
    - rewrite lookup_take_lt by lia. apply Hin. lia.
    - rewrite lookup_take_ge by lia. apply lookup_ge_None_2. lia. }
  exists arr. split; [exact Hrun |]. split; [exact Harr |].
  subst arr. split; [exact (strlen_take name n Hlen) |].
  unfold string_of_chars. rewrite (strlen_take name n Hlen), Hlen. cbn.
  rewrite take_take_S. reflexivity.
Qed.

Lemma setName_copies_through_NUL_witness :
  exists _name,
    setName_chars
      (list_ascii_of_string "core" ++ [Ascii.zero] ++ list_ascii_of_string "junk")
      (fun k => replicate k "?"%char) [] = Returned tt _name
    /\ _name = list_ascii_of_string "core" ++ [Ascii.zero]
    /\ string_of_chars _name = Some "core"%string.
Proof.
  destruct (setName_copies_through_NUL
              (list_ascii_of_string "core" ++ [Ascii.zero]
                 ++ list_ascii_of_string "junk")
              (fun k => replicate k "?"%char) [] 4)
    as (arr & Hrun & Harr & _ & Hstr).
  - intros k. apply length_replicate.
  - reflexivity.
  - unfold INT_MAX. lia.
  - exists arr. split; [exact Hrun |]. split; [exact Harr |].
    rewrite Hstr. reflexivity.
Defined.

(** X5: [setName] on an array with no NUL goes wrong: [strlen] runs off the
    array, whatever the array holds otherwise and whatever [_name] was. *)
Theorem setName_without_NUL_goes_wrong (name : list ascii)
    (fresh : nat -> list ascii) (old : list ascii) :
  Forall (fun c => c <> Ascii.zero) name ->
  setName_chars name fresh old = Undefined.
Proof.
  intros H. unfold setName_chars.
  assert (E : strlen name = None).
  { induction H as [| c name Hc _ IH]; [reflexivity |].
    cbn. destruct (Ascii.eqb_spec c Ascii.zero) as [-> | _]; [contradiction |].
    rewrite IH. reflexivity. }
  rewrite E. reflexivity.
Qed.

Lemma setName_without_NUL_goes_wrong_witness :
  setName_chars (list_ascii_of_string "core") (fun k => replicate k "?"%char) []
  = Undefined.
Proof.
  apply setName_without_NUL_goes_wrong.
  repeat constructor; discriminate.
Defined.

(** ** Axis-aligned planes: setters and extents *)

Local Open Scope R_scope.

Lemma Plane_constructed (A B C D : R) (id : Z) (name : string) (g : globals) :
  exists s g',
    Plane.Plane A B C D id name g = Returned (Plane.mk s A B C D) g'.
Proof.
  destruct (Surface_any id name g) as (s & Hs & _).
  eexists _, _. unfold Plane.Plane, bind. rewrite Hs. reflexivity.
Qed.

Lemma set_position_consistent (v : R) (s : surface) :
  axis_consistent s ->
  axis_consistent (set_position v s)
  /\ (Plane.base <$> plane_of (set_position v s)) = (Plane.base <$> plane_of s)
  /\ (position s <> None -> position (set_position v s) = Some v).
Proof.
  destruct s as [p | s | s | s | c]; cbn; intros H;
    try (destruct H as (HA & HB & HC & _));
    repeat split; try assumption; try reflexivity; intros E; congruence.
Qed.

(** X6: the coefficients of an axis-aligned plane follow its position.  The
    constructors of XPlane, YPlane and ZPlane store (1, 0, 0, -x),
    (0, 1, 0, -y) and (0, 0, 1, -z) beside the position, and [setX], [setY]
    and [setZ] keep the two in step: after any sequence of moves the object
    reports the last position, its D is the negation of it, and the base
    Surface (id, uid, name, neighbours) is the one constructed. *)
Theorem axis_planes_stay_consistent (default_name : string) (v : R) (id : Z)
    (name : string) (g : globals) (moves : list R) :
  exists sx sy sz gx gy gz,
    XPlane.XPlane default_name v id name g = Returned sx gx
    /\ YPlane.YPlane default_name v id name g = Returned sy gy
    /\ ZPlane.ZPlane v id name g = Returned sz gz
    /\ Forall (fun s =>
                 let s' := foldl (fun s v => set_position v s) s moves in
                 axis_consistent s'
                 /\ (Plane.base <$> plane_of s') = (Plane.base <$> plane_of s)
                 /\ position s' = Some (default v (last moves)))
         [AnXPlane sx; AYPlane sy; AZPlane sz].
Proof.
  assert (Hmoves : forall s,
             axis_consistent s -> position s = Some v ->
             let s' := foldl (fun s v => set_position v s) s moves in
             axis_consistent s'
             /\ (Plane.base <$> plane_of s') = (Plane.base <$> plane_of s)
             /\ position s' = Some (default v (last moves))).
  { induction moves as [| v' moves IH] using rev_ind; intros s Hs Hpos; cbv zeta.
    - cbn. auto.
    - rewrite foldl_snoc, last_snoc. cbn [default].
      destruct (IH s Hs Hpos) as (Hc & Hb & Hp).
      destruct (set_position_consistent v'
                  (foldl (fun s v => set_position v s) s moves) Hc)
        as (Hc' & Hb' & Hp').
      split; [exact Hc' |]. split; [rewrite Hb'; exact Hb |].
      apply Hp'. rewrite Hp. discriminate. }
  destruct (Plane_constructed 1 0 0 (- v) id default_name g) as (bx & gx & Hx).
  destruct (Plane_constructed 0 1 0 (- v) id default_name g) as (by_ & gy & Hy).
  destruct (Plane_constructed 0 0 1 (- v) id name g) as (bz & gz & Hz).
  eexists _, _, _, gx, gy, gz.
  unfold XPlane.XPlane, YPlane.YPlane, ZPlane.ZPlane, bind.
  rewrite Hx, Hy, Hz. cbn [ret].
  split; [reflexivity |]. split; [reflexivity |]. split; [reflexivity |].
  repeat constructor; apply Hmoves; cbn; auto.
Qed.

(** X7: a moved plane intersects at its new position.  After [setX],
    [setY] or [setZ] with the value v on an axis-aligned plane whose
    coefficients fit its class, [Plane::intersection] (which the subclasses
    inherit) says parallel when the direction cosine m along the plane's
    axis is below 1e-10 in size, and otherwise counts the crossing exactly
    when (v - c0) / m > 0, c0 being the origin's coordinate on the axis:
    nothing of the old position is left. *)
Theorem moved_plane_intersects_at_new_position (s : surface) (v : R)
    (p' : Plane.t) (point : Point) (azim polar m c0 : R)
    (p0 : Point) (rest : list Point) :
  axis_consistent s ->
  plane_of (set_position v s) = Some p' ->
  axis_cosine s azim polar = Some m ->
  axis_coordinate s point = Some c0 ->
  axis_plane_behaviour p' point azim polar (p0 :: rest) m (v - c0).
Proof.
  intros Hs Hp Hm Hc.
  destruct s as [p | s | s | s | c]; cbn in Hs, Hp, Hm, Hc; try discriminate;
    destruct Hs as (HA & HB & HC & _);
    injection Hp as <-; injection Hm as <-; injection Hc as <-;
    unfold Plane.set_D; rewrite HA, HB, HC.
  - apply x_plane_behaviour.
  - apply y_plane_behaviour.
  - apply z_plane_behaviour.
Qed.

Lemma moved_plane_intersects_at_new_position_witness :
  axis_plane_behaviour
    (Plane.set_D (- 5) Sample.plane_x1) Sample.origin 0 (PI / 2)
    [Sample.origin] (Plane.mx 0 (PI / 2)) (5 - 0).
Proof.
  apply (moved_plane_intersects_at_new_position
           (AnXPlane (XPlane.mk Sample.plane_x1 1)) 5
           (Plane.set_D (- 5) Sample.plane_x1) Sample.origin 0 (PI / 2)
           (Plane.mx 0 (PI / 2)) 0 Sample.origin []).
  - cbn. repeat split; reflexivity.
  - reflexivity.
  - reflexivity.
  - reflexivity.
Defined.

(** The four cases of a halfspace argument against +1 and -1. *)
Ltac halfspace_cases halfspace :=
  let E1 := fresh "E1" in
  let E2 := fresh "E2" in
  let Hext := fresh "Hext" in
  let Hh := fresh "Hh" in
  let Ha := fresh "Ha" in
  let Hb := fresh "Hb" in
  destruct (decide (halfspace = 1%Z)) as [E1 | E1];
  destruct (decide (halfspace = (-1)%Z)) as [E2 | E2];
  try lia; cbn [xle];
  (split;
   [ intros Hext; decompose [and] Hext; split; intros Hh; first [lia | lra]
   | intros [Ha Hb]; try specialize (Ha E1); try specialize (Hb E2);
     repeat split; first [exact I | lra] ]).

(** X8: the extents of an axis-aligned plane are its closed halfspace.  For
    an XPlane, YPlane or ZPlane whose coefficients fit its position, a point
    lies within the six extents of halfspace +1 exactly when the left side
    of the plane equation is >= 0 there, within those of halfspace -1
    exactly when it is <= 0, and any other halfspace value bounds nothing
    (it is not rejected).  A general Plane bounds nothing for any
    halfspace. *)
Theorem axis_plane_extents_are_the_closed_halfspace (s : surface) (p : Plane.t)
    (halfspace : Z) (point : Point) :
  axis_consistent s ->
  plane_of s = Some p ->
  (position s = None -> in_extents s halfspace point)
  /\ (position s <> None ->
      (in_extents s halfspace point
       <-> (halfspace = 1%Z -> 0 <= plane_side p point)
           /\ (halfspace = (-1)%Z -> plane_side p point <= 0))).
Proof.
  intros Hs Hp.
  destruct s as [q | s | s | s | c]; cbn in Hs, Hp; try discriminate;
    injection Hp as <-.
  - split; [| intros H; cbn in H; congruence].
    intros _. unfold in_extents. cbn. tauto.
  - destruct Hs as (HA & HB & HC & HD).
    split; [intros H; cbn in H; discriminate |]. intros _.
    unfold in_extents, plane_side. rewrite HA, HB, HC, HD.
    cbn [getMinX getMaxX getMinY getMaxY getMinZ getMaxZ
         Plane.getMinX Plane.getMaxX Plane.getMinY Plane.getMaxY
         Plane.getMinZ Plane.getMaxZ].
    unfold XPlane.getMinX, XPlane.getMaxX. halfspace_cases halfspace.
  - destruct Hs as (HA & HB & HC & HD).
    split; [intros H; cbn in H; discriminate |]. intros _.
    unfold in_extents, plane_side. rewrite HA, HB, HC, HD.
    cbn [getMinX getMaxX getMinY getMaxY getMinZ getMaxZ
         Plane.getMinX Plane.getMaxX Plane.getMinY Plane.getMaxY
         Plane.getMinZ Plane.getMaxZ].
    unfold YPlane.getMinY, YPlane.getMaxY. halfspace_cases halfspace.
  - destruct Hs as (HA & HB & HC & HD).
    split; [intros H; cbn in H; discriminate |]. intros _.
    unfold in_extents, plane_side. rewrite HA, HB, HC, HD.
    cbn [getMinX getMaxX getMinY getMaxY getMinZ getMaxZ
         Plane.getMinX Plane.getMaxX Plane.getMinY Plane.getMaxY
         Plane.getMinZ Plane.getMaxZ].
    unfold ZPlane.getMinZ, ZPlane.getMaxZ. halfspace_cases halfspace.
Qed.

Lemma axis_plane_extents_are_the_closed_halfspace_witness :
  in_extents (AnXPlane (XPlane.mk Sample.plane_x1 1)) 1 (mkPoint 2 0 0)
  <-> (1%Z = 1%Z -> 0 <= plane_side Sample.plane_x1 (mkPoint 2 0 0))
      /\ (1%Z = (-1)%Z -> plane_side Sample.plane_x1 (mkPoint 2 0 0) <= 0).
Proof.
  apply (axis_plane_extents_are_the_closed_halfspace
           (AnXPlane (XPlane.mk Sample.plane_x1 1)) Sample.plane_x1 1
           (mkPoint 2 0 0)).
  - cbn. repeat split; reflexivity.
  - reflexivity.
  - cbn. discriminate.
Defined.

(** ** The extents of a ZCylinder *)

(** X9: the extents of a ZCylinder.  For the cylinder the constructor
    builds from (xc, yc, radius): the stored coefficients make
    A x^2 + B y^2 + C x + D y + E the squared distance from the axis minus
    radius^2; with radius >= 0 every point on or inside the cylinder lies
    within the extents of halfspace -1; any other halfspace value bounds
    nothing; and a negative radius, which the constructor accepts, gives
    extents of halfspace -1 that hold no point at all. *)
Theorem cylinder_extents_bound_the_inside (xc yc radius : R) (id : Z)
    (name : string) (g : globals) :
  exists c g',
    ZCylinder.ZCylinder xc yc radius id name g = Returned c g'
    /\ ZCylinder.getX0 c = xc /\ ZCylinder.getY0 c = yc
    /\ (forall x y,
          ZCylinder._A c * x * x + ZCylinder._B c * y * y
          + ZCylinder._C c * x + ZCylinder._D c * y + ZCylinder._E c
          = (x - xc) * (x - xc) + (y - yc) * (y - yc) - radius * radius)
    /\ (forall point,
          0 <= radius ->
          (getX point - xc) * (getX point - xc)
          + (getY point - yc) * (getY point - yc) <= radius * radius ->
          in_extents (AZCylinder c) (-1) point)
    /\ (forall halfspace point,
          halfspace <> (-1)%Z -> in_extents (AZCylinder c) halfspace point)
    /\ (forall point,
          radius < 0 -> ~ in_extents (AZCylinder c) (-1) point).
Proof.
  destruct (ZCylinder_constructed xc yc radius id name g) as (s & g' & Hc).
  eexists _, g'. split; [exact Hc |].
  split; [reflexivity |]. split; [reflexivity |].
  split; [intros x y; cbn; ring |].
  unfold in_extents.
  cbn [getMinX getMaxX getMinY getMaxY getMinZ getMaxZ].
  unfold ZCylinder.getMinX, ZCylinder.getMaxX, ZCylinder.getMinY,
    ZCylinder.getMaxY, ZCylinder.getMinZ, ZCylinder.getMaxZ.
  cbn [ZCylinder._center ZCylinder._radius getX getY].
  split; [| split].
  - intros point Hr Hin.
    destruct (decide ((-1)%Z = (-1)%Z)) as [_ | E]; [| contradiction].
    cbn [xle].
    set (dx := getX point - xc) in *. set (dy := getY point - yc) in *.
    assert (Hx : dx * dx <= radius * radius) by nra.
    assert (Hy : dy * dy <= radius * radius) by nra.
    assert (Hdx : - radius <= dx <= radius) by (split; nra).
    assert (Hdy : - radius <= dy <= radius) by (split; nra).
    unfold dx, dy in *. repeat split; try exact I; lra.
  - intros halfspace point Hh.
    destruct (decide (halfspace = (-1)%Z)) as [E | _]; [contradiction |].
    cbn [xle]. repeat split.
  - intros point Hr.
    destruct (decide ((-1)%Z = (-1)%Z)) as [_ | E]; [| contradiction].
    cbn [xle]. intros (H1 & H2 & _). lra.
Qed.

(** ** [Plane::intersection]: what is stored and what is missed *)

Lemma direction_unit (azim polar : R) :
  Plane.mx azim polar * Plane.mx azim polar
  + Plane.my azim polar * Plane.my azim polar
  + Plane.mz polar * Plane.mz polar = 1.
Proof.
  unfold Plane.mx, Plane.my, Plane.mz.
  pose proof (sin2_cos2 azim) as Ha. pose proof (sin2_cos2 polar) as Hp.
  unfold Rsqr in Ha, Hp. nra.
Qed.

(** The plane equation along a ray is affine in the parameter. *)
Lemma plane_side_ray (p : Plane.t) (point : Point) (azim polar l : R) :
  plane_side p (ray_point point azim polar l)
  = plane_side p point
    + l * (Plane._A p * Plane.mx azim polar + Plane._B p * Plane.my azim polar
           + Plane._C p * Plane.mz polar).
Proof. unfold plane_side, ray_point. cbn [getX getY getZ]. ring. Qed.

(** X10: the point [Plane::intersection] stores is the crossing point.
    Outside the parallel case and with a nonzero denominator, the Point
    stored in [points[0]] is the point of the line through the origin of
    the ray at the parameter l; it satisfies the plane equation, it is the
    only point of the line that does, it lies at distance |l| from the
    origin of the ray (the direction is a unit vector), and the value
    returned is 1 exactly when l > 0. *)
Theorem plane_hit_is_the_crossing_point (p : Plane.t) (point : Point)
    (azim polar : R) (p0 : Point) (rest : list Point) :
  Plane.parallel p azim polar = false ->
  Plane._A p * Plane.mx azim polar + Plane._B p * Plane.my azim polar
  + Plane._C p * Plane.mz polar <> 0 ->
  let l := Plane.distance p point azim polar in
  exists num hit,
    Plane.intersection p point azim polar (p0 :: rest)
    = Returned num (hit :: rest)
    /\ hit = ray_point point azim polar l
    /\ plane_side p hit = 0
    /\ (forall l', plane_side p (ray_point point azim polar l') = 0 -> l' = l)
    /\ (getX hit - getX point) * (getX hit - getX point)
       + (getY hit - getY point) * (getY hit - getY point)
       + (getZ hit - getZ point) * (getZ hit - getZ point) = l * l
    /\ (num = 1%Z <-> 0 < l)
    /\ (num = 0%Z <-> l <= 0).
Proof.
  intros Hpar Hden l.
  pose proof (plane_intersection_crossing p point azim polar p0 rest Hpar) as H.
  cbv zeta in H. fold l in H.
  assert (Hl : plane_side p point
               + l * (Plane._A p * Plane.mx azim polar
                      + Plane._B p * Plane.my azim polar
                      + Plane._C p * Plane.mz polar) = 0).
  { unfold l, Plane.distance, plane_side. field. exact Hden. }
  eexists _, _. split; [exact H |].
  split; [reflexivity |].
  split; [change (setCoords ?x ?y ?z) with (mkPoint x y z);
          fold (ray_point point azim polar l);
          rewrite plane_side_ray; exact Hl |].
  split.
  { intros l' Hl'. rewrite plane_side_ray in Hl'.
    assert (E : (l' - l) * (Plane._A p * Plane.mx azim polar
                            + Plane._B p * Plane.my azim polar
                            + Plane._C p * Plane.mz polar) = 0) by lra.
    apply Rmult_integral in E as [E | E]; [lra | contradiction]. }
  split.
  { cbn [setCoords getX getY getZ].
    pose proof (direction_unit azim polar) as Hu.
    replace (getX point + l * Plane.mx azim polar - getX point)
      with (l * Plane.mx azim polar) by ring.
    replace (getY point + l * Plane.my azim polar - getY point)
      with (l * Plane.my azim polar) by ring.
    replace (getZ point + l * Plane.mz polar - getZ point)
      with (l * Plane.mz polar) by ring.
    replace (l * Plane.mx azim polar * (l * Plane.mx azim polar)
             + l * Plane.my azim polar * (l * Plane.my azim polar)
             + l * Plane.mz polar * (l * Plane.mz polar))
      with (l * l * (Plane.mx azim polar * Plane.mx azim polar
                     + Plane.my azim polar * Plane.my azim polar
                     + Plane.mz polar * Plane.mz polar)) by ring.
    rewrite Hu. ring. }
  destruct (Rlt_le_dec 0 l) as [Hpos | Hneg].
  - rewrite Rgtb_true by exact Hpos. split; split; intros; try lra; try lia;
      reflexivity.
  - rewrite Rgtb_false by exact Hneg. split; split; intros; try lra; try lia;
      reflexivity.
Qed.

Lemma direction_east_cosines :
  Plane.mx 0 (PI / 2) = 1 /\ Plane.my 0 (PI / 2) = 0 /\ Plane.mz (PI / 2) = 0.
Proof.
  unfold Plane.mx, Plane.my, Plane.mz.
  rewrite sin_PI2, cos_PI2, sin_0, cos_0. repeat split; ring.
Qed.

Lemma plane_hit_is_the_crossing_point_witness :
  exists num hit,
    Plane.intersection Sample.plane_x1 Sample.origin 0 (PI / 2) [Sample.origin]
    = Returned num [hit]
    /\ plane_side Sample.plane_x1 hit = 0.
Proof.
  destruct direction_east_cosines as (Hx & Hy & Hz).
  destruct (plane_hit_is_the_crossing_point Sample.plane_x1 Sample.origin
              0 (PI / 2) Sample.origin [])
    as (num & hit & Hrun & _ & Hside & _).
  - apply sample_plane_not_parallel_east.
  - rewrite Hx, Hy, Hz. cbn. lra.
  - exists num, hit. split; [exact Hrun | exact Hside].
Defined.

(** The test of [Plane::intersection] takes the ray due east for parallel
    to the plane x + y = 1. *)
Lemma sample_diagonal_parallel_east :
  Plane.parallel Sample.plane_diagonal 0 (PI / 2) = true.
Proof.
  destruct direction_east_cosines as (Hx & Hy & Hz).
  unfold Plane.parallel. rewrite Hx, Hy, Hz.
  cbn [Sample.plane_diagonal Plane._A Plane._B Plane._C].
  rewrite (Rltb_true (Rabs 0)) by apply Rabs_lt_tiny_0.
  rewrite Rgtb_abs_1, Rgtb_abs_0.
  destruct (Rltb (Rabs 1) 1e-10); reflexivity.
Qed.

(** X11: the parallel test turns away rays that cross the plane.  When one
    direction cosine is below 1e-10 in size and the plane's coefficient on
    that axis is above 1e-10 in size, [Plane::intersection] returns 0 and
    leaves the buffer alone, also when the ray is not parallel to the plane
    and meets it ahead of its origin: the point at the parameter l > 0 is
    on the plane and is not reported. *)
Theorem parallel_test_rejects_crossing_rays (p : Plane.t) (point : Point)
    (azim polar : R) (points : list Point) :
  Plane.parallel p azim polar = true ->
  Plane._A p * Plane.mx azim polar + Plane._B p * Plane.my azim polar
  + Plane._C p * Plane.mz polar <> 0 ->
  0 < Plane.distance p point azim polar ->
  let l := Plane.distance p point azim polar in
  Plane.intersection p point azim polar points = Returned 0%Z points
  /\ plane_side p (ray_point point azim polar l) = 0
  /\ 0 < l.
Proof.
  intros Hpar Hden Hpos l.
  split; [apply plane_intersection_parallel, Hpar |].
  split; [| exact Hpos].
  rewrite plane_side_ray. unfold l, Plane.distance, plane_side.
  field. exact Hden.
Qed.

Lemma sample_diagonal_distance_east :
  Plane.distance Sample.plane_diagonal Sample.origin 0 (PI / 2) = 1.
Proof.
  destruct direction_east_cosines as (Hx & Hy & Hz).
  unfold Plane.distance. rewrite Hx, Hy, Hz. cbn. field.
Qed.

Lemma parallel_test_rejects_crossing_rays_witness :
  Plane.intersection Sample.plane_diagonal Sample.origin 0 (PI / 2)
    [Sample.origin] = Returned 0%Z [Sample.origin]
  /\ plane_side Sample.plane_diagonal
       (ray_point Sample.origin 0 (PI / 2)
          (Plane.distance Sample.plane_diagonal Sample.origin 0 (PI / 2))) = 0
  /\ 0 < Plane.distance Sample.plane_diagonal Sample.origin 0 (PI / 2).
Proof.
  destruct direction_east_cosines as (Hx & Hy & Hz).
  apply (parallel_test_rejects_crossing_rays Sample.plane_diagonal
           Sample.origin 0 (PI / 2) [Sample.origin]).
  - apply sample_diagonal_parallel_east.
  - rewrite Hx, Hy, Hz. cbn. lra.
  - rewrite sample_diagonal_distance_east. lra.
Defined.

(** X12: the parallel test lets parallel rays through.  For a direction
    whose x and y cosines are both at least 1e-10 in size, the plane with
    the coefficients (my, -mx, 0, D) contains the direction: the
    denominator of l is 0 and, from an origin off the plane, no point of
    the line is on the plane.  The test does not fire on it, so
    [Plane::intersection] goes on to divide by that denominator and
    overwrites [points[0]]. *)
Theorem parallel_test_misses_parallel_rays (s : Surface.t) (D : R)
    (point : Point) (azim polar : R) (p0 : Point) (rest : list Point) :
  1e-10 <= Rabs (Plane.mx azim polar) ->
  1e-10 <= Rabs (Plane.my azim polar) ->
  let p := Plane.mk s (Plane.my azim polar) (- Plane.mx azim polar) 0 D in
  Plane.parallel p azim polar = false
  /\ Plane._A p * Plane.mx azim polar + Plane._B p * Plane.my azim polar
     + Plane._C p * Plane.mz polar = 0
  /\ (plane_side p point <> 0 ->
      forall l, plane_side p (ray_point point azim polar l) <> 0)
  /\ exists num hit,
       Plane.intersection p point azim polar (p0 :: rest)
       = Returned num (hit :: rest).
Proof.
  intros Hmx Hmy p.
  assert (Hpar : Plane.parallel p azim polar = false).
  { unfold Plane.parallel. cbn [p Plane._A Plane._B Plane._C].
    rewrite (Rltb_false (Rabs (Plane.mx azim polar))) by exact Hmx.
    rewrite (Rltb_false (Rabs (Plane.my azim polar))) by exact Hmy.
    rewrite Rgtb_abs_0, andb_false_r. reflexivity. }
  assert (Hden : Plane._A p * Plane.mx azim polar
                 + Plane._B p * Plane.my azim polar
                 + Plane._C p * Plane.mz polar = 0).
  { cbn [p Plane._A Plane._B Plane._C]. ring. }
  split; [exact Hpar |]. split; [exact Hden |]. split.
  - intros Hoff l. rewrite plane_side_ray, Hden. lra.
  - pose proof (plane_intersection_crossing p point azim polar p0 rest Hpar)
      as H.
    cbv zeta in H. eexists _, _. exact H.
Qed.

Lemma parallel_test_misses_parallel_rays_witness :
  let p := Plane.mk (Sample.base PLANE) (Plane.my (PI / 4) (PI / 2))
             (- Plane.mx (PI / 4) (PI / 2)) 0 1 in
  Plane.parallel p (PI / 4) (PI / 2) = false
  /\ forall l, plane_side p (ray_point Sample.origin (PI / 4) (PI / 2) l) <> 0.
Proof.
  assert (Hs : 1e-10 <= Rabs (1 / sqrt 2)).
  { assert (H2 : 0 < sqrt 2) by (apply sqrt_lt_R0; lra).
    assert (Hsq : sqrt 2 * sqrt 2 = 2) by (apply sqrt_sqrt; lra).
    assert (Hlt : sqrt 2 < 2) by nra.
    assert (Hinv : 1 / 2 < 1 / sqrt 2).
    { unfold Rdiv. rewrite !Rmult_1_l.
      apply Rinv_lt_contravar; [nra | exact Hlt]. }
    rewrite Rabs_right by lra. lra. }
  assert (Hmx : 1e-10 <= Rabs (Plane.mx (PI / 4) (PI / 2))).
  { unfold Plane.mx. rewrite sin_PI2, cos_PI4, Rmult_1_l. exact Hs. }
  assert (Hmy : 1e-10 <= Rabs (Plane.my (PI / 4) (PI / 2))).
  { unfold Plane.my. rewrite sin_PI2, sin_PI4, Rmult_1_l. exact Hs. }
  destruct (parallel_test_misses_parallel_rays (Sample.base PLANE) 1
              Sample.origin (PI / 4) (PI / 2) Sample.origin [] Hmx Hmy)
    as (Hpar & _ & Hoff & _).
  cbv zeta. split; [exact Hpar |].
  apply Hoff. unfold plane_side. cbn. lra.
Defined.

(** ** [ZCylinder::intersection]: the counted Points and the ray *)

Lemma tan_complement (polar : R) :
  tan (PI / 2 - polar) = cos polar / sin polar.
Proof.
  unfold tan. rewrite <- (cos_shift polar), <- (sin_shift polar). reflexivity.
Qed.

(** A point of the ray at a positive parameter, seen from the code: it is
    on the line of slope tan(azim) through the origin of the ray, ahead of
    it in y, and its z is the one the code computes from its x and y. *)
Lemma ray_on_line (point : Point) (azim polar l : R) :
  0 < azim < 2 * PI -> azim <> PI -> cos azim <> 0 ->
  0 < polar < PI -> 0 < l ->
  let q := ray_point point azim polar l in
  getY q = getY point + sin azim / cos azim * (getX q - getX point)
  /\ ahead azim (getY point) (getY q) = true
  /\ getZ q = ZCylinder.z_at (getX point) (getY point) (getZ point) polar
                (getX q) (getY q).
Proof.
  intros Hazim Hne Hcos Hpolar Hl. cbv zeta.
  unfold ray_point, Plane.mx, Plane.my, Plane.mz. cbn [getX getY getZ].
  assert (Hsp : 0 < sin polar) by (apply sin_gt_0; lra).
  assert (Hk : 0 < l * sin polar) by nra.
  set (k := l * sin polar) in *.
  split; [| split].
  - field. exact Hcos.
  - apply ahead_true.
    assert (E : l * (sin polar * sin azim) = k * sin azim) by (unfold k; ring).
    rewrite E.
    destruct (sin_sign azim Hazim Hne) as [[Hlt Hs] | [Hgt Hs]];
      [left | right]; (split; [assumption |]); nra.
  - unfold ZCylinder.z_at. rewrite tan_complement.
    pose proof (sin2_cos2 azim) as Hsc. unfold Rsqr in Hsc.
    replace ((getY point + l * (sin polar * sin azim) - getY point) ^ 2
             + (getX point + l * (sin polar * cos azim) - getX point) ^ 2)
      with (Rsqr k).
    + rewrite sqrt_Rsqr by lra. unfold k. field. lra.
    + unfold Rsqr, k.
      replace ((getY point + l * (sin polar * sin azim) - getY point) ^ 2
               + (getX point + l * (sin polar * cos azim) - getX point) ^ 2)
        with (l * sin polar * (l * sin polar)
              * (sin azim * sin azim + cos azim * cos azim)) by ring.
      rewrite Hsc. ring.
Qed.

(** A point on that line and ahead in y is a point of the ray at a positive
    parameter, with the z the code computes. *)
Lemma line_on_ray (point : Point) (azim polar x y : R) :
  0 < azim < 2 * PI -> azim <> PI -> cos azim <> 0 ->
  0 < polar < PI ->
  y = getY point + sin azim / cos azim * (x - getX point) ->
  ahead azim (getY point) y = true ->
  exists l,
    0 < l
    /\ ray_point point azim polar l
       = mkPoint x y (ZCylinder.z_at (getX point) (getY point) (getZ point)
                        polar x y).
Proof.
  intros Hazim Hne Hcos Hpolar Hline Ha.
  assert (Hsp : 0 < sin polar) by (apply sin_gt_0; lra).
  assert (Hsin : sin azim <> 0).
  { destruct (sin_sign azim Hazim Hne) as [[_ H] | [_ H]]; lra. }
  set (l := (y - getY point) / (sin polar * sin azim)).
  assert (Hl : 0 < l).
  { apply ahead_true in Ha. unfold l.
    destruct (sin_sign azim Hazim Hne) as [[Hlt Hs] | [Hgt Hs]].
    - apply Rdiv_lt_0_compat; [lra | nra].
    - replace ((y - getY point) / (sin polar * sin azim))
        with ((getY point - y) / (sin polar * - sin azim))
        by (field; lra).
      apply Rdiv_lt_0_compat; [lra | nra]. }
  assert (Hy : getY point + l * Plane.my azim polar = y).
  { unfold l, Plane.my. field. lra. }
  assert (Hx : getX point + l * Plane.mx azim polar = x).
  { unfold l, Plane.mx. rewrite Hline. field. lra. }
  exists l. split; [exact Hl |].
  destruct (ray_on_line point azim polar l Hazim Hne Hcos Hpolar Hl)
    as (_ & _ & Hz).
  unfold ray_point in *. cbn [getX getY getZ] in Hz.
  rewrite Hz, Hx, Hy. reflexivity.
Qed.

(** The quadratic formula, the other way round. *)
Lemma quadratic_roots_only (a b cc sd x : R) :
  a <> 0 ->
  sd * sd = b * b - 4 * a * cc ->
  a * x * x + b * x + cc = 0 ->
  x = (- b + sd) / (2 * a) \/ x = (- b - sd) / (2 * a).
Proof.
  intros Ha Hsd Hx.
  assert (H : (2 * a * x + b - sd) * (2 * a * x + b + sd) = 0) by nra.
  apply Rmult_integral in H as [H | H]; [left | right].
  - replace sd with (2 * a * x + b) by lra. field. exact Ha.
  - replace sd with (- (2 * a * x + b)) by lra. field. exact Ha.
Qed.

(** X13: on a track the code does not take for vertical, the Points it
    counts are exactly the crossings ahead.  For the ZCylinder the
    constructor builds, an azimuthal angle in (0, 2 pi) other than pi, a
    polar angle in (0, pi), a positive discriminant and room for two
    Points: a Point is in one of the first [num] slots of the buffer after
    the call, [num] being the value returned, exactly when it is a point of
    the ray at a positive parameter that lies on the cylinder. *)
Theorem counted_points_are_the_crossings_ahead (xc yc r : R) (id : Z)
    (name : string) (g g' : globals) (c : ZCylinder.t) (point : Point)
    (azim polar : R) (points : list Point) :
  ZCylinder.ZCylinder xc yc r id name g = Returned c g' ->
  0 < azim < 2 * PI -> azim <> PI ->
  ZCylinder.vertical azim = false ->
  0 < polar < PI ->
  (2 <= length points)%nat ->
  ZCylinder.discriminant c point azim > 0 ->
  exists num points',
    ZCylinder.intersection c point azim polar points
    = Returned (Z.of_nat num) points'
    /\ forall q,
         (exists i, (i < num)%nat /\ points' !! i = Some q)
         <-> (exists l,
                0 < l /\ q = ray_point point azim polar l /\ on_cylinder c q).
Proof.
  intros Hctor Hazim Hne Hv Hpolar Hlen Hd.
  destruct (ZCylinder_constructed xc yc r id name g) as (s & g1 & Hc).
  rewrite Hc in Hctor. injection Hctor as <- <-.
  set (cyl := ZCylinder.mk s 1 1 (-2 * xc) (-2 * yc)
                (xc * xc + yc * yc - r * r) r (mkPoint xc yc 0)) in *.
  pose proof (cos_nonzero_off_vertical azim Hazim Hv) as Hcos.
  pose proof (intersection_positive cyl point azim polar points Hpolar Hlen Hd)
    as Hrun.
  pose proof (candidates_on_cylinder s xc yc r (mkPoint xc yc 0) point azim
                ltac:(fold cyl; lra)) as Hcircle.
  pose proof (candidates_on_line cyl point azim) as Hline.
  cbv zeta in Hrun, Hcircle, Hline. fold cyl in Hcircle. rewrite Hv in Hline.
  pose proof (sqrt_sqrt _ (Rlt_le _ _ Hd)) as Hsd.
  assert (Hroots : forall x,
             (x - xc) * (x - xc)
             + (getY point + sin azim / cos azim * (x - getX point) - yc)
               * (getY point + sin azim / cos azim * (x - getX point) - yc)
             = r * r ->
             x = fst (fst (candidates cyl point azim))
             \/ x = fst (snd (candidates cyl point azim))).
  { intros x Hx. unfold candidates. rewrite Hv. cbn [fst snd].
    set (sd := sqrt (ZCylinder.discriminant cyl point azim)) in *.
    revert Hsd. unfold ZCylinder.discriminant. rewrite Hv. cbv zeta.
    cbn [cyl ZCylinder._A ZCylinder._B ZCylinder._C ZCylinder._D ZCylinder._E].
    set (m := sin azim / cos azim) in *.
    set (q0 := getY point - m * getX point).
    intros Hsd.
    assert (Ha : 1 + 1 * 1 * m * m <> 0) by nra.
    apply (quadratic_roots_only _ _ _ sd x Ha Hsd).
    unfold q0.
    match goal with
    | |- ?lhs = 0 =>
        replace lhs
          with ((x - xc) * (x - xc)
                + (getY point + m * (x - getX point) - yc)
                  * (getY point + m * (x - getX point) - yc) - r * r) by ring
    end.
    rewrite Hx. ring. }
  exists (count_ahead cyl point azim). eexists. split; [exact Hrun |].
  unfold count_ahead.
  destruct (candidates cyl point azim) as [[x1 y1] [x2 y2]].
  cbn [fst snd] in *. destruct Hcircle as [Hc1 Hc2]. destruct Hline as [Hl1 Hl2].
  set (P1 := mkPoint x1 y1
               (ZCylinder.z_at (getX point) (getY point) (getZ point) polar x1 y1)).
  set (P2 := mkPoint x2 y2
               (ZCylinder.z_at (getX point) (getY point) (getZ point) polar x2 y2)).
  assert (Hon1 : on_cylinder cyl P1) by (unfold on_cylinder; cbn; exact Hc1).
  assert (Hon2 : on_cylinder cyl P2) by (unfold on_cylinder; cbn; exact Hc2).
  assert (Hray : forall x y,
             y = getY point + sin azim / cos azim * (x - getX point) ->
             ahead azim (getY point) y = true ->
             exists l, 0 < l
               /\ mkPoint x y (ZCylinder.z_at (getX point) (getY point)
                                 (getZ point) polar x y)
                  = ray_point point azim polar l).
  { intros x y Hxy Ha.
    destruct (line_on_ray point azim polar x y Hazim Hne Hcos Hpolar Hxy Ha)
      as (l & Hl & E).
    exists l. split; [exact Hl | symmetry; exact E]. }
  assert (Hback : forall l,
             0 < l -> on_cylinder cyl (ray_point point azim polar l) ->
             (ray_point point azim polar l = P1
              /\ ahead azim (getY point) y1 = true)
             \/ (ray_point point azim polar l = P2
                 /\ ahead azim (getY point) y2 = true)).
  { intros l Hl Hon.
    destruct (ray_on_line point azim polar l Hazim Hne Hcos Hpolar Hl)
      as (Hy & Ha & Hz).
    cbv zeta in Hy, Ha, Hz.
    set (q := ray_point point azim polar l) in *.
    assert (Hq : q = mkPoint (getX q) (getY q) (getZ q)) by (destruct q; reflexivity).
    unfold on_cylinder in Hon. cbn [cyl ZCylinder.getX0 ZCylinder.getY0
      ZCylinder._center ZCylinder._radius getX getY] in Hon.
    fold q in Hon.
    rewrite Hy in Hon.
    destruct (Hroots (getX q) Hon) as [E | E]; [left | right].
    - assert (Ey : getY q = y1) by (rewrite Hy, Hl1, E; reflexivity).
      split; [| rewrite <- Ey; exact Ha].
      rewrite Hq, Hz, Ey, E. reflexivity.
    - assert (Ey : getY q = y2) by (rewrite Hy, Hl2, E; reflexivity).
      split; [| rewrite <- Ey; exact Ha].
      rewrite Hq, Hz, Ey, E. reflexivity. }
  intros q. split.
  - intros (i & Hi & Hq).
    destruct (ahead azim (getY point) y1) eqn:Ha1;
      destruct (ahead azim (getY point) y2) eqn:Ha2;
      cbn [Nat.add] in Hi.
    + destruct i as [| [| i]]; [| | lia].
      * rewrite list_lookup_insert_ne in Hq by lia.
        rewrite list_lookup_insert_eq in Hq by lia. injection Hq as <-.
        destruct (Hray x1 y1 Hl1 Ha1) as (l & Hl & E).
        exists l. fold P1 in E. rewrite <- E. auto.
      * rewrite list_lookup_insert_eq in Hq by (rewrite length_insert; lia).
        injection Hq as <-.
        destruct (Hray x2 y2 Hl2 Ha2) as (l & Hl & E).
        exists l. fold P2 in E. rewrite <- E. auto.
    + destruct i as [| i]; [| lia].
      rewrite list_lookup_insert_ne in Hq by lia.
      rewrite list_lookup_insert_eq in Hq by lia. injection Hq as <-.
      destruct (Hray x1 y1 Hl1 Ha1) as (l & Hl & E).
      exists l. fold P1 in E. rewrite <- E. auto.
    + destruct i as [| i]; [| lia].
      rewrite list_lookup_insert_eq in Hq by (rewrite length_insert; lia).
      injection Hq as <-.
      destruct (Hray x2 y2 Hl2 Ha2) as (l & Hl & E).
      exists l. fold P2 in E. rewrite <- E. auto.
    + lia.
  - intros (l & Hl & -> & Hon).
    destruct (Hback l Hl Hon) as [[E Ha] | [E Ha]]; rewrite E, ?Ha.
    + exists 0%nat. split; [destruct (ahead azim (getY point) y2); lia |].
      rewrite list_lookup_insert_ne by lia.
      apply list_lookup_insert_eq. lia.
    + exists (if ahead azim (getY point) y1 then 1 else 0)%nat.
      split; [destruct (ahead azim (getY point) y1); lia |].
      apply list_lookup_insert_eq. rewrite length_insert.
      destruct (ahead azim (getY point) y1); lia.
Qed.

Lemma vertical_PI4 : ZCylinder.vertical (PI / 4) = false.
Proof.
  pose proof PI2_1 as Hpi.
  unfold ZCylinder.vertical. apply orb_false_iff.
  split; apply Rltb_false; rewrite Rabs_left by lra; lra.
Qed.

Lemma counted_points_are_the_crossings_ahead_witness :
  exists num points',
    ZCylinder.intersection Sample.unit_cylinder
      (mkPoint (- (2 * cos (PI / 4))) (- (2 * sin (PI / 4))) 0)
      (PI / 4) (PI / 2) [Sample.origin; Sample.origin]
    = Returned (Z.of_nat num) points'
    /\ forall q,
         (exists i, (i < num)%nat /\ points' !! i = Some q)
         <-> (exists l,
                0 < l
                /\ q = ray_point
                         (mkPoint (- (2 * cos (PI / 4))) (- (2 * sin (PI / 4))) 0)
                         (PI / 4) (PI / 2) l
                /\ on_cylinder Sample.unit_cylinder q).
Proof.
  pose proof PI2_1 as Hpi.
  apply (counted_points_are_the_crossings_ahead 0 0 1 1 ""
           initial_globals (Globals 10000 1) Sample.unit_cylinder).
  - apply sample_unit_cylinder_constructed.
  - lra.
  - lra.
  - apply vertical_PI4.
  - lra.
  - cbn. lia.
  - apply (through_centre (Sample.base ZCYLINDER) 0 0 1 (mkPoint 0 0 0)
             (mkPoint (- (2 * cos (PI / 4))) (- (2 * sin (PI / 4))) 0)
             (PI / 4) 2).
    + lra.
    + lra.
    + lra.
    + cbn. ring.
    + cbn. ring.
    + rewrite vertical_PI4. discriminate.
Defined.

(** ** [ZCylinder::intersection]: a zero discriminant *)

(** X14: on a track taken for vertical, a zero discriminant never yields a
    value.  Whatever the cylinder, the origin, the polar angle and the
    buffer, the call stores the root (or writes outside an empty buffer)
    and then runs off the end of the function, its [discr == 0] block
    holding no [return]. *)
Theorem vertical_tangent_never_returns (c : ZCylinder.t) (point : Point)
    (azim polar : R) (points : list Point) :
  ZCylinder.vertical azim = true ->
  ZCylinder.discriminant c point azim = 0 ->
  ZCylinder.intersection c point azim polar points = Undefined.
Proof.
  intros Hv. unfold ZCylinder.discriminant, ZCylinder.intersection.
  cbv zeta. fold (ZCylinder.vertical azim). rewrite Hv. intros Hd.
  rewrite Rltb_false by lra. rewrite Reqb_true by exact Hd.
  unfold bind, ZCylinder.root, bind, store.
  destruct (decide (0 < length points)%nat); reflexivity.
Qed.

Lemma vertical_tangent_never_returns_witness :
  ZCylinder.vertical (PI / 2) = true
  /\ ZCylinder.discriminant Sample.unit_cylinder (mkPoint 1 (- 1) 0) (PI / 2) = 0
  /\ ZCylinder.intersection Sample.unit_cylinder (mkPoint 1 (- 1) 0)
       (PI / 2) (PI / 2) [Sample.origin; Sample.origin] = Undefined.
Proof.
  split; [apply vertical_PI2 |].
  split; [apply vertical_tangent_has_no_return |].
  apply vertical_tangent_never_returns.
  - apply vertical_PI2.
  - apply vertical_tangent_has_no_return.
Defined.

(** X15: elsewhere the single root of a zero discriminant follows the
    buffer.  Its x is the double root -b / (2a), but its y is computed from
    the x that [points[0]] held on entry: two calls that differ only in
    that x store Points with the same x and different y. *)
Theorem tangent_point_follows_the_buffer (c : ZCylinder.t) (point : Point)
    (azim polar : R) (p0 p0' : Point) (rest : list Point) :
  0 < azim < 2 * PI -> azim <> PI ->
  ZCylinder.vertical azim = false ->
  0 < polar < PI ->
  ZCylinder.discriminant c point azim = 0 ->
  getX p0 <> getX p0' ->
  exists num num' q q',
    ZCylinder.intersection c point azim polar (p0 :: rest)
    = Returned num (q :: rest)
    /\ ZCylinder.intersection c point azim polar (p0' :: rest)
       = Returned num' (q' :: rest)
    /\ getX q = getX q'
    /\ getY q <> getY q'
    /\ getY q = getY point + sin azim / cos azim * (getX p0 - getX point).
Proof.
  intros Hazim Hne Hv Hpolar Hd Hx.
  pose proof (tangent_reads_buffer c point azim polar p0 rest Hpolar Hv Hd) as H.
  pose proof (tangent_reads_buffer c point azim polar p0' rest Hpolar Hv Hd) as H'.
  cbv zeta in H, H'.
  eexists _, _, _, _. split; [exact H |]. split; [exact H' |].
  cbn [getX getY]. split; [reflexivity |]. split; [| reflexivity].
  pose proof (cos_nonzero_off_vertical azim Hazim Hv) as Hcos.
  assert (Hsin : sin azim <> 0).
  { destruct (sin_sign azim Hazim Hne) as [[_ Hs] | [_ Hs]]; lra. }
  assert (Hm : sin azim / cos azim <> 0).
  { unfold Rdiv. apply Rmult_integral_contrapositive_currified;
      [exact Hsin | apply Rinv_neq_0_compat, Hcos]. }
  intros E.
  assert (E' : sin azim / cos azim * (getX p0 - getX p0') = 0) by lra.
  apply Rmult_integral in E' as [E' | E']; [contradiction | lra].
Qed.

Lemma tan_PI4_ratio : sin (PI / 4) / cos (PI / 4) = 1.
Proof.
  assert (H2 : 0 < sqrt 2) by (apply sqrt_lt_R0; lra).
  rewrite sin_PI4, cos_PI4. field. lra.
Qed.

Lemma tangent_point_follows_the_buffer_witness :
  exists num num' q q',
    ZCylinder.intersection Sample.unit_cylinder (mkPoint 0 (sqrt 2) 0)
      (PI / 4) (PI / 2) [Sample.origin] = Returned num [q]
    /\ ZCylinder.intersection Sample.unit_cylinder (mkPoint 0 (sqrt 2) 0)
         (PI / 4) (PI / 2) [mkPoint 1 0 0] = Returned num' [q']
    /\ getY q <> getY q'.
Proof.
  pose proof PI2_1 as Hpi.
  destruct (tangent_point_follows_the_buffer Sample.unit_cylinder
              (mkPoint 0 (sqrt 2) 0) (PI / 4) (PI / 2)
              Sample.origin (mkPoint 1 0 0) [])
    as (num & num' & q & q' & H & H' & _ & Hy & _).
  - lra.
  - lra.
  - apply vertical_PI4.
  - lra.
  - unfold ZCylinder.discriminant. rewrite vertical_PI4, tan_PI4_ratio.
    assert (Hs : sqrt 2 * sqrt 2 = 2) by (apply sqrt_sqrt; lra).
    cbn. nra.
  - cbn. lra.
  - exists num, num', q, q'. auto.
Defined.

(** ** The neighbour vectors as a registry *)

Local Close Scope R_scope.

Lemma registers_nil (sp : ptr) (s : Surface.t) : registers [] sp s s.
Proof.
  intros halfspace. destruct (Surface._neighbors s !! halfspace) as [l |] eqn:E;
    [| reflexivity].
  exists l. split; [reflexivity |]. split; [reflexivity |].
  intros cell. split; [auto |]. intros [H | H]; [exact H |].
  apply elem_of_nil in H. contradiction.
Qed.

Lemma registers_app (calls1 calls2 : list call) (sp : ptr)
    (s s1 s2 : Surface.t) :
  registers calls1 sp s s1 -> registers calls2 sp s1 s2 ->
  registers (calls1 ++ calls2) sp s s2.
Proof.
  intros H1 H2 halfspace. specialize (H1 halfspace). specialize (H2 halfspace).
  destruct (Surface._neighbors s !! halfspace) as [l |].
  - destruct H1 as (l1 & E1 & P1 & M1). rewrite E1 in H2.
    destruct H2 as (l2 & E2 & P2 & M2).
    exists l2. split; [exact E2 |]. split; [etrans; eassumption |].
    intros cell. rewrite M2, M1, elem_of_app. tauto.
  - rewrite H1 in H2. exact H2.
Qed.

Lemma same_attributes_trans (s s1 s2 : Surface.t) :
  same_attributes s s1 -> same_attributes s1 s2 -> same_attributes s s2.
Proof.
  unfold same_attributes. intros (A1 & A2 & A3 & A4 & A5) (B1 & B2 & B3 & B4 & B5).
  repeat split; congruence.
Qed.

(** One valid call, as it acts on the Surfaces. *)
Lemma call_registers (w : world) (c : call) :
  world_ok w ->
  valid_call w c ->
  exists w',
    addNeighborCell (call_surface c) (call_halfspace c) (call_cell c) w
    = Returned tt w'
    /\ (forall sp, surfaces w !! sp = None -> surfaces w' !! sp = None)
    /\ (forall sp s,
          surfaces w !! sp = Some s ->
          exists s',
            surfaces w' !! sp = Some s'
            /\ same_attributes s s' /\ registers [c] sp s s').
Proof.
  intros Hok ([s Hs] & Hh & Hcell).
  destruct (addNeighborCell_valid w _ _ _ s Hs (Hok _ _ Hs) Hh Hcell)
    as (l & cs' & Hl & Hrun & _).
  cbv zeta in Hrun. eexists. split; [exact Hrun |]. cbn [surfaces].
  destruct c as [this halfspace cell]. cbn [call_surface call_halfspace call_cell] in *.
  split.
  - intros sp Hnone. rewrite lookup_insert_ne; [exact Hnone |].
    intros ->. rewrite Hs in Hnone. discriminate.
  - intros sp s0 H0. destruct (decide (sp = this)) as [-> | Hne].
    + rewrite Hs in H0. injection H0 as <-.
      rewrite lookup_insert_eq. eexists. split; [reflexivity |].
      split; [repeat split |].
      intros h0. cbn [Surface._neighbors Surface.set_neighbors].
      destruct (decide (h0 = halfspace)) as [-> | Hh0].
      * rewrite Hl, lookup_insert_eq. eexists. split; [reflexivity |].
        split.
        { destruct (decide (cell ∈ l)); [reflexivity |].
          apply prefix_app_r. reflexivity. }
        intros cell0. rewrite list_elem_of_singleton.
        destruct (decide (cell ∈ l)) as [Hin | Hnot].
        { split; [auto |]. intros [H | H]; [exact H |].
          injection H as ->. exact Hin. }
        { rewrite elem_of_app, list_elem_of_singleton. split.
          - intros [H | ->]; [left; exact H | right; reflexivity].
          - intros [H | H]; [left; exact H | right].
            injection H as ->. reflexivity. }
      * rewrite lookup_insert_ne by congruence.
        destruct (Surface._neighbors s !! h0) as [l0 |]; [| reflexivity].
        exists l0. split; [reflexivity |]. split; [reflexivity |].
        intros cell0. rewrite list_elem_of_singleton. split; [auto |].
        intros [H | H]; [exact H |]. injection H as E _. contradiction.
    + rewrite lookup_insert_ne by congruence.
      exists s0. split; [exact H0 |]. split; [repeat split |].
      intros h0. destruct (Surface._neighbors s0 !! h0) as [l0 |]; [| reflexivity].
      exists l0. split; [reflexivity |]. split; [reflexivity |].
      intros cell0. rewrite list_elem_of_singleton. split; [auto |].
      intros [H | H]; [exact H |]. injection H as E _ _. contradiction.
Qed.

(** X16: the neighbour vectors are a registry of the calls.  A sequence of
    valid calls of [addNeighborCell] on Surfaces whose vectors are sound
    runs to its end; it creates and removes no Surface, leaves id, uid,
    name, type and boundary type of each as they were, and each vector
    ends up as the old vector followed by new entries, holding a Cell
    exactly when the old vector held it or one of the calls registered it
    for this Surface and halfspace. *)
Theorem registry_holds_what_was_registered (calls : list call) (w : world) :
  world_ok w ->
  Forall (valid_call w) calls ->
  exists w',
    run_calls calls w = Returned tt w'
    /\ (forall sp, surfaces w !! sp = None -> surfaces w' !! sp = None)
    /\ (forall sp s,
          surfaces w !! sp = Some s ->
          exists s',
            surfaces w' !! sp = Some s'
            /\ same_attributes s s' /\ registers calls sp s s').
Proof.
  revert w. induction calls as [| c calls IH]; intros w Hok Hvalid.
  - exists w. split; [reflexivity |]. split; [auto |].
    intros sp s Hs. exists s. split; [exact Hs |].
    split; [repeat split | apply registers_nil].
  - apply Forall_cons in Hvalid as [Hc Hrest].
    destruct (call_preserves w c Hok Hc) as (w1 & Hrun1 & Hok1 & Hg & Hsp & _).
    destruct (call_registers w c Hok Hc) as (w1' & Hrun1' & Hnone1 & Hsome1).
    rewrite Hrun1 in Hrun1'. injection Hrun1' as <-.
    destruct (IH w1 Hok1) as (w' & Hrun & Hnone & Hsome).
    { eapply Forall_impl; [exact Hrest |].
      intros c0. apply valid_call_preserved; assumption. }
    exists w'. split.
    { unfold run_calls. cbn [for_each]. unfold bind at 1. rewrite Hrun1.
      exact Hrun. }
    split; [intros sp H; apply Hnone, Hnone1, H |].
    intros sp s Hs.
    destruct (Hsome1 sp s Hs) as (s1 & Hs1 & Ha1 & Hr1).
    destruct (Hsome sp s1 Hs1) as (s' & Hs' & Ha' & Hr').
    exists s'. split; [exact Hs' |].
    split; [eapply same_attributes_trans; eassumption |].
    apply (registers_app [c] calls sp s s1 s'); assumption.
Qed.

Lemma registry_holds_what_was_registered_witness :
  exists w',
    run_calls Sample.chain_calls Sample.fresh_world = Returned tt w'
    /\ (forall sp, surfaces Sample.fresh_world !! sp = None ->
                   surfaces w' !! sp = None)
    /\ (forall sp s,
          surfaces Sample.fresh_world !! sp = Some s ->
          exists s',
            surfaces w' !! sp = Some s'
            /\ same_attributes s s' /\ registers Sample.chain_calls sp s s').
Proof.
  apply registry_holds_what_was_registered.
  - apply fresh_world_ok.
  - apply chain_calls_valid.
Defined.

(** ** The index macro [taus(p,e)] *)

(** X17: [taus(p,e)] is a row-major index.  For P rows of [_num_groups]
    entries whose product fits an [int], the offset (p)*_num_groups + (e)
    of a row 0 <= p < P and an entry 0 <= e < _num_groups is computed
    without overflow, lies within the P * _num_groups cells, and two
    offsets agree only for the same row and entry. *)
Theorem taus_offsets_are_distinct (_num_groups P p e p' e' : Z) :
  (0 <= p < P)%Z -> (0 <= e < _num_groups)%Z ->
  (0 <= p' < P)%Z -> (0 <= e' < _num_groups)%Z ->
  (P * _num_groups <= INT_MAX + 1)%Z ->
  taus_offset _num_groups p e = (p * _num_groups + e)%Z
  /\ (0 <= taus_offset _num_groups p e < P * _num_groups)%Z
  /\ (taus_offset _num_groups p e = taus_offset _num_groups p' e' ->
      p = p' /\ e = e').
Proof.
  intros Hp He Hp' He' Hfit.
  assert (Hoff : forall a b,
             (0 <= a < P)%Z -> (0 <= b < _num_groups)%Z ->
             taus_offset _num_groups a b = (a * _num_groups + b)%Z
             /\ (0 <= a * _num_groups + b < P * _num_groups)%Z).
  { intros a b Ha Hb.
    assert (H1 : (0 <= a * _num_groups)%Z) by nia.
    assert (H2 : (a * _num_groups + b < P * _num_groups)%Z) by nia.
    unfold taus_offset.
    rewrite (wrap32_in_range (a * _num_groups))
      by (unfold INT_MIN, INT_MAX in *; lia).
    rewrite wrap32_in_range by (unfold INT_MIN, INT_MAX in *; lia).
    split; [reflexivity | lia]. }
  destruct (Hoff p e Hp He) as [E R]. destruct (Hoff p' e' Hp' He') as [E' R'].
  split; [exact E |]. split; [rewrite E; exact R |].
  rewrite E, E'. intros H.
  assert (p = p') by nia. subst p'. split; [reflexivity | lia].
Qed.

Lemma taus_offsets_are_distinct_witness :
  taus_offset 7 2 6 = 20%Z
  /\ (0 <= taus_offset 7 2 6 < 3 * 7)%Z
  /\ (taus_offset 7 2 6 = taus_offset 7 1 0 -> 2%Z = 1%Z /\ 6%Z = 0%Z).
Proof.
  apply (taus_offsets_are_distinct 7 3 2 6 1 0); unfold INT_MAX; lia.
Defined.

(** ** [ZCylinder::intersection]: the branch for vertical tracks *)

Local Open Scope R_scope.

(** The angles the code takes for vertical lie next to pi/2 or 3pi/2. *)
Lemma vertical_range (azim : R) :
  ZCylinder.vertical azim = true ->
  (0 < azim < PI /\ Rabs (azim - PI / 2) < 1e-10)
  \/ (PI < azim < 2 * PI /\ Rabs (azim - 3 * (PI / 2)) < 1e-10).
Proof.
  pose proof PI2_1 as Hpi. unfold ZCylinder.vertical.
  rewrite orb_true_iff, !Rltb_lt. intros [H | H]; [left | right].
  - split; [apply Rabs_def2 in H; lra |].
    eapply Rlt_le_trans; [exact H | lra].
  - replace (3.0 * (PI / 2)) with (3 * (PI / 2)) in H by lra.
    split; [apply Rabs_def2 in H; lra |].
    eapply Rlt_le_trans; [exact H | lra].
Qed.

(** The z the code computes on the line x = x0. *)
Lemma z_at_vertical (x0 y0 z0 polar y : R) :
  ZCylinder.z_at x0 y0 z0 polar x0 y
  = z0 + Rabs (y - y0) * (cos polar / sin polar).
Proof.
  unfold ZCylinder.z_at. rewrite tan_complement.
  replace ((y - y0) ^ 2 + (x0 - x0) ^ 2) with (Rsqr (y - y0))
    by (unfold Rsqr; ring).
  rewrite sqrt_Rsqr_abs. reflexivity.
Qed.

(** The Points in the counted slots after two roots were stored. *)
Lemma counted_slots (a1 a2 : bool) (P1 P2 q : Point) (points : list Point)
    (i : nat) :
  (2 <= length points)%nat ->
  (i < (if a1 then 1 else 0) + (if a2 then 1 else 0))%nat ->
  <[(if a1 then 1 else 0)%nat := P2]> (<[0%nat := P1]> points) !! i = Some q ->
  (q = P1 /\ a1 = true) \/ (q = P2 /\ a2 = true).
Proof.
  intros Hlen Hi Hq. destruct a1, a2; cbn [Nat.add] in Hi.
  - destruct i as [| [| i]]; [| | lia].
    + rewrite list_lookup_insert_ne in Hq by lia.
      rewrite list_lookup_insert_eq in Hq by lia. injection Hq as <-. auto.
    + rewrite list_lookup_insert_eq in Hq by (rewrite length_insert; lia).
      injection Hq as <-. auto.
  - destruct i as [| i]; [| lia].
    rewrite list_lookup_insert_ne in Hq by lia.
    rewrite list_lookup_insert_eq in Hq by lia. injection Hq as <-. auto.
  - destruct i as [| i]; [| lia].
    rewrite list_lookup_insert_eq in Hq by (rewrite length_insert; lia).
    injection Hq as <-. auto.
  - lia.
Qed.

(** X18: a track taken for vertical is solved on the line x = x0.  When
    the azimuthal angle is within 1e-10 of pi/2 or 3pi/2 (polar angle in
    (0, pi), positive discriminant, room for two Points), every counted
    Point has the x of the ray's origin, lies on the cylinder and lies
    ahead in y.  Such a Point is a point of the ray at a positive parameter
    when the track is exactly vertical (cos azim = 0); for any other angle
    within the tolerance it is on the cylinder but not on the line of the
    ray at all. *)
Theorem vertical_branch_solves_on_the_line_x0 (xc yc r : R) (id : Z)
    (name : string) (g g' : globals) (c : ZCylinder.t) (point : Point)
    (azim polar : R) (points : list Point) :
  ZCylinder.ZCylinder xc yc r id name g = Returned c g' ->
  ZCylinder.vertical azim = true ->
  0 < polar < PI ->
  (2 <= length points)%nat ->
  ZCylinder.discriminant c point azim > 0 ->
  exists num points',
    ZCylinder.intersection c point azim polar points
    = Returned (Z.of_nat num) points'
    /\ forall i q,
         (i < num)%nat -> points' !! i = Some q ->
         getX q = getX point
         /\ on_cylinder c q
         /\ ahead azim (getY point) (getY q) = true
         /\ (cos azim = 0 ->
             exists l, 0 < l /\ q = ray_point point azim polar l)
         /\ (cos azim <> 0 ->
             forall l, q <> ray_point point azim polar l).
Proof.
  intros Hctor Hv Hpolar Hlen Hd.
  destruct (ZCylinder_constructed xc yc r id name g) as (s & g1 & Hc).
  rewrite Hc in Hctor. injection Hctor as <- <-.
  set (cyl := ZCylinder.mk s 1 1 (-2 * xc) (-2 * yc)
                (xc * xc + yc * yc - r * r) r (mkPoint xc yc 0)) in *.
  pose proof (intersection_positive cyl point azim polar points Hpolar Hlen Hd)
    as Hrun.
  pose proof (candidates_on_cylinder s xc yc r (mkPoint xc yc 0) point azim
                ltac:(fold cyl; lra)) as Hcircle.
  pose proof (candidates_on_line cyl point azim) as Hline.
  cbv zeta in Hrun, Hcircle, Hline. fold cyl in Hcircle. rewrite Hv in Hline.
  assert (Hsp : 0 < sin polar) by (apply sin_gt_0; lra).
  exists (count_ahead cyl point azim). eexists. split; [exact Hrun |].
  unfold count_ahead.
  destruct (candidates cyl point azim) as [[x1 y1] [x2 y2]].
  cbn [fst snd] in *. destruct Hcircle as [Hc1 Hc2]. destruct Hline as [-> ->].
  assert (Hone : forall y,
             (getX point - xc) * (getX point - xc) + (y - yc) * (y - yc) = r * r ->
             ahead azim (getY point) y = true ->
             let q := mkPoint (getX point) y
                        (ZCylinder.z_at (getX point) (getY point) (getZ point)
                           polar (getX point) y) in
             getX q = getX point
             /\ on_cylinder cyl q
             /\ ahead azim (getY point) (getY q) = true
             /\ (cos azim = 0 ->
                 exists l, 0 < l /\ q = ray_point point azim polar l)
             /\ (cos azim <> 0 ->
                 forall l, q <> ray_point point azim polar l)).
  { intros y Hcirc Ha. cbv zeta. cbn [getX getY].
    split; [reflexivity |]. split; [unfold on_cylinder; cbn; exact Hcirc |].
    split; [exact Ha |].
    apply ahead_true in Ha. rewrite z_at_vertical. split.
    - intros Hcos.
      pose proof (sin2_cos2 azim) as Hsc. unfold Rsqr in Hsc.
      rewrite Hcos in Hsc.
      assert (Hs2 : (sin azim - 1) * (sin azim + 1) = 0) by lra.
      unfold ray_point, Plane.mx, Plane.my, Plane.mz. rewrite Hcos.
      destruct (vertical_range azim Hv) as [[Hr _] | [Hr _]].
      + assert (Hs : sin azim = 1).
        { pose proof (sin_gt_0 azim ltac:(lra) ltac:(lra)).
          apply Rmult_integral in Hs2 as [E | E]; lra. }
        assert (Hy : y > getY point) by lra.
        exists ((y - getY point) / sin polar).
        split; [apply Rdiv_lt_0_compat; lra |].
        rewrite Hs, Rabs_right by lra. f_equal; field; lra.
      + assert (Hs : sin azim = -1).
        { pose proof (sin_lt_0 azim ltac:(lra) ltac:(lra)).
          apply Rmult_integral in Hs2 as [E | E]; lra. }
        assert (Hy : y < getY point) by lra.
        exists ((getY point - y) / sin polar).
        split; [apply Rdiv_lt_0_compat; lra |].
        rewrite Hs, Rabs_left by lra. f_equal; field; lra.
    - intros Hcos l E. unfold ray_point, Plane.mx, Plane.my in E.
      injection E as Ex Ey _.
      assert (Hl : l * (sin polar * cos azim) = 0) by lra.
      apply Rmult_integral in Hl as [Hl | Hl].
      + rewrite Hl in Ey. lra.
      + apply Rmult_integral in Hl as [Hl | Hl]; [lra | contradiction]. }
  intros i q Hi Hq.
  destruct (counted_slots _ _ _ _ q points i Hlen Hi Hq) as [[-> Ha] | [-> Ha]].
  - exact (Hone y1 Hc1 Ha).
  - exact (Hone y2 Hc2 Ha).
Qed.

Lemma vertical_branch_solves_on_the_line_x0_witness :
  exists num points',
    ZCylinder.intersection Sample.unit_cylinder (mkPoint 0 (- 2) 0)
      (PI / 2) (PI / 2) [Sample.origin; Sample.origin]
    = Returned (Z.of_nat num) points'
    /\ forall i q,
         (i < num)%nat -> points' !! i = Some q ->
         getX q = 0 /\ on_cylinder Sample.unit_cylinder q.
Proof.
  pose proof PI2_1 as Hpi.
  destruct (vertical_branch_solves_on_the_line_x0 0 0 1 1 ""
              initial_globals (Globals 10000 1) Sample.unit_cylinder
              (mkPoint 0 (- 2) 0) (PI / 2) (PI / 2)
              [Sample.origin; Sample.origin])
    as (num & points' & Hrun & Hall).
  - apply sample_unit_cylinder_constructed.
  - apply vertical_PI2.
  - lra.
  - cbn. lia.
  - unfold ZCylinder.discriminant. rewrite vertical_PI2. cbn. lra.
  - exists num, points'. split; [exact Hrun |].
    intros i q Hi Hq. destruct (Hall i q Hi Hq) as (Hx & Hon & _).
    split; [exact Hx | exact Hon].
Defined.

(** An angle within the tolerance that is not vertical. *)
Lemma near_vertical_angle :
  ZCylinder.vertical (PI / 2 + 1e-11) = true /\ cos (PI / 2 + 1e-11) <> 0.
Proof.
  pose proof PI2_1 as Hpi. split.
  - unfold ZCylinder.vertical. apply orb_true_iff. left. apply Rltb_true.
    replace (PI / 2 + 1e-11 - PI / 2) with 1e-11 by ring.
    rewrite Rabs_right by lra. lra.
  - pose proof (sin_cos 1e-11) as H.
    pose proof (sin_gt_0 1e-11 ltac:(lra) ltac:(lra)). lra.
Qed.
